(** * NAFF: Numerical Analysis of Fundamental Frequencies

    A shallow embedding of [gary/dynamics/naff.py] (class [NAFF]) and the
    properties of its frequency-decomposition engine.

    Numbers.  The Python code computes on IEEE doubles; the embedding uses
    exact real arithmetic ([R] of the Standard Library, with its [cos],
    [sin], [sqrt], [atan] and [PI]) and complex numbers as pairs of reals.
    Rounding (including the [complex64] storage of the basis rows) is
    therefore outside the model; everything else (control flow, exceptions,
    array shapes, index arithmetic) follows the source line by line.  The
    infinities and NaNs of IEEE arithmetic are outside the model as well: a
    quotient always has a value in [R].  The one quotient whose divisor the
    source itself expects to vanish, [1. / np.sqrt(prod)] in [gso], is
    modelled a second time with its non-finite value made explicit
    ([gso_ieee]).

    Arrays are lists.  Element-wise numpy operations follow numpy's
    broadcasting rule for one-dimensional operands ([bcast2]): equal lengths
    are zipped, a length-one operand is repeated, anything else raises.

    Exceptions are values of [exn]; a method that may raise returns a
    [result]. *)

From Stdlib Require Import String.
From Stdlib Require Import Reals Lra Lia ZArith Bool List Permutation Sorted.
Import ListNotations.

Local Open Scope R_scope.

(** ** Exceptions and the result monad *)

Inductive exn : Type :=
| IndexError            (* sequence index out of range *)
| ShapeError            (* numpy/scipy ValueError: operands of incompatible shapes *)
| EmptyError            (* numpy ValueError: reduction or stacking of an empty sequence *)
| NegativeDimError      (* numpy ValueError: negative dimensions are not allowed *)
| UnboundLocalError     (* local variable referenced before assignment *)
| MinimizationError (imode : Z) (smode : string)
                        (* ValueError("Function minimization to find best
                           frequency failed with: imode : smode") *)
| MissingXYZError.      (* ValueError("Don't have x,y,z frequencies.") *)

Inductive result (A : Type) : Type :=
| Ok (a : A)
| Raise (e : exn).

Arguments Ok {A} a.
Arguments Raise {A} e.

Definition bind {A B : Type} (c : result A) (k : A -> result B) : result B :=
  match c with
  | Ok a => k a
  | Raise e => Raise e
  end.

Definition rmap {A B : Type} (g : A -> B) (c : result A) : result B :=
  bind c (fun a => Ok (g a)).

Notation "x <- c ;; k" := (bind c (fun x => k))
  (at level 61, c at next level, right associativity).
Notation "' pat <- c ;; k" := (bind c (fun x => match x with pat => k end))
  (at level 61, pat pattern, c at next level, right associativity).

Fixpoint mapM {A B : Type} (g : A -> result B) (l : list A) : result (list B) :=
  match l with
  | [] => Ok []
  | a :: l' => b <- g a ;; bs <- mapM g l' ;; Ok (b :: bs)
  end.

(** ** Real and complex scalars *)

Definition Rltb (x y : R) : bool := if Rlt_dec x y then true else false.
Definition Rleb (x y : R) : bool := if Rle_dec x y then true else false.
Definition Reqb (x y : R) : bool := if Req_dec_T x y then true else false.

Record C : Type := mkC { Re : R; Im : R }.

Definition C0 : C := mkC 0 0.
Definition C1 : C := mkC 1 0.
Definition RtoC (x : R) : C := mkC x 0.
Definition Cadd (a b : C) : C := mkC (Re a + Re b) (Im a + Im b).
Definition Csub (a b : C) : C := mkC (Re a - Re b) (Im a - Im b).
Definition Cmul (a b : C) : C :=
  mkC (Re a * Re b - Im a * Im b) (Re a * Im b + Im a * Re b).
Definition Cconj (a : C) : C := mkC (Re a) (- Im a).
(** complex times real, and complex over real *)
Definition Cscale (a : C) (x : R) : C := mkC (Re a * x) (Im a * x).
Definition Cdivr (a : C) (x : R) : C := mkC (Re a / x) (Im a / x).
(** [np.abs] of a complex number *)
Definition Cmod (a : C) : R := sqrt (Re a * Re a + Im a * Im a).
(** [1. / z] *)
Definition Cinv (a : C) : C :=
  let m := Re a * Re a + Im a * Im a in mkC (Re a / m) (- Im a / m).
(** [np.exp(1j * x)] for a real [x] *)
Definition Cexp_i (x : R) : C := mkC (cos x) (sin x).
(** [np.sqrt] of a complex number: the principal square root *)
Definition Csqrt (a : C) : C :=
  let r := Cmod a in
  mkC (sqrt ((r + Re a) / 2))
      ((if Rlt_dec (Im a) 0 then -1 else 1) * sqrt ((r - Re a) / 2)).
Definition Ceqb (a b : C) : bool := Reqb (Re a) (Re b) && Reqb (Im a) (Im b).

(** [np.arctan2(y, x)] *)
Definition atan2 (y x : R) : R :=
  if Rlt_dec 0 x then atan (y / x)
  else if Rlt_dec x 0 then
         (if Rlt_dec y 0 then atan (y / x) - PI else atan (y / x) + PI)
  else if Rlt_dec 0 y then PI / 2
  else if Rlt_dec y 0 then - (PI / 2)
  else 0.

(** ** numpy and scipy primitives *)

(** [a[i]] for a non-negative index *)
Definition getitem {A : Type} (l : list A) (i : nat) : result A :=
  match nth_error l i with
  | Some a => Ok a
  | None => Raise IndexError
  end.

(** [a[-1]] *)
Definition getlast {A : Type} (l : list A) : result A :=
  match l with
  | [] => Raise IndexError
  | _ => getitem l (length l - 1)
  end.

(** [a[i] = v] for an index in range (out of range leaves the list as it is;
    the callers below only write inside the allocated arrays) *)
Fixpoint list_set {A : Type} (i : nat) (v : A) (l : list A) : list A :=
  match l, i with
  | [], _ => []
  | _ :: l', O => v :: l'
  | a :: l', S i' => a :: list_set i' v l'
  end.

Fixpoint zip_with {A B D : Type} (g : A -> B -> D) (u : list A) (v : list B) : list D :=
  match u, v with
  | a :: u', b :: v' => g a b :: zip_with g u' v'
  | _, _ => []
  end.

(** Element-wise binary operation on one-dimensional arrays, with numpy's
    broadcasting rule. *)
Definition bcast2 {A B D : Type} (g : A -> B -> D) (u : list A) (v : list B)
  : result (list D) :=
  if Nat.eqb (length u) (length v) then Ok (zip_with g u v)
  else match u, v with
       | [a], _ => Ok (map (g a) v)
       | _, [b] => Ok (map (fun a => g a b) u)
       | _, _ => Raise ShapeError
       end.

Definition Rsum (l : list R) : R := fold_left Rplus l 0.
Definition Csum (l : list C) : C := fold_left Cadd l C0.

(** index of the first maximum / minimum ([argmax], [argmin]) *)
Fixpoint argmax_from (bi : nat) (b : R) (i : nat) (l : list R) : nat :=
  match l with
  | [] => bi
  | x :: l' => if Rlt_dec b x then argmax_from i x (S i) l'
               else argmax_from bi b (S i) l'
  end.

Definition argmax (l : list R) : result nat :=
  match l with
  | [] => Raise EmptyError
  | x :: l' => Ok (argmax_from 0 x 1 l')
  end.

Fixpoint argmin_from (bi : nat) (b : R) (i : nat) (l : list R) : nat :=
  match l with
  | [] => bi
  | x :: l' => if Rlt_dec x b then argmin_from i x (S i) l'
               else argmin_from bi b (S i) l'
  end.

Definition argmin (l : list R) : result nat :=
  match l with
  | [] => Raise EmptyError
  | x :: l' => Ok (argmin_from 0 x 1 l')
  end.

(** [np.max] of a one-dimensional array *)
Definition amax (l : list R) : result R :=
  match l with
  | [] => Raise EmptyError
  | x :: l' => Ok (fold_left Rmax l' x)
  end.

(** [np.linspace(0, 1, 50)] *)
Definition linspace_0_1_50 : list R := map (fun i => INR i / 49) (seq 0 50).

(** [numpy.fft.fft]: the discrete Fourier transform
    [F[k] = sum_j f[j] exp(-2 pi i j k / n)]; an empty input is rejected. *)
Definition fft (f : list C) : result (list C) :=
  match f with
  | [] => Raise EmptyError
  | _ =>
      let n := length f in
      Ok (map (fun k =>
                 Csum (zip_with
                         (fun j fj =>
                            Cmul fj (Cexp_i (- (2 * PI * INR j * INR k / INR n))))
                         (seq 0 n) f))
              (seq 0 n))
  end.

(** [numpy.fft.fftfreq(n, d)]:
    [[0, 1, ..., (n-1)//2, -(n//2), ..., -1] / (d*n)] *)
Definition fftfreq (n : nat) (d : R) : list R :=
  let val := 1 / (INR n * d) in
  let npos := S ((n - 1) / 2) in
  let nneg := (n / 2)%nat in
  map (fun i => INR i * val) (seq 0 npos)
  ++ map (fun i => (INR i - INR nneg) * val) (seq 0 nneg).

(** [(-1)**k] *)
Definition alt_sign (k : nat) : R := if Nat.even k then 1 else -1.

(** *** [scipy.integrate.simps(y, x=x)] (default [even='avg'])

    The composite Simpson rule on a possibly non-uniform grid.  One term of
    [_basic_simps] for the panel starting at sample [i]: *)
Definition simps_term (y x : list R) (i : nat) : R :=
  let h0 := nth (i + 1) x 0 - nth i x 0 in
  let h1 := nth (i + 2) x 0 - nth (i + 1) x 0 in
  let hsum := h0 + h1 in
  let hprod := h0 * h1 in
  let h0divh1 := h0 / h1 in
  hsum / 6 * (nth i y 0 * (2 - 1 / h0divh1)
              + nth (i + 1) y 0 * hsum * hsum / hprod
              + nth (i + 2) y 0 * (2 - h0divh1)).

(** the indices [start, start+2, ...] below [stop] *)
Fixpoint panel_starts (start count : nat) : list nat :=
  match count with
  | O => []
  | S c => start :: panel_starts (start + 2) c
  end.

(** [_basic_simps(y, start, stop, x, dx, axis)]: the slices
    [start:stop:2], [start+1:stop+1:2], [start+2:stop+2:2] of [y].  A
    negative [stop] only arises for fewer than three samples, where the
    second and third slices are empty and the broadcast sum is empty. *)
Definition basic_simps (y x : list R) (start : nat) (stop : Z) : R :=
  if (stop <? 0)%Z then 0
  else Rsum (map (simps_term y x)
                 (panel_starts start ((Z.to_nat stop - start + 1) / 2))).

Definition simps (y x : list R) : result R :=
  let N := length y in
  if negb (Nat.eqb (length x) N) then Raise ShapeError
  else if Nat.even N then
    if Nat.eqb N 0 then Raise IndexError     (* y[-1] of an empty array *)
    else
      (* Simpson's rule on the first intervals, trapezoid on the last *)
      let last_dx := nth (N - 1) x 0 - nth (N - 2) x 0 in
      let val := 0 + 0.5 * last_dx * (nth (N - 1) y 0 + nth (N - 2) y 0) in
      let res := basic_simps y x 0 (Z.of_nat N - 3) in
      (* Simpson's rule on the last intervals, trapezoid on the first *)
      let first_dx := nth 1 x 0 - nth 0 x 0 in
      let val := val + 0.5 * first_dx * (nth 1 y 0 + nth 0 y 0) in
      let res := res + basic_simps y x 1 (Z.of_nat N - 2) in
      let val := val / 2 in
      let res := res / 2 in
      Ok (res + val)
  else Ok (basic_simps y x 0 (Z.of_nat N - 2)).

(** ** The NAFF object *)

Definition hanning (x : R) : R := 1 + cos x.

Record NAFF : Type := mkNAFF {
  t : list R;      (* self.t *)
  ts : R;          (* self.ts *)
  T : R;           (* self.T *)
  tz : list R;     (* self.tz *)
  chi : list R     (* self.chi *)
}.

(** [NAFF.__init__(self, t)] *)
Definition NAFF_init (t : list R) : result NAFF :=
  tlast <- getlast t ;;
  t0 <- getitem t 0 ;;
  let ts := 0.5 * (tlast + t0) in
  let T := 0.5 * (tlast - t0) in
  let tz := map (fun ti => ti - ts) t in
  let chi := map (fun x => hanning (x * PI / T)) tz in
  Ok (mkNAFF t ts T tz chi).

(** [NAFF.hanning_product(self, u1, u2)] *)
Definition hanning_product (self : NAFF) (u1 u2 : list C) : result C :=
  uu <- bcast2 (fun a b => Cmul a (Cconj b)) u1 u2 ;;
  integ <- bcast2 Cscale uu (chi self) ;;
  let integ_r := map Re integ in
  let integ_i := map Im integ in
  sr <- simps integ_r (tz self) ;;
  let real := sr / (2 * T self) in
  si <- simps integ_i (tz self) ;;
  let imag := si / (2 * T self) in
  Ok (mkC real imag).

(** ** [NAFF.frequency] *)

(** What [scipy.optimize.fmin_slsqp(..., full_output=True)] returns:
    [(x, fx, its, imode, smode)]; [x] is a one-element array. *)
Record slsqp_out : Type := mk_slsqp {
  out_x : R;
  out_fx : R;
  out_its : nat;
  out_imode : Z;
  out_smode : string
}.

(** The bounded minimizer is an external primitive: the engine is
    parametrised by it.  Its arguments are [func], [x0], [acc], the single
    pair of [bounds] and [iter]. *)
Definition minimizer : Type := (R -> R) -> R -> R -> R * R -> nat -> slsqp_out.

Definition transform (omin omax x : R) : R := (x - omin) / (omax - omin).
Definition invtransform (omin omax y : R) : R := y * (omax - omin) + omin.

(** The closure [phi_w] of [frequency]; [xf], [yf] are [f.real], [f.imag]. *)
Definition phi_w (self : NAFF) (xf yf : list R) (omin omax : R) (w : R) : result R :=
  let w := invtransform omin omax w in
  xc <- bcast2 Rmult xf (map (fun x => cos (w * x)) (tz self)) ;;
  ys <- bcast2 Rmult yf (map (fun x => sin (w * x)) (tz self)) ;;
  s <- bcast2 Rplus xc ys ;;
  zreal <- bcast2 Rmult (chi self) s ;;
  ans <- simps zreal (tz self) ;;
  Ok (- Rabs (ans / (2 * T self))).

(** [phi_w] as the minimizer sees it.  The only exceptions of [phi_w] are
    shape errors, which do not depend on [w] and have already been raised by
    the grid evaluation before the minimizer is called. *)
Definition objective (self : NAFF) (xf yf : list R) (omin omax : R) (w : R) : R :=
  match phi_w self xf yf omin omax w with
  | Ok v => v
  | Raise _ => 0
  end.

(** Lines 96-131: the FFT peak.  [None] is the early [return 0.]; otherwise
    the coarse estimate [omega0].  The signs [signx], [signy] and [signo]
    computed there are not used afterwards and are left out.  For a series
    of a single sample line 114 divides by zero and [A] is infinite in the
    code; the quotient of the model is a real number, so the model does not
    follow the code on such a series ([frequency] documents its argument as
    given at the times of the grid, of which [t[1]] needs two). *)
Definition peak (self : NAFF) (f : list C) : result (option R) :=
  let ndata := length f in
  F <- fft f ;;
  let fff := map (fun z => Cdivr z (sqrt (INR ndata))) F in
  t1 <- getitem (t self) 1 ;;
  t0 <- getitem (t self) 0 ;;
  let omegas := map (fun v => 2 * PI * v) (fftfreq ndata (t1 - t0)) in
  let A := 1 / sqrt (INR ndata - 1) in
  let xf := zip_with (fun k z => A * Re z * alt_sign k) (seq 0 ndata) fff in
  let yf := zip_with (fun k z => A * Im z * alt_sign k) (seq 0 ndata) fff in
  let xyf_abs_max := zip_with Rmax (map Rabs xf) (map Rabs yf) in
  wmax <- argmax xyf_abs_max ;;
  if Req_dec_T (nth wmax xf 0) 0 then Ok None
  else Ok (Some (nth wmax omegas 0)).

(** Lines 158-165: the 50-point grid and the warm start [init_w]. *)
Definition warm_start (self : NAFF) (xf yf : list R) (omin omax : R) : result R :=
  let w := linspace_0_1_50 in
  phi_vals <- mapM (phi_w self xf yf omin omax) w ;;
  phi_ix <- argmin phi_vals ;;
  if forallb (fun v => Rltb (Rabs v) 1e-10) phi_vals then Ok 0.5
  else Ok (nth phi_ix w 0).

(** ** The quotient of line 330 of [gso] in IEEE arithmetic

    [norm = 1. / np.sqrt(prod)] divides by zero when [prod] is zero.  numpy
    does not raise there: it warns and gives an infinite or NaN value.  Such
    a value has no counterpart in [R], where the quotient is a number like
    any other; to see what lines 331-332 are for, the last lines of [gso]
    are modelled once more with that value made explicit. *)

(** a value of IEEE arithmetic: a number, or an infinity or NaN *)
Inductive ieee (A : Type) : Type :=
| Finite (a : A)
| NonFinite.

Arguments Finite {A} a.
Arguments NonFinite {A}.

(** [1. / z] for a (finite) complex [z] *)
Definition recip (z : C) : ieee C :=
  if Ceqb z C0 then NonFinite else Finite (Cinv z).

(** [z * w] for a finite [z]: the product with an infinity or a NaN is not
    finite *)
Definition times (z : C) (w : ieee C) : ieee C :=
  match w with
  | Finite w => Finite (Cmul z w)
  | NonFinite => NonFinite
  end.

Section Engine.

Variable fmin_slsqp : minimizer.

(** Lines 133-212: refinement of [omega0] by the bounded minimizer. *)
Definition refine (self : NAFF) (f : list C) (omega0 : R) : result R :=
  let xf := map Re f in
  let yf := map Im f in
  let omin := omega0 - PI / T self in
  let omax := omega0 + PI / T self in
  init_w <- warm_start self xf yf omin omax ;;
  let res := fmin_slsqp (objective self xf yf omin omax) init_w 1e-9 (0, 1) 50%nat in
  let freq := invtransform omin omax (out_x res) in
  let imode := out_imode res in
  let smode := out_smode res in
  (* failed by starting at minimum, try instead starting from middle *)
  let '(freq, imode, smode) :=
    if negb (Z.eqb imode 0) then
      let init_w := 0.5 in
      let res := fmin_slsqp (objective self xf yf omin omax) init_w 1e-9 (0, 1) 100%nat in
      (invtransform omin omax (out_x res), out_imode res, out_smode res)
    else (freq, imode, smode) in
  if negb (Z.eqb imode 0) then Raise (MinimizationError imode smode)
  else Ok freq.

Definition frequency (self : NAFF) (f : list C) : result R :=
  p <- peak self f ;;
  match p with
  | None => Ok 0
  | Some omega0 => refine self f omega0
  end.

(** ** [NAFF.gso] and [NAFF.sub_chi] *)

(** number of columns of a two-dimensional array given by its rows *)
Definition ncols {A : Type} (m : list (list A)) : nat :=
  match m with
  | [] => O
  | r :: _ => length r
  end.

(** [np.sum(m, axis=0)] of a (rectangular) array with [n] columns *)
Definition colsum (n : nat) (m : list (list C)) : list C :=
  fold_left (zip_with Cadd) m (repeat C0 n).

(** Lines 315-325: the candidate [u_n] minus its projections on the rows
    [ecap[:k]]. *)
Definition gso_residual (self : NAFF) (ecap : list (list C)) (nu : R) (k : nat)
  : result (list C) :=
  let u_n := map (fun ti => Cexp_i (nu * ti)) (t self) in
  c_ik <- mapM (fun j => row <- getitem ecap j ;; hanning_product self u_n row)
               (seq 0 k) ;;
  let proj := colsum (ncols ecap)
                     (zip_with (fun c row => map (Cmul c) row) c_ik (firstn k ecap)) in
  bcast2 Csub u_n proj.

Definition gso (self : NAFF) (ecap : list (list C)) (nu : R) (k : nat)
  : result (list C) :=
  e_i <- gso_residual self ecap nu k ;;
  (* Now normalize this vector *)
  prod <- hanning_product self e_i e_i ;;
  let norm := Cinv (Csqrt prod) in
  let norm := if Ceqb prod C0 then C0 else norm in
  Ok (map (fun z => Cmul z norm) e_i).

(** [gso] with the quotient of line 330 in IEEE arithmetic *)
Definition gso_ieee (self : NAFF) (ecap : list (list C)) (nu : R) (k : nat)
  : result (list (ieee C)) :=
  e_i <- gso_residual self ecap nu k ;;
  (* Now normalize this vector *)
  prod <- hanning_product self e_i e_i ;;
  let norm := recip (Csqrt prod) in
  let norm := if Ceqb prod C0 then Finite C0 else norm in
  Ok (map (fun z => times z norm) e_i).

Definition sub_chi (f_km1 ecap_k : list C) (a_k : C) : result (list C * R) :=
  f_k <- bcast2 Csub f_km1 (map (Cmul a_k) ecap_k) ;;
  fmax <- amax (map Cmod f_k) ;;
  Ok (f_k, fmax).

(** ** [NAFF.frecoder] *)

(** The local arrays of [frecoder] and the current residual [fk]. *)
Record fstate : Type := mk_fstate {
  ecap : list (list C);
  nu : list R;
  A : list R;
  phi : list R;
  fk : list C
}.

Definition frecoder_init (self : NAFF) (f : list C) (nintvec : nat) : fstate :=
  mk_fstate (repeat (repeat C0 (length (t self))) nintvec)
            (repeat 0 nintvec) (repeat 0 nintvec) (repeat 0 nintvec) f.

(** One pass through the body of the [for] loop (lines 244-265); returns
    the updated locals and [fmax]. *)
Definition frecoder_body (self : NAFF) (k : nat) (st : fstate) : result (fstate * R) :=
  nuk <- frequency self (fk st) ;;
  let nu' := list_set k nuk (nu st) in
  row <- (if Nat.eqb k 0
          then Ok (map (fun ti => Cexp_i (nuk * ti)) (t self))
          else gso self (ecap st) nuk k) ;;
  let ecap' := list_set k row (ecap st) in
  (* get complex amplitude by projecting exp(i w t) on to f(t) *)
  ab <- hanning_product self (fk st) row ;;
  let A' := list_set k (Cmod ab) (A st) in
  let phi' := list_set k (atan2 (Im ab) (Re ab)) (phi st) in
  (* new fk has the previous frequency subtracted out *)
  '(fk', fmax) <- sub_chi (fk st) row ab ;;
  Ok (mk_fstate ecap' nu' A' phi' fk', fmax).

(** The test of line 267. *)
Definition break_test (break_condition : option R) (fmax Ak : R) : bool :=
  match break_condition with
  | None => false
  | Some eps => Rltb fmax eps || Rltb Ak eps
  end.

(** The [for k in range(nintvec)] loop from iteration [k] on, with [more]
    iterations left after this one; returns the last value of [k]. *)
Fixpoint frecoder_loop (self : NAFF) (break_condition : option R)
         (more k : nat) (st : fstate) : result (nat * fstate) :=
  '(st', fmax) <- frecoder_body self k st ;;
  if break_test break_condition fmax (nth k (A st') 0) then Ok (k, st')
  else match more with
       | O => Ok (k, st')
       | S m => frecoder_loop self break_condition m (S k) st'
       end.

Definition frecoder (self : NAFF) (f : list C) (nintvec : Z)
           (break_condition : option R) : result (list R * list R * list R) :=
  if (nintvec <? 0)%Z then Raise NegativeDimError
  else
    let n := Z.to_nat nintvec in
    let st := frecoder_init self f n in
    match n with
    | O => Raise UnboundLocalError   (* [k] is unbound at the [return] *)
    | S m =>
        '(k, st) <- frecoder_loop self break_condition m 0 st ;;
        Ok (map Ropp (firstn (k + 1) (nu st)),
            firstn (k + 1) (A st),
            firstn (k + 1) (phi st))
    end.

(** The body iterated without the [break] test: the locals and [fmax] after
    iterations [k .. k + cnt], started from the locals [st]. *)
Fixpoint run_iters (self : NAFF) (st : fstate) (k cnt : nat) : result (fstate * R) :=
  '(st', fmax) <- frecoder_body self k st ;;
  match cnt with
  | O => Ok (st', fmax)
  | S c => run_iters self st' (S k) c
  end.

(** The search frequency of step [j]: what [frequency] returns on the
    residual left by the iterations before [j]. *)
Definition search_freq (self : NAFF) (st0 : fstate) (j : nat) : result R :=
  match j with
  | O => frequency self (fk st0)
  | S j' => '(st, _) <- run_iters self st0 0 j' ;; frequency self (fk st)
  end.

(** ** [NAFF.find_fundamental_frequencies] *)

(** One record of the structured array [d]: the fields ['freq'], ['A'],
    ['|A|'], ['phi'], ['n']. *)
Record row : Type := mk_row {
  freq : R;
  amp : C;
  absA : R;
  rphi : R;
  n : Z
}.

(** Stable insertion argsort ([leb] is the order on keys).  numpy leaves the
    relative order of equal keys to its sorting routine; nothing below
    depends on it. *)
Fixpoint insert_by {K : Type} (leb : K -> K -> bool) (x : K * nat) (s : list (K * nat))
  : list (K * nat) :=
  match s with
  | [] => [x]
  | y :: s' => if leb (fst x) (fst y) then x :: y :: s' else y :: insert_by leb x s'
  end.

Definition argsort_by {K : Type} (leb : K -> K -> bool) (keys : list K) : list nat :=
  map snd (fold_right (insert_by leb) [] (combine keys (seq 0 (length keys)))).

(** fancy indexing [a[idx]] *)
Definition take {X : Type} (a : list X) (idx : list nat) : result (list X) :=
  mapM (getitem a) idx.

(** [np.where(cond)[0]] *)
Definition where_ix {X : Type} (p : X -> bool) (l : list X) : list nat :=
  map snd (filter (fun x => p (fst x)) (combine l (seq 0 (length l)))).

(** The rows contributed by dimension [i] (lines 362-368): [r] is what
    [frecoder] returned, bound to [nu, A, phi] in the source.  The three
    arrays have one length, so the five columns are zipped into rows. *)
Definition dim_rows (i : nat) (r : list R * list R * list R) : list row :=
  let '(nu, A, phi) := r in
  zip_with (fun nuk Ap =>
              mk_row (- nuk) (Cscale (Cexp_i (snd Ap)) (fst Ap)) (fst Ap) (snd Ap)
                     (Z.of_nat i))
           nu (combine A phi).

(** Lines 352-379: the table [d], sorted by descending amplitude. *)
Definition build_table (self : NAFF) (fs : list (list C)) (nintvec : Z)
           (break_condition : option R) : result (list row) :=
  per_dim <- mapM (fun fi => frecoder self fi nintvec break_condition) fs ;;
  match fs with
  | [] => Raise EmptyError      (* np.concatenate of no arrays *)
  | _ =>
      let d := concat (zip_with dim_rows (seq 0 (length fs)) per_dim) in
      take d (rev (argsort_by Rleb (map absA d)))
  end.

(** [np.unique(sorted(nqs))] *)
Fixpoint dedup_adjacent (l : list Z) : list Z :=
  match l with
  | a :: (b :: _) as l' => if Z.eqb a b then dedup_adjacent l' else a :: dedup_adjacent l'
  | _ => l
  end.

Definition unique_sorted (l : list Z) : list Z :=
  dedup_adjacent (map fst (fold_right (insert_by Z.leb) [] (combine l (seq 0 (length l))))).

Definition nonzero_freq (r : row) : bool := Rltb 1e-5 (Rabs (freq r)).
Definition distinct_from (fq : R) (r : row) : bool :=
  Rltb 1e-6 (Rabs (Rabs fq - Rabs (freq r))).
Definition other_dim (r0 r : row) : bool := negb (Z.eqb (n r) (n r0)).

(** The three [np.where(...)[0]] index arrays of lines 387, 397-399 and
    430-434; [r0], [r1] are the records chosen before. *)
Definition candidates1 (d : list row) : list nat := where_ix nonzero_freq d.
Definition candidates2 (r0 : row) (d : list row) : list nat :=
  where_ix (fun r => nonzero_freq r && other_dim r0 r && distinct_from (freq r0) r) d.
Definition candidates3 (r0 r1 : row) (d : list row) : list nat :=
  where_ix (fun r => nonzero_freq r && other_dim r0 r && other_dim r1 r
                     && distinct_from (freq r0) r && distinct_from (freq r1) r) d.

(** Lines 381-443: the choice of the fundamentals in the sorted table. *)
Definition select_fundamentals (ndim : nat) (d : list row)
  : result (list R * list nat) :=
  let ffreq := repeat 0 ndim in
  let ffreq_ixes := repeat O ndim in
  let nqs := repeat 0%Z ndim in
  (* first frequency is largest amplitude, nonzero freq. *)
  let ixes := candidates1 d in
  i0 <- getitem ixes 0 ;;
  r0 <- getitem d i0 ;;
  let ffreq := list_set 0 (freq r0) ffreq in
  let ffreq_ixes := list_set 0 i0 ffreq_ixes in
  let nqs := list_set 0 (n r0) nqs in
  if Nat.eqb ndim 1 then Ok (ffreq, ffreq_ixes)
  else
    (* choose the next nontrivially related frequency as the 2nd fundamental *)
    let ixes := candidates2 r0 d in
    i1 <- getitem ixes 0 ;;
    r1 <- getitem d i1 ;;
    let ffreq := list_set 1 (freq r1) ffreq in
    let ffreq_ixes := list_set 1 i1 ffreq_ixes in
    let nqs := list_set 1 (n r1) nqs in
    if Nat.eqb ndim 2 then
      ff <- take ffreq (argsort_by Z.leb nqs) ;;
      fi <- take ffreq_ixes (argsort_by Z.leb nqs) ;;
      Ok (ff, fi)
    else
      (* third frequency: largest amplitude in the remaining dimension *)
      let ixes := candidates3 r0 r1 d in
      i2 <- getitem ixes 0 ;;
      r2 <- getitem d i2 ;;
      let ffreq := list_set 2 (freq r2) ffreq in
      let ffreq_ixes := list_set 2 i2 ffreq_ixes in
      let nqs := list_set 2 (n r2) nqs in
      if negb (if list_eq_dec Z.eq_dec (unique_sorted nqs) [0; 1; 2]%Z then true else false)
      then Raise MissingXYZError
      else
        ff <- take ffreq (argsort_by Z.leb nqs) ;;
        fi <- take ffreq_ixes (argsort_by Z.leb nqs) ;;
        Ok (ff, fi).

Definition find_fundamental_frequencies (self : NAFF) (fs : list (list C))
           (nintvec : Z) (imax : Z) (break_condition : option R)
  : result (list R * list row * list nat) :=
  d <- build_table self fs nintvec break_condition ;;
  '(ffreq, ffreq_ixes) <- select_fundamentals (length fs) d ;;
  Ok (ffreq, d, ffreq_ixes).

End Engine.

(** ** [NAFF.find_integer_vectors] *)

(** [range(-imax, imax+1)] *)
Definition int_range (imax : Z) : list Z :=
  map (fun i => (Z.of_nat i - imax)%Z) (seq 0 (Z.to_nat (2 * imax + 1))).

(** The rows of [nvecs = np.vstack(np.vstack(np.mgrid[slc].T))] for one,
    two or three fundamentals: all tuples over [vals], the first coordinate
    varying fastest. *)
Fixpoint nvecs (m : nat) (vals : list Z) : list (list Z) :=
  match m with
  | O => [[]]
  | S m' => flat_map (fun rest => map (fun v => v :: rest) vals) (nvecs m' vals)
  end.

(** [nvec.dot(ffreqs)] for one row *)
Definition dot (nvec : list Z) (ffreqs : list R) : R :=
  Rsum (zip_with (fun ni fi => IZR ni * fi) nvec ffreqs).

(** The table is given by its ['freq'] column.  The double [vstack] flattens
    the mesh only up to three fundamentals: with four or more (and
    [imax > 0], a non-empty table) the row assignment fails on shapes. *)
Definition find_integer_vectors (ffreqs : list R) (d : list row) (imax : Z)
  : result (list (list Z)) :=
  let nfreqs := length ffreqs in
  if (imax <? 0)%Z then Raise NegativeDimError
  else if Nat.eqb nfreqs 0 then Raise EmptyError
  else if Nat.ltb 3 nfreqs && (0 <? imax)%Z && negb (Nat.eqb (length d) 0)
       then Raise ShapeError
  else
    let nv := nvecs nfreqs (int_range imax) in
    mapM (fun r =>
            let this_err := map (fun v => Rabs (freq r - dot v ffreqs)) nv in
            ix <- argmin this_err ;;
            getitem nv ix)
         d.

(** ** Auxiliary notions used in the statements *)

(** the exception raised by the last [raise] of [frequency] *)
Definition is_minimization_error (e : exn) : bool :=
  match e with
  | MinimizationError _ _ => true
  | _ => false
  end.

(** ** Sample objects for the concrete runs *)

(** the objects [NAFF([0., 1.])], [NAFF([0., 1., 2.])] and
    [NAFF([0., 1., 2., 3.])]'s time array *)
Definition grid2 : NAFF := mkNAFF [0; 1] 0.5 0.5 [-0.5; 0.5] [0; 0].
Definition grid3 : NAFF := mkNAFF [0; 1; 2] 1 1 [-1; 0; 1] [0; 2; 0].
Definition times4 : list R := [0; 1; 2; 3].

(** the series [[1, b, 0]] and [[0, 0, 0]] *)
Definition series_1b0 (b : R) : list C := [C1; RtoC b; C0].
Definition zeros3 : list C := [C0; C0; C0].

(** A minimizer that stops at once at its starting point with status 0
    (what a solver does on a flat objective). *)
Definition slsqp_start : minimizer :=
  fun func x0 acc bounds iter =>
    mk_slsqp x0 (func x0) 1 0 "Optimization terminated successfully.".

(** A minimizer stub that moves to [-func(x0)], with status 0; it only
    serves to obtain three different frequencies in a sample run. *)
Definition slsqp_level : minimizer :=
  fun func x0 acc bounds iter =>
    mk_slsqp (- func x0) (func x0) 1 0 "Optimization terminated successfully.".

(** the amplitude projected at step 0 on the three-sample grid *)
Definition ab_grid3 (u1 : C) (nu0 : R) : C :=
  Cscale (Cmul u1 (Cconj (Cexp_i (nu0 * 1)))) (4 / 3).

(** the table record of a one-component run on the three-sample grid for
    the series [[1, b, 0]] of dimension [i], when the search frequency is
    [nu0] *)
Definition row_grid3 (i : nat) (b nu0 : R) : row :=
  let ab := ab_grid3 (RtoC b) nu0 in
  let p := atan2 (Im ab) (Re ab) in
  mk_row (- - nu0) (Cscale (Cexp_i p) (Cmod ab)) (Cmod ab) p (Z.of_nat i).

(** three series for a three-dimensional sample run *)
Definition three_series : list (list C) :=
  [series_1b0 (3 / 4); series_1b0 (3 / 16); series_1b0 (3 / 32)].

(** the table of the three-dimensional sample run *)
Definition level_rows : list row :=
  [row_grid3 0 (3 / 4) (4 / 3 * (3 / 4) * (2 * PI) - PI);
   row_grid3 1 (3 / 16) (4 / 3 * (3 / 16) * (2 * PI) - PI);
   row_grid3 2 (3 / 32) (4 / 3 * (3 / 32) * (2 * PI) - PI)].

(** A minimizer that never converges (status 8 of SLSQP). *)
Definition slsqp_failing : minimizer :=
  fun func x0 acc bounds iter =>
    mk_slsqp x0 (func x0) iter 8 "Positive directional derivative for linesearch".

(** ** [poincare_polar] and [orbit_to_freqs] *)

(** One row of the orbit array [w], of shape [(len(t), 6)]: a position and
    a velocity ([ndim = 3]). *)
Record point : Type := mk_point {
  px : R; py : R; pz : R;
  pvx : R; pvy : R; pvz : R
}.

(** [poincare_polar(w)]: the three complex series [R + i vR],
    [sqrt(2|vPhi|) (cos phi + i sin phi)] and [z + i vz].  The angle is
    [arctan2(w[...,0], w[...,1])], as the source has it. *)
Definition poincare_polar (w : list point) : list (list C) :=
  let R_ := map (fun p => sqrt (px p * px p + py p * py p)) w in
  let phi_ := map (fun p => atan2 (px p) (py p)) w in
  let vR := zip_with (fun p r => (px p * pvx p + py p * pvy p) / r) w R_ in
  let vPhi := map (fun p => px p * pvy p - py p * pvx p) w in
  [ zip_with mkC R_ vR;
    zip_with (fun v ph => mkC (sqrt (2 * Rabs v) * cos ph) (sqrt (2 * Rabs v) * sin ph))
             vPhi phi_;
    map (fun p => mkC (pz p) (pvz p)) w ].

(** [[(w[:,j] + 1j*w[:,j+3]) for j in range(3)]] *)
Definition cartesian_series (w : list point) : list (list C) :=
  [ map (fun p => mkC (px p) (pvx p)) w;
    map (fun p => mkC (py p) (pvy p)) w;
    map (fun p => mkC (pz p) (pvz p)) w ].

(** The first component of what [orbit_to_freqs] returns: the fundamental
    frequencies, or [np.ones(3)*np.nan]. *)
Inductive freqs_out : Type :=
| Freqs (ffreq : list R)
| NaN3.

(** [(freqs, d, ixes, is_tube)] *)
Record orbit_out : Type := mk_orbit_out {
  o_freqs : freqs_out;
  o_d : option (list row);
  o_ixes : option (list nat);
  o_is_tube : bool
}.

Section Orbit.

Variable fmin_slsqp : minimizer.

(** [classify_orbit] and [align_circulation_with_z] are imported from
    [.core], which is not among these sources: they are parameters, taken
    as functions of their arguments.  With [force_box] neither is called.
    [w] is the orbit after the removal of the extra axis; the keyword
    arguments are those of [find_fundamental_frequencies]. *)
Variable classify_orbit : list point -> list Z.
Variable align_circulation_with_z : list point -> list Z -> list point.

Definition orbit_to_freqs (t : list R) (w : list point)
           (force_box silently_fail : bool)
           (nintvec imax : Z) (break_condition : option R) : result orbit_out :=
  let is_tube :=
    if force_box then false
    else existsb (fun c => negb (Z.eqb c 0)) (classify_orbit w) in
  naff <- NAFF_init t ;;
  let fs :=
    if is_tube
    then poincare_polar (align_circulation_with_z w (classify_orbit w))
    else cartesian_series w in
  if silently_fail then
    match find_fundamental_frequencies fmin_slsqp naff fs nintvec imax break_condition with
    | Ok (freqs, d, ixes) => Ok (mk_orbit_out (Freqs freqs) (Some d) (Some ixes) is_tube)
    | Raise _ => Ok (mk_orbit_out NaN3 None None is_tube)
    end
  else
    '(freqs, d, ixes) <-
      find_fundamental_frequencies fmin_slsqp naff fs nintvec imax break_condition ;;
    Ok (mk_orbit_out (Freqs freqs) (Some d) (Some ixes) is_tube).

End Orbit.

(** ** Further notions used in the statements *)

(** the object is as [__init__] leaves it: [t], [tz] and [chi] have one
    length *)
Definition aligned (self : NAFF) (len : nat) : Prop :=
  length (t self) = len /\ length (tz self) = len /\ length (chi self) = len.

(** the grid of an object built from strictly increasing times: the
    half-span is not zero and the shifted times are strictly increasing, so
    that no quotient of the code has a zero divisor *)
Definition proper_grid (self : NAFF) : Prop :=
  T self <> 0 /\ StronglySorted Rlt (tz self).

(** an orbit at rest at the origin, and a three-sample orbit whose
    Cartesian series are [three_series] *)
Definition point0 : point := mk_point 0 0 0 0 0 0.
Definition orbit3 : list point :=
  [mk_point 1 1 1 0 0 0; mk_point (3 / 4) (3 / 16) (3 / 32) 0 0 0; point0].

(** the object [NAFF([0., 1., 2., 3., 4.])] and the constant series 1 on
    its grid *)
Definition grid5 : NAFF := mkNAFF [0; 1; 2; 3; 4] 2 2 [-2; -1; 0; 1; 2] [0; 1; 2; 1; 0].
Definition ones5 : list C := [C1; C1; C1; C1; C1].

(** * Properties *)

(** ** The result monad and the array primitives *)

Lemma bind_ok_inv {X Y : Type} (c : result X) (k : X -> result Y) (y : Y) :
  bind c k = Ok y -> exists x, c = Ok x /\ k x = Ok y.
Proof.
  destruct c as [x|e]; simpl; intros H; [exists x; auto | discriminate].
Qed.

Lemma rmap_rmap {X Y Z : Type} (g : X -> Y) (h : Y -> Z) (c : result X) :
  rmap h (rmap g c) = rmap (fun x => h (g x)) c.
Proof. destruct c; reflexivity. Qed.

Lemma zip_with_length {X Y Z : Type} (g : X -> Y -> Z) (u : list X) (v : list Y) :
  length u = length v -> length (zip_with g u v) = length u.
Proof.
  revert v; induction u as [|a u IH]; intros [|b v]; simpl; intros H;
    try discriminate; auto.
Qed.

Lemma zip_with_swap {X Y Z W : Type} (g : X -> Y -> Z) (g' : Y -> X -> W) (h : W -> Z)
      (u : list X) (v : list Y) :
  (forall a b, g a b = h (g' b a)) ->
  zip_with g u v = map h (zip_with g' v u).
Proof.
  intros Hg; revert v; induction u as [|a u IH]; intros [|b v]; simpl; auto.
  now rewrite Hg, IH.
Qed.

Lemma zip_with_map_l {X X' Y Z Z' : Type} (g : X' -> Y -> Z') (g' : X -> Y -> Z)
      (h : X -> X') (h' : Z -> Z') (u : list X) (v : list Y) :
  (forall a b, g (h a) b = h' (g' a b)) ->
  zip_with g (map h u) v = map h' (zip_with g' u v).
Proof.
  intros Hg; revert v; induction u as [|a u IH]; intros [|b v]; simpl; auto.
  now rewrite Hg, IH.
Qed.

(** closes an equation between two lists built by [::] and [map] whose
    elements agree by the equation [H] *)
Ltac list_eq_by H :=
  repeat match goal with
         | |- Ok _ = Ok _ => f_equal
         | |- _ :: _ = _ :: _ => f_equal; [now rewrite ?H|]
         | |- map _ _ = map _ _ =>
             rewrite ?map_map; apply map_ext; intros; now rewrite ?H
         | |- [] = [] => reflexivity
         end.

Lemma bcast2_swap {X Y Z W : Type} (g : X -> Y -> Z) (g' : Y -> X -> W) (h : W -> Z)
      (u : list X) (v : list Y) :
  (forall a b, g a b = h (g' b a)) ->
  bcast2 g u v = rmap (map h) (bcast2 g' v u).
Proof.
  intros Hg. unfold bcast2.
  rewrite (Nat.eqb_sym (length v) (length u)).
  destruct (Nat.eqb (length u) (length v)) eqn:E.
  - simpl. now rewrite (zip_with_swap g g' h).
  - apply Nat.eqb_neq in E.
    destruct u as [|a [|a' u]], v as [|b [|b' v]]; simpl in *;
      try reflexivity; try (exfalso; apply E; reflexivity);
      list_eq_by Hg.
Qed.

Lemma bcast2_map_l {X X' Y Z Z' : Type} (g : X' -> Y -> Z') (g' : X -> Y -> Z)
      (h : X -> X') (h' : Z -> Z') (u : list X) (v : list Y) :
  (forall a b, g (h a) b = h' (g' a b)) ->
  bcast2 g (map h u) v = rmap (map h') (bcast2 g' u v).
Proof.
  intros Hg. unfold bcast2. rewrite length_map.
  destruct (Nat.eqb (length u) (length v)) eqn:E.
  - simpl. now rewrite (zip_with_map_l g g' h h').
  - destruct u as [|a [|a' u]], v as [|b [|b' v]]; simpl in *;
      try reflexivity; try discriminate;
      list_eq_by Hg.
Qed.

Lemma bcast2_same_length {X Y Z : Type} (g : X -> Y -> Z) (u : list X) (v : list Y) :
  length u = length v -> bcast2 g u v = Ok (zip_with g u v).
Proof. intros H. unfold bcast2. now rewrite H, Nat.eqb_refl. Qed.

Lemma fold_left_Rplus (l : list R) (a : R) : fold_left Rplus l a = a + Rsum l.
Proof.
  unfold Rsum. revert a; induction l as [|x l IH]; intros a; simpl.
  - lra.
  - rewrite IH, (IH (0 + x)). lra.
Qed.

Lemma Rsum_cons (x : R) (l : list R) : Rsum (x :: l) = x + Rsum l.
Proof. unfold Rsum at 1. simpl. rewrite fold_left_Rplus. lra. Qed.

Lemma Rsum_map_opp {X : Type} (g g' : X -> R) (l : list X) :
  (forall x, g x = - g' x) -> Rsum (map g l) = - Rsum (map g' l).
Proof.
  intros Hg. induction l as [|x l IH]; simpl.
  - unfold Rsum; simpl; lra.
  - rewrite !Rsum_cons, IH, Hg. lra.
Qed.

Lemma nth_map_opp (y : list R) (i : nat) : nth i (map Ropp y) 0 = - nth i y 0.
Proof.
  replace 0 with (- 0) at 1 by lra. apply map_nth.
Qed.

Lemma simps_term_opp (y x : list R) (i : nat) :
  simps_term (map Ropp y) x i = - simps_term y x i.
Proof. unfold simps_term. rewrite !nth_map_opp. unfold Rdiv. ring. Qed.

Lemma basic_simps_opp (y x : list R) (start : nat) (stop : Z) :
  basic_simps (map Ropp y) x start stop = - basic_simps y x start stop.
Proof.
  unfold basic_simps. destruct (stop <? 0)%Z; [lra|].
  apply Rsum_map_opp. intros i. apply simps_term_opp.
Qed.

Lemma simps_opp (y x : list R) : simps (map Ropp y) x = rmap Ropp (simps y x).
Proof.
  unfold simps. rewrite length_map.
  destruct (negb (Nat.eqb (length x) (length y))); [reflexivity|].
  destruct (Nat.even (length y)).
  - destruct (Nat.eqb (length y) 0); [reflexivity|].
    unfold rmap, bind. rewrite !basic_simps_opp, !nth_map_opp. f_equal. field.
  - unfold rmap, bind. now rewrite basic_simps_opp.
Qed.

Lemma Cconj_mul_conj (a b : C) : Cmul a (Cconj b) = Cconj (Cmul b (Cconj a)).
Proof. destruct a, b; unfold Cmul, Cconj; simpl; f_equal; ring. Qed.

Lemma Cscale_conj (a : C) (x : R) : Cscale (Cconj a) x = Cconj (Cscale a x).
Proof. destruct a; unfold Cscale, Cconj; simpl; f_equal; ring. Qed.

(** ** The weighted inner product *)

(** C8.  The weighted inner product is conjugate-symmetric: for all series
    [u], [v], [hanning_product(u, v)] is the complex conjugate of
    [hanning_product(v, u)]; when the shapes do not fit, both raise the same
    exception. *)
Theorem hanning_product_conj_sym (self : NAFF) (u v : list C) :
  hanning_product self u v = rmap Cconj (hanning_product self v u).
Proof.
  unfold hanning_product.
  rewrite (bcast2_swap _ (fun a b => Cmul a (Cconj b)) Cconj u v)
    by (intros; apply Cconj_mul_conj).
  destruct (bcast2 (fun a b => Cmul a (Cconj b)) v u) as [uu|e]; [|reflexivity].
  unfold rmap; cbn [bind].
  rewrite (bcast2_map_l Cscale Cscale Cconj Cconj) by (intros; apply Cscale_conj).
  destruct (bcast2 Cscale uu (chi self)) as [integ|e]; [|reflexivity].
  unfold rmap; cbn [bind].
  replace (map Re (map Cconj integ)) with (map Re integ)
    by (rewrite map_map; apply map_ext; intros []; reflexivity).
  replace (map Im (map Cconj integ)) with (map Ropp (map Im integ))
    by (rewrite !map_map; apply map_ext; intros []; reflexivity).
  destruct (simps (map Re integ) (tz self)) as [sr|e]; [|reflexivity].
  cbn [bind]. rewrite simps_opp.
  destruct (simps (map Im integ) (tz self)) as [si|e]; [|reflexivity].
  unfold rmap; cbn [bind]. unfold Cconj; simpl. f_equal. f_equal. unfold Rdiv. ring.
Qed.

(** ** The primitives on small inputs *)

Example nvecs_order :
  nvecs 2 (int_range 1)
  = [[-1; -1]; [0; -1]; [1; -1]; [-1; 0]; [0; 0]; [1; 0]; [-1; 1]; [0; 1]; [1; 1]]%Z.
Proof. reflexivity. Qed.

Example argsort_ints : argsort_by Z.leb [2; 0; 1; 0]%Z = [1; 3; 2; 0]%nat.
Proof. reflexivity. Qed.

Example unique_sorted_ints : unique_sorted [2; 0; 2; 1]%Z = [0; 1; 2]%Z.
Proof. reflexivity. Qed.

Example where_ix_even : where_ix Nat.even [4; 1; 6; 3; 8]%nat = [0; 2; 4]%nat.
Proof. reflexivity. Qed.

Example fftfreq_4 : fftfreq 4 1 = [0; 1 / 4; - (2 / 4); - (1 / 4)].
Proof. unfold fftfreq. simpl. repeat (f_equal; try field). Qed.

(** Simpson's rule is exact on a parabola (odd number of samples) ... *)
Example simps_parabola : simps [0; 1; 4] [0; 1; 2] = Ok (8 / 3).
Proof. unfold simps, basic_simps, simps_term, Rsum. simpl. f_equal. field. Qed.

(** ... and averages the two one-sided rules on an even number of samples. *)
Example simps_even : simps [1; 1; 1; 1] [0; 1; 2; 3] = Ok 3.
Proof. unfold simps, basic_simps, simps_term, Rsum. simpl. f_equal. lra. Qed.

Example simps_two_samples : simps [1; 3] [0; 1] = Ok 2.
Proof. unfold simps, basic_simps, simps_term, Rsum. simpl. f_equal. lra. Qed.

Example simps_shapes : simps [1; 2; 3] [0; 1] = Raise ShapeError.
Proof. reflexivity. Qed.

Example bcast2_scalar : bcast2 Rplus [1] [10; 20; 30] = Ok [1 + 10; 1 + 20; 1 + 30].
Proof. reflexivity. Qed.

Example bcast2_mismatch : bcast2 Rplus [1; 2] [10; 20; 30] = Raise ShapeError.
Proof. reflexivity. Qed.

(** ** Which exceptions the primitives raise *)

Lemma bind_raise_inv {X Y : Type} (c : result X) (k : X -> result Y) (e : exn) :
  bind c k = Raise e -> c = Raise e \/ exists x, c = Ok x /\ k x = Raise e.
Proof.
  destruct c as [x|e']; simpl; intros H;
    [right; exists x; split; auto | left; inversion H; reflexivity].
Qed.

Lemma getitem_raise {X : Type} (l : list X) (i : nat) (e : exn) :
  getitem l i = Raise e -> e = IndexError.
Proof. unfold getitem. destruct (nth_error l i); congruence. Qed.

Lemma bcast2_raise {X Y Z : Type} (g : X -> Y -> Z) (u : list X) (v : list Y) (e : exn) :
  bcast2 g u v = Raise e -> e = ShapeError.
Proof.
  unfold bcast2. destruct (Nat.eqb _ _); [discriminate|].
  destruct u as [|a [|a' u]], v as [|b [|b' v]]; congruence.
Qed.

Lemma simps_raise (y x : list R) (e : exn) :
  simps y x = Raise e -> is_minimization_error e = false.
Proof.
  unfold simps. destruct (negb _); [intros [= <-]; reflexivity|].
  destruct (Nat.even _); [|discriminate].
  destruct (Nat.eqb _ _); [intros [= <-]; reflexivity | discriminate].
Qed.

Lemma mapM_raise {X Y : Type} (P : exn -> Prop) (g : X -> result Y) (l : list X) (e : exn) :
  (forall a e', g a = Raise e' -> P e') -> mapM g l = Raise e -> P e.
Proof.
  intros Hg. induction l as [|a l IH]; simpl; [discriminate|].
  destruct (g a) as [b|e'] eqn:E; simpl.
  - destruct (mapM g l) as [bs|e'']; simpl; [discriminate|].
    intros [= <-]. now apply IH.
  - intros [= <-]. now apply (Hg a).
Qed.

Lemma mapM_length {X Y : Type} (g : X -> result Y) (l : list X) (bs : list Y) :
  mapM g l = Ok bs -> length bs = length l.
Proof.
  revert bs; induction l as [|a l IH]; simpl; intros bs H.
  - now inversion H.
  - destruct (g a); simpl in H; [|discriminate].
    destruct (mapM g l); simpl in H; [|discriminate].
    inversion H; subst; simpl. f_equal. now apply IH.
Qed.

Lemma phi_w_raise (self : NAFF) (xf yf : list R) (omin omax w : R) (e : exn) :
  phi_w self xf yf omin omax w = Raise e -> is_minimization_error e = false.
Proof.
  unfold phi_w. intros H.
  repeat match type of H with
         | bind (bcast2 ?g ?u ?v) _ = Raise _ =>
             let E := fresh "E" in
             destruct (bcast2 g u v) eqn:E; cbn [bind] in H;
             [| inversion H; subst; apply bcast2_raise in E; subst; reflexivity]
         end.
  destruct (simps _ _) eqn:Es; cbn [bind] in H; [discriminate|].
  inversion H; subst. now apply simps_raise in Es.
Qed.

Lemma peak_raise (self : NAFF) (f : list C) (e : exn) :
  peak self f = Raise e -> is_minimization_error e = false.
Proof.
  unfold peak. intros H.
  destruct (fft f) eqn:E; cbn [bind] in H.
  2:{ inversion H; subst. destruct f; simpl in E; inversion E; reflexivity. }
  destruct (getitem (t self) 1) eqn:E1; cbn [bind] in H.
  2:{ inversion H; subst. apply getitem_raise in E1; subst; reflexivity. }
  destruct (getitem (t self) 0) eqn:E0; cbn [bind] in H.
  2:{ inversion H; subst. apply getitem_raise in E0; subst; reflexivity. }
  destruct (argmax _) eqn:Ea; cbn [bind] in H.
  - destruct (Req_dec_T _ _); discriminate.
  - inversion H; subst. unfold argmax in Ea.
    destruct (zip_with Rmax _ _); inversion Ea; reflexivity.
Qed.

Lemma warm_start_raise (self : NAFF) (xf yf : list R) (omin omax : R) (e : exn) :
  warm_start self xf yf omin omax = Raise e -> is_minimization_error e = false.
Proof.
  unfold warm_start. intros H.
  destruct (mapM _ _) eqn:E; cbn [bind] in H.
  - destruct (argmin a) eqn:Ea; cbn [bind] in H.
    + destruct (forallb _ _); discriminate.
    + inversion H; subst. unfold argmin in Ea. destruct a; inversion Ea; reflexivity.
  - inversion H; subst.
    eapply (mapM_raise (fun e => is_minimization_error e = false)); [|exact E].
    intros a e'. apply phi_w_raise.
Qed.

Section EngineProperties.

Variable fmin_slsqp : minimizer.

(** ** The frequency refiner *)

(** [refine] as a cascade of the two attempts *)
Lemma refine_unfold (self : NAFF) (f : list C) (omega0 : R) :
  refine fmin_slsqp self f omega0 =
  let omin := omega0 - PI / T self in
  let omax := omega0 + PI / T self in
  let obj := objective self (map Re f) (map Im f) omin omax in
  init_w <- warm_start self (map Re f) (map Im f) omin omax ;;
  let r1 := fmin_slsqp obj init_w 1e-9 (0, 1) 50%nat in
  let r2 := fmin_slsqp obj 0.5 1e-9 (0, 1) 100%nat in
  if Z.eqb (out_imode r1) 0 then Ok (invtransform omin omax (out_x r1))
  else if Z.eqb (out_imode r2) 0 then Ok (invtransform omin omax (out_x r2))
       else Raise (MinimizationError (out_imode r2) (out_smode r2)).
Proof.
  unfold refine. cbv zeta.
  destruct (warm_start _ _ _ _ _) as [init_w|e]; cbn [bind]; [|reflexivity].
  destruct (Z.eqb (out_imode (fmin_slsqp _ init_w _ _ 50%nat)) 0) eqn:E1; cbn [negb].
  - now rewrite E1.
  - destruct (Z.eqb (out_imode (fmin_slsqp _ 0.5 _ _ 100%nat)) 0) eqn:E2;
      cbn [negb]; reflexivity.
Qed.

(** C3.  [frequency] raises the minimization error, carrying the status and
    message of the solver, exactly when the peak search reached the
    refinement and the minimizer reported a nonzero status both from the
    warm start (50 iterations) and from the midpoint (100 iterations); the
    status carried is that of the retry.  Whenever [frequency] returns a
    value, it is the early 0 of the degenerate spectrum or the result of an
    attempt whose status is 0. *)
Theorem frequency_raises_iff (self : NAFF) (f : list C) :
  (forall imode smode,
      frequency fmin_slsqp self f = Raise (MinimizationError imode smode) <->
      exists omega0 init_w,
        let omin := omega0 - PI / T self in
        let omax := omega0 + PI / T self in
        let obj := objective self (map Re f) (map Im f) omin omax in
        let r1 := fmin_slsqp obj init_w 1e-9 (0, 1) 50%nat in
        let r2 := fmin_slsqp obj 0.5 1e-9 (0, 1) 100%nat in
        peak self f = Ok (Some omega0) /\
        warm_start self (map Re f) (map Im f) omin omax = Ok init_w /\
        out_imode r1 <> 0%Z /\ out_imode r2 <> 0%Z /\
        imode = out_imode r2 /\ smode = out_smode r2)
  /\
  (forall v,
      frequency fmin_slsqp self f = Ok v ->
      (peak self f = Ok None /\ v = 0) \/
      exists omega0 init_w,
        let omin := omega0 - PI / T self in
        let omax := omega0 + PI / T self in
        let obj := objective self (map Re f) (map Im f) omin omax in
        let r1 := fmin_slsqp obj init_w 1e-9 (0, 1) 50%nat in
        let r2 := fmin_slsqp obj 0.5 1e-9 (0, 1) 100%nat in
        peak self f = Ok (Some omega0) /\
        warm_start self (map Re f) (map Im f) omin omax = Ok init_w /\
        ((out_imode r1 = 0%Z /\ v = invtransform omin omax (out_x r1)) \/
         (out_imode r1 <> 0%Z /\ out_imode r2 = 0%Z /\
          v = invtransform omin omax (out_x r2)))).
Proof.
  unfold frequency. split.
  - intros imode smode. split.
    + intros H.
      destruct (peak self f) as [[omega0|]|e] eqn:Ep; cbn [bind] in H.
      * rewrite refine_unfold in H. cbv zeta in H.
        destruct (warm_start _ _ _ _ _) as [init_w|e] eqn:Ew; cbn [bind] in H.
        -- exists omega0, init_w. cbv zeta.
           destruct (Z.eqb_spec (out_imode (fmin_slsqp
                 (objective self (map Re f) (map Im f)
                            (omega0 - PI / T self) (omega0 + PI / T self))
                 init_w 1e-9 (0, 1) 50%nat)) 0) as [E1|E1]; [discriminate|].
           destruct (Z.eqb_spec (out_imode (fmin_slsqp
                 (objective self (map Re f) (map Im f)
                            (omega0 - PI / T self) (omega0 + PI / T self))
                 0.5 1e-9 (0, 1) 100%nat)) 0) as [E2|E2]; [discriminate|].
           inversion H; subst. repeat split; auto.
        -- inversion H; subst. apply warm_start_raise in Ew. discriminate.
      * discriminate.
      * inversion H; subst. apply peak_raise in Ep. discriminate.
    + intros (omega0 & init_w & Ep & Ew & H1 & H2 & -> & ->).
      rewrite Ep; cbn [bind]. rewrite refine_unfold. cbv zeta. rewrite Ew; cbn [bind].
      apply Z.eqb_neq in H1, H2. now rewrite H1, H2.
  - intros v H.
    destruct (peak self f) as [[omega0|]|e] eqn:Ep; cbn [bind] in H.
    + right. rewrite refine_unfold in H. cbv zeta in H.
      destruct (warm_start _ _ _ _ _) as [init_w|e] eqn:Ew; cbn [bind] in H;
        [|discriminate].
      exists omega0, init_w. cbv zeta. split; [auto|]. split; [auto|].
      destruct (Z.eqb_spec (out_imode (fmin_slsqp
                 (objective self (map Re f) (map Im f)
                            (omega0 - PI / T self) (omega0 + PI / T self))
                 init_w 1e-9 (0, 1) 50%nat)) 0) as [E1|E1].
      * left. split; congruence.
      * right.
        destruct (Z.eqb_spec (out_imode (fmin_slsqp
                 (objective self (map Re f) (map Im f)
                            (omega0 - PI / T self) (omega0 + PI / T self))
                 0.5 1e-9 (0, 1) 100%nat)) 0) as [E2|E2]; [|discriminate].
        repeat split; auto; congruence.
    + left. split; congruence.
    + discriminate.
Qed.

End EngineProperties.

(** ** Gram-Schmidt step *)

Lemma Ceqb_refl (z : C) : Ceqb z z = true.
Proof.
  unfold Ceqb, Reqb. destruct (Req_dec_T (Re z) (Re z)); [|congruence].
  destruct (Req_dec_T (Im z) (Im z)); [reflexivity|congruence].
Qed.

Lemma Cmul_C0_r (z : C) : Cmul z C0 = C0.
Proof. destruct z; unfold Cmul, C0; simpl; f_equal; ring. Qed.

Lemma map_const_repeat {X Y : Type} (y : Y) (l : list X) :
  map (fun _ => y) l = repeat y (length l).
Proof. induction l; simpl; congruence. Qed.

Lemma Csqrt_C0 : Csqrt C0 = C0.
Proof.
  unfold Csqrt, Cmod, C0. cbn [Re Im].
  replace (0 * 0 + 0 * 0) with 0 by ring. rewrite sqrt_0.
  replace ((0 + 0) / 2) with 0 by field. replace ((0 - 0) / 2) with 0 by field.
  rewrite sqrt_0. destruct (Rlt_dec 0 0); f_equal; ring.
Qed.

(** C7.  When the self inner product of the orthogonalization residual
    [e_i] is zero, the quotient of line 330 is a division by zero: its
    value is not finite, and multiplied into the residual it would leave no
    finite sample.  Lines 331-332 replace it by zero: [gso] does not raise,
    and the vector it returns is the all-zero series of the length of the
    residual, every sample a finite number.  The model over the reals
    returns the same series. *)
Theorem gso_zero_norm (self : NAFF) (ecap : list (list C)) (nu : R) (k : nat)
        (e_i : list C) :
  gso_residual self ecap nu k = Ok e_i ->
  hanning_product self e_i e_i = Ok C0 ->
  recip (Csqrt C0) = NonFinite /\
  map (fun z => times z (recip (Csqrt C0))) e_i = repeat NonFinite (length e_i) /\
  gso_ieee self ecap nu k = Ok (repeat (Finite C0) (length e_i)) /\
  gso self ecap nu k = Ok (repeat C0 (length e_i)).
Proof.
  intros Hres Hprod.
  assert (Hdiv : recip (Csqrt C0) = NonFinite).
  { unfold recip. now rewrite Csqrt_C0, Ceqb_refl. }
  split; [exact Hdiv|]. split; [|split].
  - rewrite Hdiv. cbn [times]. apply map_const_repeat.
  - unfold gso_ieee. rewrite Hres; cbn [bind]. rewrite Hprod; cbn [bind].
    rewrite Ceqb_refl. f_equal. cbn [times].
    rewrite <- map_const_repeat. apply map_ext. intros z. now rewrite Cmul_C0_r.
  - unfold gso. rewrite Hres; cbn [bind].
    rewrite Hprod; cbn [bind]. rewrite Ceqb_refl. f_equal.
    rewrite <- map_const_repeat. apply map_ext. intros z. apply Cmul_C0_r.
Qed.

(** ** Arrays updated by index *)

Lemma list_set_length {X : Type} (i : nat) (v : X) (l : list X) :
  length (list_set i v l) = length l.
Proof.
  revert i; induction l as [|a l IH]; intros [|i]; simpl; auto.
Qed.

Lemma nth_list_set_same {X : Type} (i : nat) (v d : X) (l : list X) :
  (i < length l)%nat -> nth i (list_set i v l) d = v.
Proof.
  revert i; induction l as [|a l IH]; intros [|i]; simpl; intros H;
    try lia; auto. apply IH. lia.
Qed.

Lemma nth_list_set_other {X : Type} (i j : nat) (v d : X) (l : list X) :
  i <> j -> nth j (list_set i v l) d = nth j l d.
Proof.
  revert i j; induction l as [|a l IH]; intros [|i] [|j]; simpl; intros H;
    try congruence; auto.
Qed.

Lemma nth_firstn {X : Type} (j c : nat) (l : list X) (d : X) :
  (j < c)%nat -> nth j (firstn c l) d = nth j l d.
Proof.
  revert j c; induction l as [|a l IH]; intros [|j] [|c] H; simpl;
    try lia; try reflexivity.
  apply IH. lia.
Qed.

Section FrecoderProperties.

Variable fmin_slsqp : minimizer.
Variable self : NAFF.

Local Abbreviation body := (frecoder_body fmin_slsqp self).
Local Abbreviation iters := (run_iters fmin_slsqp self).

(** ** The extraction loop *)

Lemma frecoder_body_inv (k : nat) (st st' : fstate) (fmax : R) :
  body k st = Ok (st', fmax) ->
  exists nuk ab,
    frequency fmin_slsqp self (fk st) = Ok nuk /\
    nu st' = list_set k nuk (nu st) /\
    A st' = list_set k (Cmod ab) (A st) /\
    phi st' = list_set k (atan2 (Im ab) (Re ab)) (phi st).
Proof.
  unfold frecoder_body. intros H.
  destruct (frequency _ _ _) as [nuk|e]; cbn [bind] in H; [|discriminate].
  match type of H with
  | bind ?c _ = _ => destruct c as [row|e]; cbn [bind] in H; [|discriminate]
  end.
  destruct (hanning_product _ _ _) as [ab|e]; cbn [bind] in H; [|discriminate].
  destruct (sub_chi _ _ _) as [[fk' fm]|e]; cbn [bind] in H; [|discriminate].
  inversion H; subst; simpl. exists nuk, ab. auto.
Qed.

Lemma run_iters_snoc (st : fstate) (k c : nat) :
  iters st k (S c) = ('(st1, _) <- iters st k c ;; body (S (k + c)) st1).
Proof.
  revert st k; induction c as [|c IH]; intros st k.
  - simpl. rewrite Nat.add_0_r.
    destruct (body k st) as [[st1 fm]|e]; cbn [bind]; [|reflexivity].
    destruct (body (S k) st1) as [[st2 fm2]|e]; reflexivity.
  - change (iters st k (S (S c)))
      with ('(st', _) <- body k st ;; iters st' (S k) (S c)).
    change (iters st k (S c))
      with ('(st', _) <- body k st ;; iters st' (S k) c).
    destruct (body k st) as [[st1 fm]|e]; cbn [bind]; [|reflexivity].
    rewrite IH. replace (S (S k + c)) with (S (k + S c)) by lia. reflexivity.
Qed.

Lemma run_iters_split (st : fstate) (k a b : nat) :
  iters st k (a + S b) = ('(st1, _) <- iters st k a ;; iters st1 (S (k + a)) b).
Proof.
  revert st k; induction a as [|a IH]; intros st k.
  - simpl. rewrite Nat.add_0_r.
    destruct (body k st) as [[st1 fm]|e]; reflexivity.
  - change (iters st k (S a + S b))
      with ('(st', _) <- body k st ;; iters st' (S k) (a + S b)).
    change (iters st k (S a))
      with ('(st', _) <- body k st ;; iters st' (S k) a).
    destruct (body k st) as [[st1 fm]|e]; cbn [bind]; [|reflexivity].
    rewrite IH. replace (S (S k + a)) with (S (k + S a)) by lia. reflexivity.
Qed.

(** an iteration only writes the entries of its own index *)
Lemma run_iters_preserves (c : nat) :
  forall (st : fstate) (k : nat) (st' : fstate) (fmax : R),
    iters st k c = Ok (st', fmax) ->
    length (nu st') = length (nu st) /\
    length (A st') = length (A st) /\
    length (phi st') = length (phi st) /\
    forall j, (j < k)%nat ->
              nth j (nu st') 0 = nth j (nu st) 0 /\
              nth j (A st') 0 = nth j (A st) 0.
Proof.
  induction c as [|c IH]; intros st k st' fmax H.
  - simpl in H. destruct (body k st) as [[st1 fm]|e] eqn:Eb; cbn [bind] in H;
      [|discriminate]. inversion H; subst.
    destruct (frecoder_body_inv _ _ _ _ Eb) as (nuk & ab & _ & -> & -> & ->).
    rewrite !list_set_length.
    split; [reflexivity|]. split; [reflexivity|]. split; [reflexivity|].
    intros j Hlt. split; apply nth_list_set_other; lia.
  - change (iters st k (S c))
      with ('(st', _) <- body k st ;; iters st' (S k) c) in H.
    destruct (body k st) as [[st1 fm]|e] eqn:Eb; cbn [bind] in H; [|discriminate].
    destruct (IH _ _ _ _ H) as (L1 & L2 & L3 & Hj).
    destruct (frecoder_body_inv _ _ _ _ Eb) as (nuk & ab & _ & E1 & E2 & E3).
    rewrite L1, L2, L3, E1, E2, E3, !list_set_length.
    split; [reflexivity|]. split; [reflexivity|]. split; [reflexivity|].
    intros j Hlt. destruct (Hj j ltac:(lia)) as [-> ->].
    rewrite E1, E2. split; apply nth_list_set_other; lia.
Qed.

(** the entries written by iteration [j] are final *)
Lemma run_iters_entry (st : fstate) (k a b : nat) (stj st' : fstate) (fj fmax : R) :
  iters st k a = Ok (stj, fj) ->
  iters st k (a + b) = Ok (st', fmax) ->
  nth (k + a) (nu st') 0 = nth (k + a) (nu stj) 0 /\
  nth (k + a) (A st') 0 = nth (k + a) (A stj) 0.
Proof.
  intros Ha Hab. destruct b as [|b].
  - rewrite Nat.add_0_r in Hab. rewrite Ha in Hab. inversion Hab; subst; auto.
  - rewrite run_iters_split, Ha in Hab; cbn [bind] in Hab.
    destruct (run_iters_preserves _ _ _ _ _ Hab) as (_ & _ & _ & Hj).
    apply Hj. lia.
Qed.

(** What the loop returns: the last index, the locals it leaves, and how
    they arise from the iterated body. *)
Lemma frecoder_loop_spec (bc : option R) (m : nat) :
  forall (k : nat) (st : fstate) (k' : nat) (st' : fstate),
    frecoder_loop fmin_slsqp self bc m k st = Ok (k', st') ->
    (k <= k' <= k + m)%nat /\
    (exists fmax,
        iters st k (k' - k) = Ok (st', fmax) /\
        ((k' < k + m)%nat -> break_test bc fmax (nth k' (A st') 0) = true)) /\
    (forall j, (k <= j < k')%nat ->
               exists stj fmaxj,
                 iters st k (j - k) = Ok (stj, fmaxj) /\
                 break_test bc fmaxj (nth j (A stj) 0) = false).
Proof.
  induction m as [|m IH]; intros k st k' st' H.
  - simpl in H. destruct (body k st) as [[st1 fm]|e] eqn:Eb; cbn [bind] in H;
      [|discriminate].
    assert (k' = k /\ st' = st1) as [-> ->]
        by (destruct (break_test _ _ _); inversion H; auto).
    split; [lia|]. split.
    + exists fm. rewrite Nat.sub_diag. simpl. rewrite Eb. split; [reflexivity|lia].
    + intros j Hj; lia.
  - change (frecoder_loop fmin_slsqp self bc (S m) k st)
      with ('(st', fmax) <- body k st ;;
            if break_test bc fmax (nth k (A st') 0) then Ok (k, st')
            else frecoder_loop fmin_slsqp self bc m (S k) st') in H.
    destruct (body k st) as [[st1 fm]|e] eqn:Eb; cbn [bind] in H; [|discriminate].
    destruct (break_test bc fm (nth k (A st1) 0)) eqn:Ebr.
    + inversion H; subst. split; [lia|]. split.
      * exists fm. rewrite Nat.sub_diag. simpl. rewrite Eb. auto.
      * intros j Hj; lia.
    + destruct (IH _ _ _ _ H) as (Hk & (fmax & Hrun & Hbr) & Hall).
      split; [lia|]. split.
      * exists fmax. replace (k' - k)%nat with (S (k' - S k)) by lia.
        change (iters st k (S (k' - S k)))
          with ('(st', _) <- body k st ;; iters st' (S k) (k' - S k)).
        rewrite Eb; cbn [bind]. split; [exact Hrun|]. intros Hlt. apply Hbr. lia.
      * intros j Hj. destruct (Nat.eq_dec j k) as [->|Hne].
        -- exists st1, fm. rewrite Nat.sub_diag. simpl. rewrite Eb. auto.
        -- destruct (Hall j ltac:(lia)) as (stj & fmaxj & Hr & Hb).
           exists stj, fmaxj. replace (j - k)%nat with (S (j - S k)) by lia.
           change (iters st k (S (j - S k)))
             with ('(st', _) <- body k st ;; iters st' (S k) (j - S k)).
           rewrite Eb; cbn [bind]. auto.
Qed.

End FrecoderProperties.

Section FrecoderTheorems.

Variable fmin_slsqp : minimizer.
Variable self : NAFF.

Local Abbreviation body := (frecoder_body fmin_slsqp self).
Local Abbreviation iters := (run_iters fmin_slsqp self).
Local Abbreviation loop := (frecoder_loop fmin_slsqp self).

Lemma frecoder_inv (f : list C) (nintvec : Z) (bc : option R) (nus As phis : list R) :
  frecoder fmin_slsqp self f nintvec bc = Ok (nus, As, phis) ->
  exists m k st,
    nintvec = Z.of_nat (S m) /\
    loop bc m 0%nat (frecoder_init self f (S m)) = Ok (k, st) /\
    nus = map Ropp (firstn (k + 1) (nu st)) /\
    As = firstn (k + 1) (A st) /\
    phis = firstn (k + 1) (phi st).
Proof.
  unfold frecoder. destruct (Z.ltb_spec nintvec 0) as [Hn|Hn]; [discriminate|].
  destruct (Z.to_nat nintvec) as [|m] eqn:En; [discriminate|].
  destruct (loop bc m 0%nat _) as [[k st]|e] eqn:El; cbn [bind]; [|discriminate].
  intros H; inversion H; subst. exists m, k, st. repeat split; auto. lia.
Qed.

Lemma frecoder_init_lengths (f : list C) (n : nat) :
  length (nu (frecoder_init self f n)) = n /\
  length (A (frecoder_init self f n)) = n /\
  length (phi (frecoder_init self f n)) = n.
Proof. unfold frecoder_init; simpl. now rewrite !repeat_length. Qed.

Lemma run_iters_prefix (st : fstate) (k a b : nat) (st' : fstate) (fmax : R) :
  iters st k (a + b) = Ok (st', fmax) ->
  exists stj fj, iters st k a = Ok (stj, fj).
Proof.
  destruct b as [|b].
  - rewrite Nat.add_0_r. eauto.
  - rewrite run_iters_split.
    destruct (iters st k a) as [[stj fj]|e]; cbn [bind]; [eauto|discriminate].
Qed.

Lemma break_test_false (eps fmax Ak : R) :
  break_test (Some eps) fmax Ak = false <-> eps <= fmax /\ eps <= Ak.
Proof.
  unfold break_test, Rltb.
  destruct (Rlt_dec fmax eps), (Rlt_dec Ak eps); simpl; split;
    try discriminate; try (intros [? ?]; lra); intros _; split; lra.
Qed.

Lemma break_test_true (eps fmax Ak : R) :
  break_test (Some eps) fmax Ak = true <-> fmax < eps \/ Ak < eps.
Proof.
  unfold break_test, Rltb.
  destruct (Rlt_dec fmax eps), (Rlt_dec Ak eps); simpl; split;
    try discriminate; auto; intros [?|?]; lra.
Qed.

Lemma firstn_1_nth {X : Type} (l : list X) (d : X) :
  (0 < length l)%nat -> firstn 1 l = [nth 0 l d].
Proof. destruct l; simpl; [lia|reflexivity]. Qed.

(** an exception of the loop is the exception of one of its body passes,
    reached through passes that did not meet the break test *)
Lemma frecoder_loop_raise (bc : option R) (m : nat) :
  forall (k : nat) (st : fstate) (e : exn),
    loop bc m k st = Raise e ->
    exists j, (j <= m)%nat /\ iters st k j = Raise e /\
              forall i, (i < j)%nat ->
                        exists sti fmi,
                          iters st k i = Ok (sti, fmi) /\
                          break_test bc fmi (nth (k + i) (A sti) 0) = false.
Proof.
  induction m as [|m IH]; intros k st e H.
  - exists 0%nat. split; [lia|]. cbn [frecoder_loop] in H. cbn [run_iters].
    split; [|intros i Hi; lia].
    destruct (body k st) as [[st1 fm]|e'] eqn:Eb; cbn [bind] in *;
      [|inversion H; reflexivity].
    destruct (break_test _ _ _); discriminate.
  - cbn [frecoder_loop] in H.
    destruct (body k st) as [[st1 fm]|e'] eqn:Eb; cbn [bind] in H.
    + destruct (break_test bc fm (nth k (A st1) 0)) eqn:Ebr; [discriminate|].
      destruct (IH _ _ _ H) as (j & Hj & Hr & Hall).
      exists (S j). split; [lia|]. split.
      * cbn [run_iters]. rewrite Eb; cbn [bind]. exact Hr.
      * intros [|i] Hi.
        -- exists st1, fm. cbn [run_iters]. rewrite Eb, Nat.add_0_r. auto.
        -- destruct (Hall i ltac:(lia)) as (sti & fmi & Hri & Hbi).
           exists sti, fmi. cbn [run_iters]. rewrite Eb; cbn [bind].
           replace (k + S i)%nat with (S k + i)%nat by lia. auto.
    + exists 0%nat. split; [lia|]. split; [|intros i Hi; lia].
      cbn [run_iters]. rewrite Eb. cbn [bind]. inversion H; reflexivity.
Qed.

Lemma frecoder_raise_inv (f : list C) (nintvec : Z) (bc : option R) (e : exn) :
  (1 <= nintvec)%Z ->
  frecoder fmin_slsqp self f nintvec bc = Raise e ->
  exists j, (Z.of_nat j < nintvec)%Z /\
            iters (frecoder_init self f (Z.to_nat nintvec)) 0%nat j = Raise e /\
            forall i, (i < j)%nat ->
                      exists sti fmi,
                        iters (frecoder_init self f (Z.to_nat nintvec)) 0%nat i
                        = Ok (sti, fmi) /\
                        break_test bc fmi (nth i (A sti) 0) = false.
Proof.
  intros Hn. unfold frecoder.
  destruct (Z.ltb_spec nintvec 0) as [?|_]; [lia|].
  destruct (Z.to_nat nintvec) as [|m] eqn:En; [lia|].
  destruct (loop bc m 0%nat _) as [[k st]|e'] eqn:El; cbn [bind]; [discriminate|].
  intros [= <-]. destruct (frecoder_loop_raise _ _ _ _ _ El) as (j & Hj & Hr & Hall).
  exists j. split; [lia|]. split; [exact Hr|exact Hall].
Qed.

(** The frequency recorded for step [j] is the negative of the search
    frequency of that step. *)
Lemma frecoder_records_neg (f : list C) (nintvec : Z) (bc : option R)
      (nus As phis : list R) :
  frecoder fmin_slsqp self f nintvec bc = Ok (nus, As, phis) ->
  forall j, (j < length nus)%nat ->
            search_freq fmin_slsqp self (frecoder_init self f (Z.to_nat nintvec)) j
            = Ok (- nth j nus 0).
Proof.
  intros H j Hj.
  destruct (frecoder_inv _ _ _ _ _ _ H) as (m & k & st & -> & Hl & -> & -> & ->).
  rewrite Nat2Z.id.
  destruct (frecoder_loop_spec _ _ _ _ _ _ _ _ Hl) as (Hk & (fmax & Hrun & _) & _).
  rewrite Nat.sub_0_r in Hrun.
  destruct (frecoder_init_lengths f (S m)) as (Ln & _ & _).
  destruct (run_iters_preserves _ _ _ _ _ _ _ Hrun) as (Ln' & _ & _ & _).
  rewrite length_map, length_firstn in Hj.
  rewrite nth_map_opp, nth_firstn, Ropp_involutive by lia.
  replace k with (j + (k - j))%nat in Hrun by lia.
  destruct (run_iters_prefix _ _ _ _ _ _ Hrun) as (stj & fj & Hrj).
  destruct (run_iters_entry _ _ _ _ _ _ _ _ _ _ Hrj Hrun) as [E _].
  simpl in E. rewrite E.
  destruct j as [|j'].
  - simpl in Hrj. destruct (body 0%nat _) as [[s1 f1]|e] eqn:Eb; cbn [bind] in Hrj;
      [|discriminate]. inversion Hrj; subst.
    destruct (frecoder_body_inv _ _ _ _ _ _ Eb) as (nuk & ab & Hf & -> & _).
    unfold search_freq. rewrite Hf. reflexivity.
  - rewrite run_iters_snoc in Hrj.
    destruct (iters _ 0%nat j') as [[s1 f1]|e] eqn:Er; cbn [bind] in Hrj;
      [|discriminate].
    destruct (frecoder_body_inv _ _ _ _ _ _ Hrj) as (nuk & ab & Hf & -> & _).
    unfold search_freq. rewrite Er; cbn [bind]. rewrite Hf. f_equal. symmetry.
    apply nth_list_set_same.
    destruct (run_iters_preserves _ _ _ _ _ _ _ Er) as (L & _). lia.
Qed.


(** C4.  With a break threshold [eps]: [frecoder] returns between 1 and
    [nintvec] components; an iteration [j+1] was performed only if after
    iteration [j] both [fmax >= eps] and [A[j] >= eps]; when fewer than
    [nintvec] components are returned the last iteration met the break test.
    A run that raises does so in one of at most [nintvec] iterations, each
    iteration before it having left [fmax >= eps] and [A >= eps].  In
    particular, when the first iteration leaves [fmax < eps] or
    [A[0] < eps], [frecoder] returns exactly the one component of that
    iteration. *)
Theorem frecoder_stops (f : list C) (nintvec : Z) (eps : R) :
  (forall nus As phis,
      frecoder fmin_slsqp self f nintvec (Some eps) = Ok (nus, As, phis) ->
      (1 <= length nus)%nat /\ (Z.of_nat (length nus) <= nintvec)%Z /\
      (forall j, (S j < length nus)%nat ->
                 exists st fmax,
                   iters (frecoder_init self f (Z.to_nat nintvec)) 0%nat j = Ok (st, fmax) /\
                   nth j (A st) 0 = nth j As 0 /\
                   eps <= fmax /\ eps <= nth j As 0) /\
      ((Z.of_nat (length nus) < nintvec)%Z ->
       exists st fmax,
         iters (frecoder_init self f (Z.to_nat nintvec)) 0%nat (length nus - 1)
         = Ok (st, fmax) /\
         (fmax < eps \/ nth (length nus - 1) As 0 < eps)))
  /\
  ((1 <= nintvec)%Z ->
   forall e,
     frecoder fmin_slsqp self f nintvec (Some eps) = Raise e ->
     exists j, (Z.of_nat j < nintvec)%Z /\
               iters (frecoder_init self f (Z.to_nat nintvec)) 0%nat j = Raise e /\
               forall i, (i < j)%nat ->
                         exists st fmax,
                           iters (frecoder_init self f (Z.to_nat nintvec)) 0%nat i
                           = Ok (st, fmax) /\
                           eps <= fmax /\ eps <= nth i (A st) 0)
  /\
  ((1 <= nintvec)%Z ->
   forall st fmax,
     body 0%nat (frecoder_init self f (Z.to_nat nintvec)) = Ok (st, fmax) ->
     fmax < eps \/ nth 0 (A st) 0 < eps ->
     frecoder fmin_slsqp self f nintvec (Some eps)
     = Ok ([- nth 0 (nu st) 0], [nth 0 (A st) 0], [nth 0 (phi st) 0])).
Proof.
  split; [|split].
  - intros nus As phis H.
    destruct (frecoder_inv _ _ _ _ _ _ H) as (m & k & st & -> & Hl & -> & -> & ->).
    rewrite Nat2Z.id.
    destruct (frecoder_loop_spec _ _ _ _ _ _ _ _ Hl)
      as (Hk & (fmax & Hrun & Hbr) & Hall).
    rewrite Nat.sub_0_r in Hrun.
    destruct (frecoder_init_lengths f (S m)) as (Ln & La & Lp).
    destruct (run_iters_preserves _ _ _ _ _ _ _ Hrun) as (Ln' & La' & Lp' & _).
    assert (Hlen : length (map Ropp (firstn (k + 1) (nu st))) = S k)
      by (rewrite length_map, length_firstn; lia).
    rewrite Hlen. split; [lia|]. split; [lia|]. split.
    + intros j Hj.
      destruct (Hall j ltac:(lia)) as (stj & fj & Hrj & Hbj).
      rewrite Nat.sub_0_r in Hrj.
      exists stj, fj. split; [exact Hrj|].
      assert (E : nth j (A stj) 0 = nth j (firstn (k + 1) (A st)) 0).
      { rewrite nth_firstn by lia.
        replace k with (j + (k - j))%nat in Hrun by lia.
        destruct (run_iters_entry _ _ _ _ _ _ _ _ _ _ Hrj Hrun) as [_ E].
        simpl in E. now rewrite E. }
      split; [exact E|]. rewrite <- E. now apply break_test_false.
    + intros Hlt. exists st, fmax. replace (S k - 1)%nat with k by lia.
      split; [exact Hrun|].
      rewrite nth_firstn by lia. apply break_test_true. apply Hbr. lia.
  - intros Hn e He.
    destruct (frecoder_raise_inv _ _ _ _ Hn He) as (j & Hj & Hr & Hall).
    exists j. split; [exact Hj|]. split; [exact Hr|].
    intros i Hi. destruct (Hall i Hi) as (sti & fmi & Hri & Hbi).
    exists sti, fmi. split; [exact Hri|]. now apply break_test_false.
  - intros Hn st fmax Hb Hlt. unfold frecoder.
    destruct (Z.ltb_spec nintvec 0) as [Hneg|_]; [lia|].
    destruct (Z.to_nat nintvec) as [|m] eqn:En; [lia|].
    destruct (frecoder_body_inv _ _ _ _ _ _ Hb) as (nuk & ab & _ & E1 & E2 & E3).
    destruct (frecoder_init_lengths f (S m)) as (Ln & La & Lp).
    assert (Hloop : loop (Some eps) m 0%nat (frecoder_init self f (S m)) = Ok (0%nat, st)).
    { apply break_test_true in Hlt.
      destruct m; cbn [frecoder_loop]; rewrite Hb; cbn [bind]; now rewrite Hlt. }
    rewrite Hloop; cbn [bind]. simpl Nat.add.
    rewrite !(firstn_1_nth _ 0) by (rewrite ?E1, ?E2, ?E3, list_set_length; lia).
    reflexivity.
Qed.

End FrecoderTheorems.

(** ** Integer vectors *)

Lemma argmin_from_spec (l : list R) :
  forall (full : list R) (bi : nat) (b : R) (i : nat),
    (bi < i)%nat ->
    nth bi full 0 = b ->
    (forall j, (j < length l)%nat -> nth (i + j) full 0 = nth j l 0) ->
    (argmin_from bi b i l < i + length l)%nat /\
    nth (argmin_from bi b i l) full 0 <= b /\
    forall y, In y l -> nth (argmin_from bi b i l) full 0 <= y.
Proof.
  induction l as [|x l IH]; intros full bi b i Hbi Hb Hl; simpl.
  - split; [lia|]. split; [lra|]. intros y [].
  - assert (Hx : nth i full 0 = x)
      by (rewrite <- (Nat.add_0_r i); apply (Hl 0%nat); simpl; lia).
    assert (Hl' : forall j, (j < length l)%nat -> nth (S i + j) full 0 = nth j l 0).
    { intros j Hj. replace (S i + j)%nat with (i + S j)%nat by lia.
      apply (Hl (S j)). simpl; lia. }
    destruct (Rlt_dec x b) as [Hlt|Hge].
    + destruct (IH full i x (S i) ltac:(lia) Hx Hl') as (H1 & H2 & H3).
      split; [lia|]. split; [lra|]. intros y [<-|Hy]; auto.
    + destruct (IH full bi b (S i) ltac:(lia) Hb Hl') as (H1 & H2 & H3).
      split; [lia|]. split; [lra|]. intros y [<-|Hy]; auto. lra.
Qed.

Lemma argmin_spec (l : list R) (r : nat) :
  argmin l = Ok r -> (r < length l)%nat /\ forall y, In y l -> nth r l 0 <= y.
Proof.
  destruct l as [|x l]; simpl; [discriminate|]. intros [= <-].
  destruct (argmin_from_spec l (x :: l) 0%nat x 1%nat) as (H1 & H2 & H3);
    [lia | reflexivity | intros j Hj; reflexivity |].
  split; [lia|]. intros y [<-|Hy]; auto.
Qed.

Lemma argmin_ok (l : list R) : l <> [] -> exists r, argmin l = Ok r.
Proof. destruct l; [congruence|]. simpl; eauto. Qed.

Lemma nth_map_nth_error {X : Type} (g : X -> R) (l : list X) (i : nat) (a : X) :
  nth_error l i = Some a -> nth i (map g l) 0 = g a.
Proof.
  revert i; induction l as [|x l IH]; intros [|i]; simpl; try discriminate.
  - now intros [= ->].
  - apply IH.
Qed.

Lemma int_range_spec (imax z : Z) :
  In z (int_range imax) <-> (- imax <= z <= imax)%Z.
Proof.
  unfold int_range. rewrite in_map_iff. split.
  - intros (i & <- & Hi). apply in_seq in Hi. lia.
  - intros Hz. exists (Z.to_nat (z + imax)). split; [lia|].
    apply in_seq. lia.
Qed.

Lemma nvecs_spec (vals : list Z) (m : nat) (v : list Z) :
  In v (nvecs m vals) <-> length v = m /\ Forall (fun z => In z vals) v.
Proof.
  revert v; induction m as [|m IH]; intros v; simpl.
  - split.
    + intros [<-|[]]. auto.
    + intros [H _]. destruct v; [auto|discriminate].
  - rewrite in_flat_map. split.
    + intros (rest & Hrest & Hv). apply in_map_iff in Hv.
      destruct Hv as (z & <- & Hz). apply IH in Hrest. destruct Hrest as [<- Hf].
      split; [reflexivity|]. constructor; auto.
    + intros [Hlen Hf]. destruct v as [|z rest]; [discriminate|].
      inversion Hf; subst. exists rest. split.
      * apply IH. split; [simpl in Hlen; lia | assumption].
      * apply in_map_iff. exists z. auto.
Qed.

(** membership in the mesh, with the range written as bounds *)
Lemma nvecs_range (imax : Z) (m : nat) (v : list Z) :
  In v (nvecs m (int_range imax)) <->
  length v = m /\ Forall (fun z => (- imax <= z <= imax)%Z) v.
Proof.
  rewrite nvecs_spec. split; intros [H1 H2]; split; auto;
    eapply Forall_impl; try exact H2; intros z; apply int_range_spec.
Qed.

(** C9.  For one to three fundamentals and [imax >= 0],
    [find_integer_vectors] returns for every component of the table an
    integer tuple of the length of the fundamentals, with entries in
    [-imax .. imax], whose residual [|freq - n . ffreqs|] is minimal among
    all such tuples; hence the residual is 0 for a component whose frequency
    is exactly such a combination. *)
Theorem find_integer_vectors_minimal (ffreqs : list R) (d : list row) (imax : Z) :
  (1 <= length ffreqs <= 3)%nat ->
  (0 <= imax)%Z ->
  exists rows,
    find_integer_vectors ffreqs d imax = Ok rows /\
    Forall2
      (fun r v =>
         let in_range := Forall (fun z => (- imax <= z <= imax)%Z) in
         length v = length ffreqs /\ in_range v /\
         (forall v', length v' = length ffreqs -> in_range v' ->
                     Rabs (freq r - dot v ffreqs) <= Rabs (freq r - dot v' ffreqs)) /\
         (forall n0, length n0 = length ffreqs -> in_range n0 ->
                     freq r = dot n0 ffreqs ->
                     Rabs (freq r - dot v ffreqs) = 0))
      d rows.
Proof.
  intros Hm Himax. unfold find_integer_vectors.
  destruct (Z.ltb_spec imax 0) as [?|_]; [lia|].
  destruct (Nat.eqb_spec (length ffreqs) 0) as [?|_]; [lia|].
  destruct (Nat.ltb_spec 3 (length ffreqs)) as [?|_]; [lia|]. cbn [andb].
  set (nv := nvecs (length ffreqs) (int_range imax)).
  assert (Hne : nv <> []).
  { assert (Hin : In (repeat 0%Z (length ffreqs)) nv).
    { apply nvecs_range. split; [apply repeat_length|].
      apply Forall_forall. intros z Hz. apply repeat_spec in Hz. lia. }
    intros E. rewrite E in Hin. exact Hin. }
  induction d as [|r d IH].
  - exists []. split; [reflexivity|constructor].
  - destruct IH as (rows & Hrows & Hall).
    cbn [mapM].
    destruct (argmin_ok (map (fun v => Rabs (freq r - dot v ffreqs)) nv)) as [ix Hix].
    { destruct nv; [congruence|discriminate]. }
    rewrite Hix; cbn [bind].
    destruct (argmin_spec _ _ Hix) as [Hlt Hmin]. rewrite length_map in Hlt.
    unfold getitem at 1.
    destruct (nth_error nv ix) as [v|] eqn:Ev;
      [|apply nth_error_None in Ev; lia].
    cbn [bind]. rewrite Hrows; cbn [bind].
    exists (v :: rows). split; [reflexivity|]. constructor; [|exact Hall].
    assert (Hv : In v nv) by (eapply nth_error_In; eauto).
    apply nvecs_range in Hv. destruct Hv as [Hlen Hrange].
    rewrite (nth_map_nth_error _ _ _ _ Ev) in Hmin.
    assert (Hbest : forall v', length v' = length ffreqs ->
                               Forall (fun z => (- imax <= z <= imax)%Z) v' ->
                               Rabs (freq r - dot v ffreqs)
                               <= Rabs (freq r - dot v' ffreqs)).
    { intros v' Hl' Hr'. apply Hmin.
      apply in_map_iff. exists v'. split; [reflexivity|].
      apply nvecs_range. auto. }
    cbv zeta. repeat split; auto.
    intros n0 Hl0 Hr0 Heq.
    apply Rle_antisym; [|apply Rabs_pos].
    rewrite (Hbest n0 Hl0 Hr0), Heq, Rminus_diag, Rabs_R0. lra.
Qed.

(** ** Sorting and index arrays *)

Lemma insert_by_perm {K : Type} (leb : K -> K -> bool) (x : K * nat) (s : list (K * nat)) :
  Permutation (insert_by leb x s) (x :: s).
Proof.
  induction s as [|y s IH]; simpl; [reflexivity|].
  destruct (leb (fst x) (fst y)); [reflexivity|].
  rewrite IH. apply perm_swap.
Qed.

Lemma isort_perm {K : Type} (leb : K -> K -> bool) (l : list (K * nat)) :
  Permutation (fold_right (insert_by leb) [] l) l.
Proof.
  induction l as [|x l IH]; simpl; [reflexivity|].
  rewrite insert_by_perm. now constructor.
Qed.

Lemma map_snd_combine_seq {X : Type} (l : list X) (s : nat) :
  map snd (combine l (seq s (length l))) = seq s (length l).
Proof.
  revert s; induction l as [|a l IH]; intros s; simpl; [reflexivity|].
  now rewrite IH.
Qed.

Lemma map_fst_combine_seq {X : Type} (l : list X) (s : nat) :
  map fst (combine l (seq s (length l))) = l.
Proof.
  revert s; induction l as [|a l IH]; intros s; simpl; [reflexivity|].
  now rewrite IH.
Qed.

Lemma argsort_by_perm {K : Type} (leb : K -> K -> bool) (keys : list K) :
  Permutation (argsort_by leb keys) (seq 0 (length keys)).
Proof.
  unfold argsort_by. rewrite <- (map_snd_combine_seq keys 0) at 2.
  apply Permutation_map. apply isort_perm.
Qed.

Lemma take_seq {X : Type} (l pre : list X) :
  take (pre ++ l) (seq (length pre) (length l)) = Ok l.
Proof.
  unfold take. revert pre; induction l as [|a l IH]; intros pre; simpl; [reflexivity|].
  unfold getitem at 1. rewrite nth_error_app2, Nat.sub_diag by lia. simpl.
  replace (pre ++ a :: l) with ((pre ++ [a]) ++ l) by (now rewrite <- app_assoc).
  replace (S (length pre)) with (length (pre ++ [a]))
    by (rewrite length_app; simpl; lia).
  now rewrite IH.
Qed.

Lemma take_perm {X : Type} (a : list X) (idx idx' : list nat) :
  Permutation idx idx' ->
  forall l, take a idx = Ok l -> exists l', take a idx' = Ok l' /\ Permutation l l'.
Proof.
  unfold take. induction 1 as [|i idx idx' Hp IH|i j idx|idx1 idx2 idx3 H1 IH1 H2 IH2];
    intros l Hl.
  - exists l. auto.
  - simpl in *. destruct (getitem a i); cbn [bind] in *; [|discriminate].
    destruct (mapM (getitem a) idx) as [bs|]; cbn [bind] in *; [|discriminate].
    destruct (IH bs eq_refl) as (l' & -> & Hperm). cbn [bind].
    inversion Hl; subst. eexists; split; [reflexivity|]. now constructor.
  - simpl in *. destruct (getitem a i); cbn [bind] in *;
      destruct (getitem a j); cbn [bind] in *; try discriminate.
    destruct (mapM (getitem a) idx) as [bs|]; cbn [bind] in *; [|discriminate].
    inversion Hl; subst. eexists; split; [reflexivity|]. apply perm_swap.
  - destruct (IH1 l Hl) as (l1 & Hl1 & Hp1).
    destruct (IH2 l1 Hl1) as (l2 & Hl2 & Hp2).
    exists l2. split; [assumption|]. now transitivity l1.
Qed.

(** indexing by a permutation of all positions permutes the array *)
Lemma take_all_perm {X : Type} (a : list X) (idx : list nat) :
  Permutation idx (seq 0 (length a)) ->
  exists l, take a idx = Ok l /\ Permutation l a.
Proof.
  intros Hp.
  destruct (take_perm a _ _ (Permutation_sym Hp) a (take_seq a [])) as (l & Hl & Hpl).
  exists l. split; [assumption|]. now symmetry.
Qed.

Lemma where_ix_from {X : Type} (p : X -> bool) (l : list X) (s i : nat) :
  In i (map snd (filter (fun x => p (fst x)) (combine l (seq s (length l))))) ->
  exists r, (s <= i)%nat /\ nth_error l (i - s) = Some r /\ p r = true.
Proof.
  revert s; induction l as [|a l IH]; intros s; simpl; [intros []|].
  destruct (p a) eqn:Ep; simpl.
  - intros [<-|Hin].
    + exists a. rewrite Nat.sub_diag. auto.
    + destruct (IH _ Hin) as (r & Hs & Hn & Hp). exists r.
      replace (i - s)%nat with (S (i - S s)) by lia. split; [lia|]. auto.
  - intros Hin. destruct (IH _ Hin) as (r & Hs & Hn & Hp). exists r.
    replace (i - s)%nat with (S (i - S s)) by lia. split; [lia|]. auto.
Qed.

(** an index found by [np.where] designates a record satisfying the test *)
Lemma where_ix_first {X : Type} (p : X -> bool) (l : list X) (i : nat) :
  getitem (where_ix p l) 0 = Ok i ->
  exists r, getitem l i = Ok r /\ p r = true.
Proof.
  unfold getitem at 1. destruct (nth_error (where_ix p l) 0) as [i'|] eqn:E;
    [|discriminate]. intros [= ->].
  apply nth_error_In in E. apply where_ix_from in E.
  destruct E as (r & _ & Hn & Hp). rewrite Nat.sub_0_r in Hn.
  exists r. unfold getitem. now rewrite Hn.
Qed.

Lemma where_ix_none {X : Type} (p : X -> bool) (l : list X) :
  where_ix p l = [] -> getitem (where_ix p l) 0 = Raise IndexError.
Proof. intros ->. reflexivity. Qed.

Lemma dedup_adjacent_In (x : Z) (l : list Z) : In x l -> In x (dedup_adjacent l).
Proof.
  induction l as [|a l IH]; [auto|].
  destruct l as [|b l']; [auto|].
  change (dedup_adjacent (a :: b :: l'))
    with (if Z.eqb a b then dedup_adjacent (b :: l') else a :: dedup_adjacent (b :: l')).
  intros [<-|Hin].
  - destruct (Z.eqb_spec a b) as [->|_]; [apply IH; left; reflexivity|left; reflexivity].
  - destruct (Z.eqb a b); [|right]; now apply IH.
Qed.

Lemma unique_sorted_In (x : Z) (l : list Z) : In x l -> In x (unique_sorted l).
Proof.
  intros Hin. unfold unique_sorted. apply dedup_adjacent_In.
  eapply Permutation_in.
  - symmetry. apply Permutation_map. apply isort_perm.
  - now rewrite map_fst_combine_seq.
Qed.

(** ** Selection of the fundamentals *)

Lemma in_012 (z : Z) : In z [0; 1; 2]%Z -> z = 0%Z \/ z = 1%Z \/ z = 2%Z.
Proof. simpl. intuition. Qed.

(** a successful [bind]: name the value of its first computation *)
Tactic Notation "bind_ok_step" hyp(H) ident(x) ident(E) :=
  match type of H with
  | bind ?c _ = Ok _ =>
      destruct c as [x|] eqn:E; cbn [bind] in H; [|discriminate]
  end.

(** For three dimensions, a returned selection has one fundamental per
    source dimension, entry [i] coming from dimension [i]. *)
Lemma select3_cover (d : list row) (ff : list R) (ix : list nat) :
  select_fundamentals 3 d = Ok (ff, ix) ->
  length ff = 3%nat /\ length ix = 3%nat /\
  forall i, (i < 3)%nat ->
            exists r, getitem d (nth i ix 0%nat) = Ok r /\ n r = Z.of_nat i /\
                      nth i ff 0 = freq r /\ nonzero_freq r = true.
Proof.
  unfold select_fundamentals, candidates1, candidates2, candidates3. intros H.
  change (Nat.eqb 3 1) with false in H. change (Nat.eqb 3 2) with false in H.
  cbv iota in H.
  bind_ok_step H i0 E0.
  destruct (where_ix_first _ _ _ E0) as (r0 & G0 & P0).
  rewrite G0 in H; cbn [bind] in H.
  bind_ok_step H i1 E1.
  destruct (where_ix_first _ _ _ E1) as (r1 & G1 & P1).
  rewrite G1 in H; cbn [bind] in H.
  bind_ok_step H i2 E2.
  destruct (where_ix_first _ _ _ E2) as (r2 & G2 & P2).
  rewrite G2 in H; cbn [bind] in H.
  cbn [repeat list_set] in H.
  destruct (list_eq_dec Z.eq_dec (unique_sorted [n r0; n r1; n r2]) [0; 1; 2]%Z)
    as [Hu|Hu]; cbn [negb] in H; [|discriminate].
  assert (M0 : In (n r0) [0; 1; 2]%Z)
    by (rewrite <- Hu; apply unique_sorted_In; simpl; auto).
  assert (M1 : In (n r1) [0; 1; 2]%Z)
    by (rewrite <- Hu; apply unique_sorted_In; simpl; auto).
  assert (M2 : In (n r2) [0; 1; 2]%Z)
    by (rewrite <- Hu; apply unique_sorted_In; simpl; auto).
  apply andb_prop in P1. destruct P1 as [P1 _].
  apply andb_prop in P1. destruct P1 as [N1 D10].
  apply andb_prop in P2. destruct P2 as [P2 _].
  apply andb_prop in P2. destruct P2 as [P2 _].
  apply andb_prop in P2. destruct P2 as [P2 D21].
  apply andb_prop in P2. destruct P2 as [N2 D20].
  unfold other_dim in D10, D20, D21.
  apply in_012 in M0, M1, M2.
  destruct M0 as [A0|[A0|A0]], M1 as [A1|[A1|A1]], M2 as [A2|[A2|A2]];
    rewrite ?A0, ?A1, ?A2 in D10, D20, D21; try discriminate;
    rewrite A0, A1, A2 in H; vm_compute in H; inversion H; subst ff ix;
    (split; [reflexivity|]); (split; [reflexivity|]);
    intros [|[|[|i]]] Hi; try lia; simpl;
    eauto 6.
Qed.

Lemma take_raise {X : Type} (a : list X) (idx : list nat) (e : exn) :
  take a idx = Raise e -> e = IndexError.
Proof.
  apply (mapM_raise (fun e => e = IndexError)). intros i e'. apply getitem_raise.
Qed.

Lemma select3_raise (d : list row) (e : exn) :
  select_fundamentals 3 d = Raise e -> e = IndexError \/ e = MissingXYZError.
Proof.
  unfold select_fundamentals. intros H.
  change (Nat.eqb 3 1) with false in H. change (Nat.eqb 3 2) with false in H.
  cbv iota in H.
  repeat match type of H with
         | bind (getitem ?l ?i) _ = Raise _ =>
             let G := fresh "G" in
             destruct (getitem l i) eqn:G; cbn [bind] in H;
             [| inversion H; subst; apply getitem_raise in G; auto]
         end.
  destruct (negb _); [inversion H; auto|].
  repeat match type of H with
         | bind (take ?l ?i) _ = Raise _ =>
             let G := fresh "G" in
             destruct (take l i) eqn:G; cbn [bind] in H;
             [| inversion H; subst; apply take_raise in G; auto]
         end.
  discriminate.
Qed.

Section SelectionTheorems.

Variable fmin_slsqp : minimizer.
Variable self : NAFF.

Local Abbreviation fff := (find_fundamental_frequencies fmin_slsqp self).
Local Abbreviation table := (build_table fmin_slsqp self).

(** C5.  With three series: a returned set has three entries, entry [i]
    being the frequency of a table record of source dimension [i] with
    nonzero frequency; and once the table is built, the call either returns
    such a set or raises: an index error when one of the three candidate
    lists is empty, the missing-x,y,z error when the chosen records do not
    cover the dimensions 0, 1, 2. *)
Theorem fundamentals_cover_xyz (fs : list (list C)) (nintvec imax : Z)
        (bc : option R) :
  length fs = 3%nat ->
  (forall ffreq d ixes,
      fff fs nintvec imax bc = Ok (ffreq, d, ixes) ->
      table fs nintvec bc = Ok d /\
      length ffreq = 3%nat /\ length ixes = 3%nat /\
      forall i, (i < 3)%nat ->
                exists r, getitem d (nth i ixes 0%nat) = Ok r /\ n r = Z.of_nat i /\
                          nth i ffreq 0 = freq r /\ nonzero_freq r = true)
  /\
  (forall d,
      table fs nintvec bc = Ok d ->
      (fff fs nintvec imax bc = Raise IndexError \/
       fff fs nintvec imax bc = Raise MissingXYZError \/
       exists ffreq ixes, fff fs nintvec imax bc = Ok (ffreq, d, ixes)) /\
      (candidates1 d = [] -> fff fs nintvec imax bc = Raise IndexError) /\
      (forall i0 r0,
          getitem (candidates1 d) 0 = Ok i0 -> getitem d i0 = Ok r0 ->
          candidates2 r0 d = [] -> fff fs nintvec imax bc = Raise IndexError) /\
      (forall i0 r0 i1 r1,
          getitem (candidates1 d) 0 = Ok i0 -> getitem d i0 = Ok r0 ->
          getitem (candidates2 r0 d) 0 = Ok i1 -> getitem d i1 = Ok r1 ->
          candidates3 r0 r1 d = [] -> fff fs nintvec imax bc = Raise IndexError)).
Proof.
  intros Hlen. unfold find_fundamental_frequencies. rewrite Hlen. split.
  - intros ffreq d ixes H.
    destruct (table fs nintvec bc) as [d'|] eqn:Et; cbn [bind] in H; [|discriminate].
    destruct (select_fundamentals 3 d') as [[ff ix]|] eqn:Es; cbn [bind] in H;
      [|discriminate].
    inversion H; subst. split; [reflexivity|]. now apply select3_cover.
  - intros d Et. rewrite Et; cbn [bind]. split; [|split; [|split]].
    + destruct (select_fundamentals 3 d) as [[ff ix]|e] eqn:Es; cbn [bind].
      * right; right. eauto.
      * destruct (select3_raise _ _ Es) as [->| ->]; auto.
    + intros Hc. unfold select_fundamentals. now rewrite Hc.
    + intros i0 r0 G0 Gr0 Hc. unfold select_fundamentals.
      rewrite G0; cbn [bind]. rewrite Gr0; cbn [bind].
      change (Nat.eqb 3 1) with false. cbv iota. now rewrite Hc.
    + intros i0 r0 i1 r1 G0 Gr0 G1 Gr1 Hc. unfold select_fundamentals.
      rewrite G0; cbn [bind]. rewrite Gr0; cbn [bind].
      change (Nat.eqb 3 1) with false. cbv iota.
      rewrite G1; cbn [bind]. rewrite Gr1; cbn [bind].
      change (Nat.eqb 3 2) with false. cbv iota. now rewrite Hc.
Qed.

End SelectionTheorems.

(** ** The component table *)

Lemma mapM_nth_error {X Y : Type} (g : X -> result Y) (l : list X) (bs : list Y) :
  mapM g l = Ok bs ->
  forall i b, nth_error bs i = Some b -> exists a, nth_error l i = Some a /\ g a = Ok b.
Proof.
  revert bs; induction l as [|a l IH]; simpl; intros bs H.
  - inversion H; subst. intros [|i] b; discriminate.
  - destruct (g a) as [b0|] eqn:Eg; cbn [bind] in H; [|discriminate].
    destruct (mapM g l) as [bs0|]; cbn [bind] in H; [|discriminate].
    inversion H; subst. intros [|i] b; simpl.
    + intros [= <-]. eauto.
    + now apply IH.
Qed.

Lemma in_zip_with {X Y Z : Type} (g : X -> Y -> Z) (u : list X) (v : list Y) (z : Z) :
  In z (zip_with g u v) ->
  exists j a b, nth_error u j = Some a /\ nth_error v j = Some b /\ z = g a b.
Proof.
  revert v; induction u as [|a u IH]; intros [|b v]; simpl;
    try (intros Hf; exact (False_ind _ Hf)).
  intros [<-|Hin].
  - exists 0%nat, a, b. auto.
  - destruct (IH _ Hin) as (j & a' & b' & H1 & H2 & H3).
    exists (S j), a', b'. auto.
Qed.

Lemma in_concat_zip_seq {X Y : Type} (g : nat -> X -> list Y) (l : list X) (s : nat) (y : Y) :
  In y (concat (zip_with g (seq s (length l)) l)) ->
  exists i b, nth_error l i = Some b /\ In y (g (s + i)%nat b).
Proof.
  revert s; induction l as [|a l IH]; intros s; simpl; [intros []|].
  rewrite in_app_iff. intros [Hin|Hin].
  - exists 0%nat, a. rewrite Nat.add_0_r. auto.
  - destruct (IH _ Hin) as (i & b & H1 & H2). exists (S i), b.
    replace (s + S i)%nat with (S s + i)%nat by lia. auto.
Qed.

Section TableTheorems.

Variable fmin_slsqp : minimizer.
Variable self : NAFF.

(** C1 (as the code has it).  The component recorded by [frecoder] for a
    step carries the negative of the search frequency of that step;
    [find_fundamental_frequencies] negates the recorded frequencies once
    more when it builds the table.  So the sorted table is a permutation of
    the per-dimension rows, and the ['freq'] field of every entry equals the
    search frequency of its extraction step itself, the negative of the
    frequency [frecoder] recorded for it. *)
Theorem table_holds_search_frequencies (fs : list (list C)) (nintvec : Z)
        (bc : option R) (d : list row) :
  build_table fmin_slsqp self fs nintvec bc = Ok d ->
  exists per_dim,
    mapM (fun fi => frecoder fmin_slsqp self fi nintvec bc) fs = Ok per_dim /\
    Permutation d (concat (zip_with dim_rows (seq 0 (length fs)) per_dim)) /\
    forall r, In r d ->
      exists i f nus As phis j,
        nth_error fs i = Some f /\ n r = Z.of_nat i /\
        frecoder fmin_slsqp self f nintvec bc = Ok (nus, As, phis) /\
        nth_error nus j = Some (- freq r) /\
        search_freq fmin_slsqp self (frecoder_init self f (Z.to_nat nintvec)) j
        = Ok (freq r).
Proof.
  unfold build_table. intros H.
  destruct (mapM _ fs) as [per_dim|] eqn:Em; cbn [bind] in H; [|discriminate].
  exists per_dim. split; [reflexivity|].
  assert (Hlen : length per_dim = length fs) by (eapply mapM_length; eauto).
  set (d0 := concat (zip_with dim_rows (seq 0 (length fs)) per_dim)) in *.
  assert (Hd : take d0 (rev (argsort_by Rleb (map absA d0))) = Ok d)
    by (destruct fs; [discriminate|exact H]).
  clear H.
  destruct (take_all_perm d0 (rev (argsort_by Rleb (map absA d0)))) as (l & Hl & Hp).
  { rewrite <- Permutation_rev.
    rewrite <- (length_map absA d0). apply argsort_by_perm. }
  rewrite Hd in Hl. inversion Hl; subst l. split; [exact Hp|].
  intros r Hr. apply (Permutation_in _ Hp) in Hr.
  unfold d0 in Hr. rewrite <- Hlen in Hr.
  apply in_concat_zip_seq in Hr. destruct Hr as (i & [[nus As] phis] & Hi & Hin).
  destruct (mapM_nth_error _ _ _ Em _ _ Hi) as (f & Hf & Hfr).
  simpl in Hin. apply in_zip_with in Hin.
  destruct Hin as (j & nuk & [Ak pk] & Hj & _ & ->). simpl.
  exists i, f, nus, As, phis, j. rewrite Ropp_involutive.
  repeat split; auto.
  assert (Hjl : (j < length nus)%nat) by (apply nth_error_Some; congruence).
  rewrite (frecoder_records_neg _ _ _ _ _ _ _ _ Hfr j Hjl).
  now rewrite (nth_error_nth _ _ 0 Hj).
Qed.

End TableTheorems.

(** ** The time grid and the quadrature *)

Lemma simps_ok (y x : list R) :
  length x = length y -> y <> [] -> exists s, simps y x = Ok s.
Proof.
  intros Hl Hy. unfold simps. rewrite Hl, Nat.eqb_refl. cbn [negb].
  destruct (Nat.even (length y)); [|eauto].
  destruct (Nat.eqb_spec (length y) 0) as [E|_]; [|eauto].
  destruct y; [congruence|discriminate].
Qed.

Lemma hanning_product_ok (self : NAFF) (u v : list C) :
  length u = length v -> length (chi self) = length u ->
  length (tz self) = length u -> u <> [] ->
  exists p, hanning_product self u v = Ok p.
Proof.
  intros Huv Hchi Htz Hu. unfold hanning_product.
  rewrite (bcast2_same_length _ u v Huv); cbn [bind].
  assert (L1 : length (zip_with (fun a b => Cmul a (Cconj b)) u v) = length u)
    by (now apply zip_with_length).
  rewrite bcast2_same_length by congruence. cbn [bind].
  assert (L2 : length (zip_with Cscale (zip_with (fun a b => Cmul a (Cconj b)) u v)
                                (chi self)) = length u)
    by (rewrite zip_with_length; congruence).
  assert (Hne : forall g : C -> R,
             map g (zip_with Cscale (zip_with (fun a b => Cmul a (Cconj b)) u v)
                             (chi self)) <> []).
  { intros g E. apply (f_equal (@length R)) in E. rewrite length_map, L2 in E.
    destruct u; [congruence|discriminate]. }
  destruct (simps_ok (map Re (zip_with Cscale
                (zip_with (fun a b => Cmul a (Cconj b)) u v) (chi self))) (tz self))
    as [sr ->]; [rewrite length_map; congruence | apply Hne |].
  destruct (simps_ok (map Im (zip_with Cscale
                (zip_with (fun a b => Cmul a (Cconj b)) u v) (chi self))) (tz self))
    as [si ->]; [rewrite length_map; congruence | apply Hne |].
  cbn [bind]. eauto.
Qed.

(** C6 (as the code has it).  [NAFF.__init__] does not look at the length
    of the time array: only the empty array fails (on [t[-1]]); every other
    array, of even or odd length, is stored as it is, [tz] and [chi] have
    its length (nothing is padded), and the weighted inner product of any
    two series of that length is evaluated by the quadrature without an
    error. *)
Theorem NAFF_init_any_length (t0 : list R) :
  (t0 = [] -> NAFF_init t0 = Raise IndexError) /\
  (t0 <> [] ->
   exists self,
     NAFF_init t0 = Ok self /\ t self = t0 /\
     length (tz self) = length t0 /\ length (chi self) = length t0 /\
     forall u v, length u = length t0 -> length v = length t0 ->
                 exists p, hanning_product self u v = Ok p).
Proof.
  split; [intros ->; reflexivity|].
  intros Hne. unfold NAFF_init.
  destruct t0 as [|a t0]; [congruence|].
  unfold getlast. unfold getitem at 1.
  destruct (nth_error (a :: t0) (length (a :: t0) - 1)) as [tl|] eqn:E;
    [|apply nth_error_None in E; simpl in E; lia].
  cbn [bind getitem nth_error].
  eexists. split; [reflexivity|]. cbn [t tz chi].
  rewrite !length_map. repeat split; auto.
  intros u v Hu Hv. apply hanning_product_ok; cbn [tz chi];
    rewrite ?length_map; try congruence.
  destruct u; [discriminate|congruence].
Qed.

Lemma nth_map_zero {X : Type} (l : list X) (i : nat) : nth i (map (fun _ => 0) l) 0 = 0.
Proof. revert i; induction l; intros [|i]; simpl; auto. Qed.

Lemma simps_zeros {X : Type} (l : list X) (x : list R) (s : R) :
  simps (map (fun _ => 0) l) x = Ok s -> s = 0.
Proof.
  unfold simps, basic_simps. rewrite length_map.
  assert (Hsum : forall idx, Rsum (map (simps_term (map (fun _ => 0) l) x) idx) = 0).
  { induction idx as [|i idx IH]; [reflexivity|].
    simpl map. rewrite Rsum_cons, IH. unfold simps_term.
    rewrite !nth_map_zero. unfold Rdiv. ring. }
  destruct (negb _); [discriminate|].
  destruct (Nat.even _).
  - destruct (Nat.eqb _ _); [discriminate|]. intros [= <-].
    rewrite !nth_map_zero.
    destruct (_ <? 0)%Z, (_ <? 0)%Z; rewrite ?Hsum; field.
  - intros [= <-]. destruct (_ <? 0)%Z; rewrite ?Hsum; reflexivity.
Qed.

Lemma simps_ok_inv (y x : list R) (s : R) :
  simps y x = Ok s -> length x = length y /\ y <> [].
Proof.
  unfold simps. destruct (Nat.eqb_spec (length x) (length y)) as [E|E];
    cbn [negb]; [|discriminate].
  intros H. split; [exact E|]. intros ->. simpl in H. discriminate.
Qed.

Lemma simps_zeros_ok (y x : list R) (s : R) :
  simps y x = Ok s -> simps (map (fun _ => 0) y) x = Ok 0.
Proof.
  intros H. apply simps_ok_inv in H. destruct H as [Hl Hy].
  destruct (simps_ok (map (fun _ => 0) y) x) as [s0 Hs0].
  - now rewrite length_map.
  - destruct y; [congruence|discriminate].
  - rewrite Hs0. f_equal. eapply simps_zeros; eauto.
Qed.

Lemma exp_row_self (nu : R) (ts chis : list R) :
  length chis = length ts ->
  let e := map (fun ti => Cexp_i (nu * ti)) ts in
  let integ := zip_with Cscale (zip_with (fun a b => Cmul a (Cconj b)) e e) chis in
  map Re integ = chis /\ map Im integ = map (fun _ => 0) chis.
Proof.
  revert chis; induction ts as [|ti ts IH]; intros [|c chis] Hl; simpl in *;
    try discriminate; auto.
  destruct (IH chis ltac:(lia)) as [-> ->]. split; f_equal; [|ring].
  generalize (sin2_cos2 (nu * ti)). unfold Rsqr. intros H.
  replace (cos (nu * ti) * cos (nu * ti) - sin (nu * ti) * - sin (nu * ti))
    with (sin (nu * ti) * sin (nu * ti) + cos (nu * ti) * cos (nu * ti)) by ring.
  rewrite H. ring.
Qed.

(** The weighted self inner product of a raw exponential is the quadrature
    of the window weights over [2T]. *)
Lemma hanning_product_exp_self (self : NAFF) (nu : R) :
  length (chi self) = length (t self) ->
  let e := map (fun ti => Cexp_i (nu * ti)) (t self) in
  hanning_product self e e
  = rmap (fun s => mkC (s / (2 * T self)) 0) (simps (chi self) (tz self)).
Proof.
  intros Hl e. unfold hanning_product.
  rewrite bcast2_same_length by reflexivity. cbn [bind].
  rewrite bcast2_same_length
    by (rewrite zip_with_length by reflexivity; unfold e; rewrite length_map; congruence).
  cbn [bind].
  destruct (exp_row_self nu (t self) (chi self) Hl) as [Er Ei].
  fold e in Er, Ei. rewrite Er, Ei.
  destruct (simps (chi self) (tz self)) as [s|err] eqn:Es; [|reflexivity].
  unfold rmap; cbn [bind].
  rewrite (simps_zeros_ok _ _ _ Es). cbn [bind]. f_equal. f_equal.
  unfold Rdiv. ring.
Qed.

Section BasisTheorems.

Variable fmin_slsqp : minimizer.
Variable self : NAFF.

(** C2 (as the code has it).  At step 0 the basis vector is the raw
    exponential [exp(i nu0 t)] of the frequency just found: [gso] is not
    called, nothing is projected out and nothing is divided by a norm.  Its
    weighted self inner product is the quadrature of the window weights
    divided by [2T] (on a consistent grid), whatever that value is. *)
Theorem first_basis_vector_raw (f : list C) (m : nat) (st' : fstate) (fmax : R) :
  frecoder_body fmin_slsqp self 0 (frecoder_init self f (S m)) = Ok (st', fmax) ->
  let nu0 := nth 0 (nu st') 0 in
  let e0 := nth 0 (ecap st') [] in
  frequency fmin_slsqp self f = Ok nu0 /\
  e0 = map (fun ti => Cexp_i (nu0 * ti)) (t self) /\
  (length (chi self) = length (t self) ->
   hanning_product self e0 e0
   = rmap (fun s => mkC (s / (2 * T self)) 0) (simps (chi self) (tz self))).
Proof.
  unfold frecoder_body. cbn [Nat.eqb frecoder_init fk ecap nu A phi]. intros H.
  destruct (frequency fmin_slsqp self f) as [nuk|] eqn:Ef; cbn [bind] in H;
    [|discriminate].
  destruct (hanning_product _ _ _) as [ab|]; cbn [bind] in H; [|discriminate].
  destruct (sub_chi _ _ _) as [[fk' fm]|]; cbn [bind] in H; [|discriminate].
  inversion H; subst st' fmax. cbn [nu ecap repeat list_set nth].
  split; [reflexivity|]. split; [reflexivity|].
  intros Hl. now apply hanning_product_exp_self.
Qed.

End BasisTheorems.

(** ** Concrete runs on the sample grids *)

Lemma simps_grid3 (y0 y1 y2 : R) :
  simps [y0; y1; y2] [-1; 0; 1] = Ok ((y0 + 4 * y1 + y2) / 3).
Proof.
  unfold simps, basic_simps, simps_term, Rsum. simpl. f_equal. field.
Qed.

Lemma simps_grid2 (y0 y1 : R) :
  simps [y0; y1] [-0.5; 0.5] = Ok ((y0 + y1) / 2).
Proof.
  unfold simps, basic_simps, simps_term, Rsum. simpl. f_equal. lra.
Qed.

Lemma NAFF_init_grid3 : NAFF_init [0; 1; 2] = Ok grid3.
Proof.
  unfold NAFF_init, grid3, hanning. simpl. f_equal.
  replace (0.5 * (2 + 0)) with 1 by lra.
  replace (0.5 * (2 - 0)) with 1 by lra.
  replace ((0 - 1) * PI / 1) with (- PI) by field.
  replace ((1 - 1) * PI / 1) with 0 by field.
  replace ((2 - 1) * PI / 1) with PI by field.
  rewrite cos_neg, cos_PI, cos_0. f_equal; repeat f_equal; lra.
Qed.

Lemma NAFF_init_grid2 : NAFF_init [0; 1] = Ok grid2.
Proof.
  unfold NAFF_init, grid2, hanning. simpl. f_equal.
  replace (0.5 * (1 + 0)) with 0.5 by lra.
  replace (0.5 * (1 - 0)) with 0.5 by lra.
  replace ((0 - 0.5) * PI / 0.5) with (- PI) by lra.
  replace ((1 - 0.5) * PI / 0.5) with PI by lra.
  rewrite cos_neg, cos_PI. f_equal; repeat f_equal; lra.
Qed.

Lemma hanning_product_grid3 (u0 u1 u2 v0 v1 v2 : C) :
  hanning_product grid3 [u0; u1; u2] [v0; v1; v2]
  = Ok (Cscale (Cmul u1 (Cconj v1)) (4 / 3)).
Proof.
  unfold hanning_product, grid3. cbn [chi tz T].
  rewrite bcast2_same_length by reflexivity. cbn [bind].
  rewrite bcast2_same_length by reflexivity. cbn [bind zip_with map].
  rewrite !simps_grid3. cbn [bind]. unfold Cscale, Cmul, Cconj; simpl.
  f_equal. f_equal; field.
Qed.

Lemma hanning_product_grid2 (u0 u1 v0 v1 : C) :
  hanning_product grid2 [u0; u1] [v0; v1] = Ok C0.
Proof.
  unfold hanning_product, grid2. cbn [chi tz T].
  rewrite bcast2_same_length by reflexivity. cbn [bind].
  rewrite bcast2_same_length by reflexivity. cbn [bind zip_with map].
  rewrite !simps_grid2. cbn [bind]. unfold Cscale, Cmul, Cconj, C0; simpl.
  f_equal. f_equal; lra.
Qed.

Lemma argmax_first (x : R) (l : list R) :
  (forall y, In y l -> y <= x) -> argmax (x :: l) = Ok 0%nat.
Proof.
  intros H. simpl. f_equal. generalize 1%nat.
  induction l as [|y l IH]; intros i; simpl; [reflexivity|].
  destruct (Rlt_dec x y) as [Hlt|_].
  - specialize (H y (or_introl eq_refl)). lra.
  - apply IH. intros z Hz. apply H. now right.
Qed.

Lemma argmin_first (x : R) (l : list R) :
  (forall y, In y l -> x <= y) -> argmin (x :: l) = Ok 0%nat.
Proof.
  intros H. simpl. f_equal. generalize 1%nat.
  induction l as [|y l IH]; intros i; simpl; [reflexivity|].
  destruct (Rlt_dec y x) as [Hlt|_].
  - specialize (H y (or_introl eq_refl)). lra.
  - apply IH. intros z Hz. apply H. now right.
Qed.

Lemma abs_scaled (c s x a : R) :
  0 < c -> 0 < s -> a = 1 \/ a = -1 ->
  Rabs (c * (x / s) * a) = c / s * Rabs x.
Proof.
  intros Hc Hs Ha.
  assert (Hk : 0 < c / s) by (apply Rdiv_lt_0_compat; assumption).
  replace (c * (x / s) * a) with (c / s * (x * a)) by (field; lra).
  rewrite Rabs_mult, (Rabs_pos_eq (c / s)) by lra. f_equal.
  destruct Ha as [-> | ->].
  - now rewrite Rmult_1_r.
  - replace (x * -1) with (- x) by ring. apply Rabs_Ropp.
Qed.

Ltac trig_bounds :=
  repeat match goal with
         | |- context [cos ?a] =>
             lazymatch goal with
             | H : -1 <= cos a <= 1 |- _ => fail
             | _ => pose proof (COS_bound a)
             end
         | |- context [sin ?a] =>
             lazymatch goal with
             | H : -1 <= sin a <= 1 |- _ => fail
             | _ => pose proof (SIN_bound a)
             end
         end.

Lemma peak_grid3 (b : R) :
  0 <= b -> peak grid3 (series_1b0 b) = Ok (Some 0).
Proof.
  intros Hb. unfold peak, series_1b0, fft, fftfreq, Csum.
  cbn [length seq map zip_with bind fold_left t grid3 getitem nth_error].
  set (s3 := sqrt (INR 3)). set (c := 1 / sqrt (INR 3 - 1)).
  assert (Hs3 : 0 < s3) by (apply sqrt_lt_R0; simpl; lra).
  assert (Hc : 0 < c).
  { unfold c. apply Rdiv_lt_0_compat; [lra|]. apply sqrt_lt_R0; simpl; lra. }
  assert (Hk : 0 < c / s3) by (apply Rdiv_lt_0_compat; assumption).
  unfold Cdivr, Cadd, Cmul, C0, C1, RtoC, Cexp_i, alt_sign. cbn [Re Im Nat.even].
  rewrite !abs_scaled by auto.
  replace (- (2 * PI * INR 0 * INR 0 / INR 3)) with 0 by (simpl; field).
  replace (- (2 * PI * INR 1 * INR 0 / INR 3)) with 0 by (simpl; field).
  rewrite cos_0, sin_0.
  rewrite argmax_first.
  2:{ intros y Hy.
      replace (Rmax _ _) with (c / s3 * (1 + b)).
      2:{ rewrite Rmax_left.
          - rewrite Rabs_pos_eq by lra. f_equal. ring.
          - replace (0 + (1 * 0 + 0 * 1) + (b * 0 + 0 * 1) + (0 * sin (- (2 * PI * INR 2 * INR 0 / INR 3)) + 0 * cos (- (2 * PI * INR 2 * INR 0 / INR 3)))) with 0 by ring.
            rewrite Rabs_R0, Rmult_0_r. apply Rmult_le_pos; [lra|apply Rabs_pos]. }
      simpl in Hy. destruct Hy as [<-|[<-|[]]];
        (apply Rmax_lub; apply Rmult_le_compat_l; [lra| |lra|];
         apply Rabs_le; trig_bounds; nra). }
  cbn [bind nth].
  destruct (Req_dec_T _ _) as [E|_].
  - exfalso. revert E.
    replace (0 + (1 * 1 - 0 * 0) + (b * 1 - 0 * 0) + (0 * cos (- (2 * PI * INR 2 * INR 0 / INR 3)) - 0 * sin (- (2 * PI * INR 2 * INR 0 / INR 3)))) with (1 + b) by ring.
    intros E. assert (0 < c * ((1 + b) / s3) * 1); [|lra].
    rewrite Rmult_1_r. apply Rmult_lt_0_compat; [lra|].
    apply Rdiv_lt_0_compat; lra.
  - f_equal. f_equal. simpl. field.
Qed.

Lemma peak_grid3_zeros : peak grid3 zeros3 = Ok None.
Proof.
  unfold peak, zeros3, fft, fftfreq, Csum.
  cbn [length seq map zip_with bind fold_left t grid3 getitem nth_error].
  unfold Cdivr, Cadd, Cmul, C0, alt_sign. cbn [Re Im Nat.even].
  assert (Z1 : forall c s a x0 y0 x1 y1 x2 y2,
             c * ((0 + (0 * x0 - 0 * y0) + (0 * x1 - 0 * y1) + (0 * x2 - 0 * y2)) / s) * a
             = 0) by (intros; unfold Rdiv; ring).
  assert (Z2 : forall c s a x0 y0 x1 y1 x2 y2,
             c * ((0 + (0 * x0 + 0 * y0) + (0 * x1 + 0 * y1) + (0 * x2 + 0 * y2)) / s) * a
             = 0) by (intros; unfold Rdiv; ring).
  rewrite !Z1, !Z2, Rabs_R0, Rmax_left by lra.
  rewrite argmax_first by (simpl; intros y [<-|[<-|[]]]; lra).
  cbn [bind nth]. destruct (Req_dec_T 0 0); [reflexivity|congruence].
Qed.

Lemma phi_w_grid3 (x0 x1 x2 y0 y1 y2 omin omax w : R) :
  phi_w grid3 [x0; x1; x2] [y0; y1; y2] omin omax w = Ok (- Rabs (4 / 3 * x1)).
Proof.
  unfold phi_w, grid3. cbn [tz chi T map].
  repeat (rewrite bcast2_same_length by reflexivity; cbn [bind zip_with]).
  rewrite simps_grid3. cbn [bind]. f_equal. f_equal. f_equal.
  rewrite Rmult_0_r, cos_0, sin_0. field.
Qed.

Lemma mapM_const {X Y : Type} (g : X -> result Y) (v : Y) (l : list X) :
  (forall a, g a = Ok v) -> mapM g l = Ok (map (fun _ => v) l).
Proof.
  intros Hg. induction l as [|a l IH]; simpl; [reflexivity|].
  now rewrite Hg, IH.
Qed.

(** on the three-sample grid the objective is flat: the warm start is the
    first grid point, or the midpoint when the objective vanishes *)
Lemma warm_start_grid3 (x0 x1 x2 y0 y1 y2 omin omax : R) :
  warm_start grid3 [x0; x1; x2] [y0; y1; y2] omin omax
  = Ok (if Rlt_dec (Rabs (4 / 3 * x1)) 1e-10 then 0.5 else 0).
Proof.
  unfold warm_start.
  rewrite (mapM_const _ (- Rabs (4 / 3 * x1))) by (intros; apply phi_w_grid3).
  cbn [bind]. unfold linspace_0_1_50.
  change (seq 0 50) with (0%nat :: seq 1 49). cbn [map].
  rewrite argmin_first.
  2:{ intros y Hy. apply in_map_iff in Hy. destruct Hy as (x & <- & _). lra. }
  cbn [bind nth].
  destruct (Rlt_dec (Rabs (4 / 3 * x1)) 1e-10) as [Hlt|Hge].
  - replace (forallb _ _) with true; [reflexivity|].
    symmetry. apply forallb_forall. intros v Hv.
    assert (v = - Rabs (4 / 3 * x1)) as ->.
    { destruct Hv as [<-|Hv]; [reflexivity|].
      apply in_map_iff in Hv. now destruct Hv as (x & <- & _). }
    unfold Rltb. rewrite Rabs_Ropp, Rabs_Rabsolu.
    destruct (Rlt_dec _ _); [reflexivity|contradiction].
  - cbn [forallb]. unfold Rltb at 1. rewrite Rabs_Ropp, Rabs_Rabsolu.
    destruct (Rlt_dec _ _); [contradiction|]. cbn [andb]. f_equal. simpl. lra.
Qed.

Lemma objective_grid3 (x0 x1 x2 y0 y1 y2 omin omax w : R) :
  objective grid3 [x0; x1; x2] [y0; y1; y2] omin omax w = - Rabs (4 / 3 * x1).
Proof. unfold objective. now rewrite phi_w_grid3. Qed.

(** [frequency] on the three-sample grid for the series [[1, b, 0]] *)
Lemma frequency_grid3 (slv : minimizer) (b : R) :
  1e-10 <= b ->
  let r := slv (objective grid3 [1; b; 0] [0; 0; 0] (0 - PI / 1) (0 + PI / 1))
               0 1e-9 (0, 1) 50%nat in
  out_imode r = 0%Z ->
  frequency slv grid3 (series_1b0 b) = Ok (out_x r * (2 * PI) - PI).
Proof.
  intros Hb r Hr. unfold frequency. rewrite peak_grid3 by lra. cbn [bind].
  rewrite refine_unfold. cbv zeta. unfold series_1b0. cbn [map Re Im C1 RtoC C0 grid3 T].
  rewrite warm_start_grid3. cbn [bind].
  destruct (Rlt_dec _ _) as [Hlt|_].
  - exfalso. rewrite Rabs_pos_eq in Hlt by lra. lra.
  - fold r. rewrite Hr. cbn [Z.eqb]. f_equal. unfold invtransform. field.
Qed.

Lemma frequency_grid3_zeros (slv : minimizer) : frequency slv grid3 zeros3 = Ok 0.
Proof. unfold frequency. now rewrite peak_grid3_zeros. Qed.

Lemma frecoder_body_grid3 (slv : minimizer) (u0 u1 u2 : C) (nu0 : R) :
  frequency slv grid3 [u0; u1; u2] = Ok nu0 ->
  exists fk' fmax,
    frecoder_body slv grid3 0 (frecoder_init grid3 [u0; u1; u2] 1)
    = Ok (mk_fstate [map (fun ti => Cexp_i (nu0 * ti)) [0; 1; 2]] [nu0]
                    [Cmod (ab_grid3 u1 nu0)]
                    [atan2 (Im (ab_grid3 u1 nu0)) (Re (ab_grid3 u1 nu0))] fk',
          fmax).
Proof.
  intros Hf. unfold frecoder_body, frecoder_init.
  cbn [fk ecap nu A phi Nat.eqb repeat list_set]. rewrite Hf. cbn [bind].
  cbn [t grid3 map]. rewrite hanning_product_grid3. cbn [bind].
  unfold sub_chi. rewrite bcast2_same_length by reflexivity.
  cbn [bind map zip_with amax]. eexists. eexists. reflexivity.
Qed.

Lemma frecoder_grid3_one (slv : minimizer) (u0 u1 u2 : C) (nu0 : R) (bc : option R) :
  frequency slv grid3 [u0; u1; u2] = Ok nu0 ->
  frecoder slv grid3 [u0; u1; u2] 1 bc
  = Ok ([- nu0], [Cmod (ab_grid3 u1 nu0)],
        [atan2 (Im (ab_grid3 u1 nu0)) (Re (ab_grid3 u1 nu0))]).
Proof.
  intros Hf. destruct (frecoder_body_grid3 slv u0 u1 u2 nu0 Hf) as (fk' & fmax & Hb).
  unfold frecoder. change (Z.to_nat 1) with 1%nat. cbn [Z.ltb Z.compare].
  cbn [frecoder_loop]. rewrite Hb. cbn [bind].
  destruct (break_test _ _ _); reflexivity.
Qed.

Lemma Cmod_ab_grid3 (b nu0 : R) : 0 <= b -> Cmod (ab_grid3 (RtoC b) nu0) = 4 / 3 * b.
Proof.
  intros Hb. unfold Cmod, ab_grid3, Cscale, Cmul, Cconj, Cexp_i, RtoC. cbn [Re Im].
  generalize (sin2_cos2 (nu0 * 1)). unfold Rsqr.
  set (c := cos (nu0 * 1)). set (s := sin (nu0 * 1)). intros H.
  replace ((b * c - 0 * - s) * (4 / 3) * ((b * c - 0 * - s) * (4 / 3))
           + (b * - s + 0 * c) * (4 / 3) * ((b * - s + 0 * c) * (4 / 3)))
    with ((4 / 3 * b) * (4 / 3 * b) * (s * s + c * c)) by field.
  rewrite H, Rmult_1_r. apply sqrt_square. lra.
Qed.

Lemma Cmod_ab_grid3_zero (nu0 : R) : Cmod (ab_grid3 C0 nu0) = 0.
Proof.
  generalize (Cmod_ab_grid3 0 nu0 (Rle_refl 0)). unfold RtoC. fold C0.
  intros ->. lra.
Qed.

Lemma Rltb_true (x y : R) : x < y -> Rltb x y = true.
Proof. intros H. unfold Rltb. destruct (Rlt_dec x y); [reflexivity|contradiction]. Qed.

Lemma Rleb_false (x y : R) : y < x -> Rleb x y = false.
Proof. intros H. unfold Rleb. destruct (Rle_dec x y); [lra|reflexivity]. Qed.

Lemma PI_gt_2 : 2 < PI.
Proof. generalize PI2_1. lra. Qed.

(** the table of a single series with one component *)
Lemma build_table_one (slv : minimizer) (self : NAFF) (f : list C) (bc : option R)
      (nu0 A0 p0 : R) :
  frecoder slv self f 1 bc = Ok ([nu0], [A0], [p0]) ->
  build_table slv self [f] 1 bc
  = Ok [mk_row (- nu0) (Cscale (Cexp_i p0) A0) A0 p0 0].
Proof.
  intros Hf. unfold build_table. cbn [mapM]. rewrite Hf. cbn [bind].
  reflexivity.
Qed.

Lemma select1_nonzero (r : row) :
  nonzero_freq r = true -> select_fundamentals 1 [r] = Ok ([freq r], [0%nat]).
Proof.
  intros H. unfold select_fundamentals, candidates1, where_ix.
  cbn [length seq combine filter fst]. rewrite H. reflexivity.
Qed.

(** a table of three records in descending order of amplitude stays as it is *)
Lemma sort3_descending (r0 r1 r2 : row) :
  absA r2 < absA r1 -> absA r1 < absA r0 ->
  take [r0; r1; r2] (rev (argsort_by Rleb (map absA [r0; r1; r2]))) = Ok [r0; r1; r2].
Proof.
  intros H21 H10. unfold argsort_by.
  cbn [map length seq combine fold_right insert_by fst].
  rewrite (Rleb_false (absA r1) (absA r2)) by assumption.
  cbn [insert_by fst].
  rewrite (Rleb_false (absA r0) (absA r2)) by lra.
  rewrite (Rleb_false (absA r0) (absA r1)) by assumption.
  reflexivity.
Qed.

Lemma where_ix_shift {X : Type} (p : X -> bool) (l : list X) (s : nat) :
  map snd (filter (fun x => p (fst x)) (combine l (seq (S s) (length l))))
  = map S (map snd (filter (fun x => p (fst x)) (combine l (seq s (length l))))).
Proof.
  revert s; induction l as [|a l IH]; intros s; simpl; [reflexivity|].
  destruct (p a); simpl; now rewrite IH.
Qed.

Lemma where_ix_cons {X : Type} (p : X -> bool) (a : X) (l : list X) :
  where_ix p (a :: l) = (if p a then [0%nat] else []) ++ map S (where_ix p l).
Proof.
  unfold where_ix. simpl. destruct (p a); simpl; now rewrite (where_ix_shift p l 0).
Qed.

Lemma where_ix_nil {X : Type} (p : X -> bool) : where_ix p [] = [].
Proof. reflexivity. Qed.

Lemma select3_sorted (r0 r1 r2 : row) :
  n r0 = 0%Z -> n r1 = 1%Z -> n r2 = 2%Z ->
  nonzero_freq r0 = true -> nonzero_freq r1 = true -> nonzero_freq r2 = true ->
  distinct_from (freq r0) r1 = true -> distinct_from (freq r0) r2 = true ->
  distinct_from (freq r1) r2 = true ->
  select_fundamentals 3 [r0; r1; r2]
  = Ok ([freq r0; freq r1; freq r2], [0; 1; 2]%nat).
Proof.
  intros E0 E1 E2 N0 N1 N2 D01 D02 D12.
  unfold select_fundamentals, candidates1, candidates2, candidates3.
  rewrite !where_ix_cons, where_ix_nil. rewrite N0.
  cbn [app getitem nth_error bind Nat.eqb].
  rewrite !where_ix_cons, where_ix_nil. unfold other_dim at 1 2 3.
  rewrite N0, N1, D01, E0, E1.
  cbn [Z.eqb Pos.eqb negb andb app map getitem nth_error bind].
  rewrite !where_ix_cons, where_ix_nil. unfold other_dim.
  rewrite N0, N1, N2, D01, D02, D12, E0, E1, E2.
  cbn [Z.eqb Pos.eqb negb andb app map getitem nth_error bind].
  cbn [repeat list_set]. rewrite E2.
  reflexivity.
Qed.

Lemma frequency_start_110 : frequency slsqp_start grid3 (series_1b0 1) = Ok (- PI).
Proof.
  rewrite frequency_grid3; [|lra|reflexivity]. f_equal.
  unfold slsqp_start; cbn [out_x]. ring.
Qed.

Lemma frequency_level (b : R) :
  1e-10 <= b ->
  frequency slsqp_level grid3 (series_1b0 b) = Ok (4 / 3 * b * (2 * PI) - PI).
Proof.
  intros Hb. rewrite frequency_grid3; [|lra|reflexivity]. f_equal.
  unfold slsqp_level; cbn [out_x].
  rewrite objective_grid3, Rabs_pos_eq by lra. ring.
Qed.

Lemma frecoder_series_1b0 (slv : minimizer) (b nu0 : R) (bc : option R) :
  frequency slv grid3 (series_1b0 b) = Ok nu0 ->
  frecoder slv grid3 (series_1b0 b) 1 bc
  = Ok ([- nu0], [absA (row_grid3 0 b nu0)], [rphi (row_grid3 0 b nu0)]).
Proof. intros H. exact (frecoder_grid3_one slv C1 (RtoC b) C0 nu0 bc H). Qed.

Lemma build_table_series_1b0 (slv : minimizer) (b nu0 : R) (bc : option R) :
  frequency slv grid3 (series_1b0 b) = Ok nu0 ->
  build_table slv grid3 [series_1b0 b] 1 bc = Ok [row_grid3 0 b nu0].
Proof.
  intros H. now rewrite (build_table_one _ _ _ _ _ _ _ (frecoder_series_1b0 slv b nu0 bc H)).
Qed.

Lemma nonzero_freq_row (i : nat) (b nu0 : R) :
  1e-5 < Rabs nu0 -> nonzero_freq (row_grid3 i b nu0) = true.
Proof.
  intros H. unfold nonzero_freq, row_grid3. cbn [freq].
  rewrite Ropp_involutive. now apply Rltb_true.
Qed.

Lemma fff_start_110 :
  find_fundamental_frequencies slsqp_start grid3 [series_1b0 1] 1 15 (Some 1e-7)
  = Ok ([- PI], [row_grid3 0 1 (- PI)], [0%nat]).
Proof.
  unfold find_fundamental_frequencies.
  rewrite (build_table_series_1b0 _ _ _ _ frequency_start_110). cbn [bind length].
  rewrite select1_nonzero.
  - cbn [bind]. unfold row_grid3; cbn [freq]. now rewrite Ropp_involutive.
  - apply nonzero_freq_row. rewrite Rabs_Ropp, Rabs_pos_eq; generalize PI_gt_2; lra.
Qed.

Lemma absA_row_grid3 (i : nat) (b nu0 : R) :
  0 <= b -> absA (row_grid3 i b nu0) = 4 / 3 * b.
Proof. intros Hb. unfold row_grid3; cbn [absA]. now apply Cmod_ab_grid3. Qed.

Ltac abs_cases :=
  generalize PI_gt_2; intros;
  unfold Rabs; repeat destruct (Rcase_abs _); lra.

Lemma fff_level_three :
  build_table slsqp_level grid3 three_series 1 (Some 1e-7) = Ok level_rows /\
  find_fundamental_frequencies slsqp_level grid3 three_series 1 15 (Some 1e-7)
  = Ok (map freq level_rows, level_rows, [0; 1; 2]%nat).
Proof.
  set (rows := level_rows).
  assert (Ht : build_table slsqp_level grid3 three_series 1 (Some 1e-7) = Ok rows).
  { unfold build_table, three_series. cbn [mapM].
    rewrite (frecoder_series_1b0 _ _ _ _ (frequency_level (3 / 4) ltac:(lra))).
    rewrite (frecoder_series_1b0 _ _ _ _ (frequency_level (3 / 16) ltac:(lra))).
    rewrite (frecoder_series_1b0 _ _ _ _ (frequency_level (3 / 32) ltac:(lra))).
    cbn [bind length seq zip_with concat app dim_rows combine fst snd].
    apply sort3_descending; cbn [absA]; rewrite !absA_row_grid3 by lra; lra. }
  split; [exact Ht|].
  unfold find_fundamental_frequencies. rewrite Ht. cbn [bind].
  change (length three_series) with 3%nat. unfold rows, level_rows.
  rewrite select3_sorted; try reflexivity;
    try (apply nonzero_freq_row; abs_cases);
    unfold distinct_from, row_grid3; cbn [freq]; rewrite !Ropp_involutive;
    apply Rltb_true; abs_cases.
Qed.

Lemma frequency_failing_110 :
  frequency slsqp_failing grid3 (series_1b0 1)
  = Raise (MinimizationError 8 "Positive directional derivative for linesearch").
Proof.
  unfold frequency. rewrite peak_grid3 by lra. cbn [bind].
  rewrite refine_unfold. cbv zeta. unfold series_1b0. cbn [map Re Im C1 RtoC C0].
  rewrite warm_start_grid3. reflexivity.
Qed.

(** ** Counterexamples to the claims as stated *)

(** C1 as stated fails: on the grid [[0, 1, 2]] and the series [[1, 1, 0]]
    the search frequency of step 0 is [-PI]; [frecoder] records [PI], its
    negative; the table of [find_fundamental_frequencies] holds [-PI]
    again, which is not the negative of the search frequency. *)
Lemma table_freq_counterexample :
  search_freq slsqp_start grid3 (frecoder_init grid3 (series_1b0 1) 1) 0 = Ok (- PI) /\
  (exists As phis,
      frecoder slsqp_start grid3 (series_1b0 1) 1 (Some 1e-7) = Ok ([- - PI], As, phis)) /\
  (exists r,
      find_fundamental_frequencies slsqp_start grid3 [series_1b0 1] 1 15 (Some 1e-7)
      = Ok ([- PI], [r], [0%nat]) /\
      freq r = - PI /\ freq r <> - - PI).
Proof.
  split; [exact frequency_start_110|]. split.
  - eexists. eexists. apply frecoder_series_1b0. exact frequency_start_110.
  - exists (row_grid3 0 1 (- PI)). split; [exact fff_start_110|].
    unfold row_grid3; cbn [freq]. rewrite !Ropp_involutive.
    split; [reflexivity|]. generalize PI_gt_2. lra.
Qed.

(** C2 as stated fails: on the grid [[0, 1, 2]] the vector stored at step 0
    is the exponential as it is, and its weighted self inner product is
    [4/3], not 1. *)
Lemma first_basis_vector_counterexample :
  NAFF_init [0; 1; 2] = Ok grid3 /\
  exists st' fmax,
    frecoder_body slsqp_start grid3 0 (frecoder_init grid3 (series_1b0 1) 1)
    = Ok (st', fmax) /\
    nth 0 (ecap st') [] = map (fun ti => Cexp_i (- PI * ti)) [0; 1; 2] /\
    hanning_product grid3 (nth 0 (ecap st') []) (nth 0 (ecap st') [])
    = Ok (mkC (4 / 3) 0).
Proof.
  split; [exact NAFF_init_grid3|].
  destruct (frecoder_body_grid3 slsqp_start C1 (RtoC 1) C0 (- PI) frequency_start_110)
    as (fk' & fmax & Hb).
  eexists. exists fmax. split; [exact Hb|]. cbn [ecap nth]. split; [reflexivity|].
  cbn [map]. rewrite hanning_product_grid3. f_equal.
  unfold Cscale, Cmul, Cconj, Cexp_i; cbn [Re Im].
  generalize (sin2_cos2 (- PI * 1)). unfold Rsqr. intros H. f_equal.
  - replace (cos (- PI * 1) * cos (- PI * 1) - sin (- PI * 1) * - sin (- PI * 1))
      with (sin (- PI * 1) * sin (- PI * 1) + cos (- PI * 1) * cos (- PI * 1)) by ring.
    rewrite H. lra.
  - ring.
Qed.

(** C6 as stated fails: the constructor accepts the even-length array
    [[0, 1, 2, 3]] as it is, and the weighted inner product on it is
    evaluated by the quadrature. *)
Lemma even_grid_counterexample :
  exists self,
    NAFF_init times4 = Ok self /\ t self = times4 /\
    Nat.even (length (t self)) = true /\
    length (tz self) = 4%nat /\ length (chi self) = 4%nat /\
    exists p, hanning_product self (repeat C1 4) (repeat C1 4) = Ok p.
Proof.
  unfold NAFF_init, times4. cbn [getlast getitem length Nat.sub nth_error bind].
  eexists. split; [reflexivity|]. cbn [t tz chi map length Nat.even].
  repeat split. apply hanning_product_ok; cbn [tz chi map length repeat];
    try reflexivity. discriminate.
Qed.

(** ** The theorems at concrete inputs *)

(** the table of the run on the grid [[0, 1, 2]] and the series [[1, 1, 0]] *)
Lemma table_holds_search_frequencies_witness :
  exists i f nus As phis j,
    nth_error [series_1b0 1] i = Some f /\
    n (row_grid3 0 1 (- PI)) = Z.of_nat i /\
    frecoder slsqp_start grid3 f 1 (Some 1e-7) = Ok (nus, As, phis) /\
    nth_error nus j = Some (- freq (row_grid3 0 1 (- PI))) /\
    search_freq slsqp_start grid3 (frecoder_init grid3 f (Z.to_nat 1)) j
    = Ok (freq (row_grid3 0 1 (- PI))).
Proof.
  destruct (table_holds_search_frequencies slsqp_start grid3 [series_1b0 1] 1
              (Some 1e-7) [row_grid3 0 1 (- PI)]
              (build_table_series_1b0 _ _ _ _ frequency_start_110))
    as (per_dim & _ & _ & Hall).
  exact (Hall _ (or_introl eq_refl)).
Defined.

(** step 0 of the same run *)
Lemma first_basis_vector_raw_witness :
  let e0 := map (fun ti => Cexp_i (- PI * ti)) (t grid3) in
  frequency slsqp_start grid3 (series_1b0 1) = Ok (- PI) /\
  hanning_product grid3 e0 e0
  = rmap (fun s => mkC (s / (2 * T grid3)) 0) (simps (chi grid3) (tz grid3)).
Proof.
  destruct (frecoder_body_grid3 slsqp_start C1 (RtoC 1) C0 (- PI) frequency_start_110)
    as (fk' & fmax & Hb).
  destruct (first_basis_vector_raw slsqp_start grid3 (series_1b0 1) 0 _ _ Hb)
    as (Hf & _ & Hp).
  split; [exact Hf | exact (Hp eq_refl)].
Defined.

(** a minimizer that fails twice makes [frequency] raise with its status *)
Lemma frequency_raises_iff_witness :
  exists omega0 init_w : R,
    let omin := omega0 - PI / T grid3 in
    let omax := omega0 + PI / T grid3 in
    let obj := objective grid3 (map Re (series_1b0 1)) (map Im (series_1b0 1)) omin omax in
    let r1 := slsqp_failing obj init_w 1e-9 (0, 1) 50%nat in
    let r2 := slsqp_failing obj 0.5 1e-9 (0, 1) 100%nat in
    peak grid3 (series_1b0 1) = Ok (Some omega0) /\
    warm_start grid3 (map Re (series_1b0 1)) (map Im (series_1b0 1)) omin omax
    = Ok init_w /\
    out_imode r1 <> 0%Z /\ out_imode r2 <> 0%Z /\
    8%Z = out_imode r2 /\
    "Positive directional derivative for linesearch"%string = out_smode r2.
Proof.
  exact (proj1 (proj1 (frequency_raises_iff slsqp_failing grid3 (series_1b0 1)) _ _)
               frequency_failing_110).
Defined.

(** a threshold above the first amplitude stops the run after one step *)
Lemma frecoder_stops_witness :
  frecoder slsqp_start grid3 (series_1b0 1) 1 (Some 2)
  = Ok ([- - PI], [absA (row_grid3 0 1 (- PI))], [rphi (row_grid3 0 1 (- PI))]) /\
  (1 <= length [- - PI])%nat /\ (Z.of_nat (length [(- - PI)%R]) <= 1)%Z.
Proof.
  destruct (frecoder_body_grid3 slsqp_start C1 (RtoC 1) C0 (- PI) frequency_start_110)
    as (fk' & fmax & Hb).
  destruct (frecoder_stops slsqp_start grid3 (series_1b0 1) 1 2) as (H1 & _ & H2).
  assert (HA : fmax < 2 \/ Cmod (ab_grid3 (RtoC 1) (- PI)) < 2)
    by (right; rewrite Cmod_ab_grid3; lra).
  assert (Hf := H2 ltac:(lia) _ _ Hb HA).
  split; [exact Hf|].
  destruct (H1 _ _ _ Hf) as (Ha & Hb' & _). split; assumption.
Defined.

(** a run with three series returning one fundamental per dimension *)
Lemma fundamentals_cover_xyz_witness :
  build_table slsqp_level grid3 three_series 1 (Some 1e-7) = Ok level_rows /\
  length (map freq level_rows) = 3%nat /\ length [0; 1; 2]%nat = 3%nat /\
  forall i, (i < 3)%nat ->
            exists r, getitem level_rows (nth i [0; 1; 2]%nat 0%nat) = Ok r /\
                      n r = Z.of_nat i /\
                      nth i (map freq level_rows) 0 = freq r /\ nonzero_freq r = true.
Proof.
  exact (proj1 (fundamentals_cover_xyz slsqp_level grid3 three_series 1 15 (Some 1e-7)
                                       eq_refl)
               _ _ _ (proj2 fff_level_three)).
Defined.

(** the empty array and an array of four times *)
Lemma NAFF_init_any_length_witness :
  NAFF_init [] = Raise IndexError /\
  exists self,
    NAFF_init times4 = Ok self /\ t self = times4 /\
    length (tz self) = length times4 /\ length (chi self) = length times4 /\
    exists p, hanning_product self (repeat C1 4) (repeat C1 4) = Ok p.
Proof.
  split; [exact (proj1 (NAFF_init_any_length []) eq_refl)|].
  destruct (proj2 (NAFF_init_any_length times4) ltac:(discriminate))
    as (self & H1 & H2 & H3 & H4 & H5).
  exists self. repeat split; auto.
Defined.

(** on the two-sample grid the window vanishes at both samples, so every
    residual has norm zero *)
Lemma gso_zero_norm_witness :
  recip (Csqrt C0) = NonFinite /\
  (exists e0 e1 : C,
      map (fun z => times z (recip (Csqrt C0))) [e0; e1] = [NonFinite; NonFinite]) /\
  gso_ieee grid2 [[C1; C1]] 1 1 = Ok [Finite C0; Finite C0] /\
  gso grid2 [[C1; C1]] 1 1 = Ok [C0; C0].
Proof.
  assert (H : exists e0 e1, gso_residual grid2 [[C1; C1]] 1 1 = Ok [e0; e1]).
  { unfold gso_residual. cbn [seq mapM getitem nth_error bind t grid2 map].
    rewrite hanning_product_grid2. cbn [bind firstn zip_with ncols length colsum].
    rewrite bcast2_same_length by reflexivity. eexists. eexists. reflexivity. }
  destruct H as (e0 & e1 & H).
  destruct (gso_zero_norm grid2 [[C1; C1]] 1 1 [e0; e1] H
              (hanning_product_grid2 _ _ _ _)) as (H1 & H2 & H3 & H4).
  split; [exact H1|]. split; [exists e0, e1; exact H2|]. split; [exact H3|exact H4].
Defined.

(** the frequency [1 = 2 * 3 - 5] over the fundamentals [[3, 5]] *)
Lemma find_integer_vectors_minimal_witness :
  exists v,
    find_integer_vectors [3; 5] [mk_row 1 C0 0 0 0] 2 = Ok [v] /\
    length v = 2%nat /\ Rabs (1 - dot v [3; 5]) = 0.
Proof.
  destruct (find_integer_vectors_minimal [3; 5] [mk_row 1 C0 0 0 0] 2)
    as (rows & Hr & Hall); [simpl; lia | lia |].
  inversion Hall as [|r v d' rows' Hv Hrest]; subst.
  inversion Hrest; subst.
  destruct Hv as (Hlen & _ & _ & Hzero).
  exists v. split; [exact Hr|]. split; [exact Hlen|].
  apply (Hzero [2; -1]%Z); [reflexivity | repeat constructor; lia |].
  unfold dot, Rsum. simpl. lra.
Defined.


(** * Further properties of the code *)

(** ** The constructor *)

Lemma hanning_range (x : R) : 0 <= hanning x <= 2.
Proof. unfold hanning. generalize (COS_bound x). lra. Qed.

(** X1.  A constructed object keeps the time array, has [tz] and [chi] of
    its length, and centres the grid ([tz[0] = -T], [tz[-1] = T]); when the
    grid has a nonzero span ([T <> 0]) the window weights lie between 0 and
    2 and vanish at both ends. *)
Theorem NAFF_init_centered (t0 : list R) (self : NAFF) :
  NAFF_init t0 = Ok self ->
  t self = t0 /\ aligned self (length t0) /\
  nth 0 (tz self) 0 = - T self /\
  nth (length t0 - 1) (tz self) 0 = T self /\
  (T self <> 0 ->
   Forall (fun c => 0 <= c <= 2) (chi self) /\
   nth 0 (chi self) 0 = 0 /\ nth (length t0 - 1) (chi self) 0 = 0).
Proof.
  unfold NAFF_init. destruct t0 as [|a l]; [discriminate|].
  unfold getlast. unfold getitem at 1.
  destruct (nth_error (a :: l) (length (a :: l) - 1)) as [tl|] eqn:E;
    [|apply nth_error_None in E; simpl in E; lia].
  cbn [bind getitem nth_error]. intros [= <-]. cbn [t tz chi T].
  set (ts0 := 0.5 * (tl + a)). set (T0 := 0.5 * (tl - a)).
  assert (Etz : nth (length (a :: l) - 1) (map (fun ti => ti - ts0) (a :: l)) 0
                = tl - ts0)
    by (exact (nth_map_nth_error (fun ti => ti - ts0) _ _ _ E)).
  split; [reflexivity|]. split.
  { unfold aligned. cbn [t tz chi]. repeat split; simpl; now rewrite ?length_map. }
  split; [cbn [map nth]; unfold ts0, T0; lra|].
  split; [transitivity (tl - ts0); [exact Etz | unfold ts0, T0; lra]|].
  intros HT. split.
  { apply Forall_forall. intros c Hc.
    change (In c (map (fun x => hanning (x * PI / T0))
                      (map (fun ti => ti - ts0) (a :: l)))) in Hc.
    apply in_map_iff in Hc. destruct Hc as (x & <- & _). apply hanning_range. }
  assert (Ea : (a - ts0) * PI / T0 = - PI).
  { replace (a - ts0) with (- T0) by (unfold ts0, T0; lra). now field. }
  assert (El : (tl - ts0) * PI / T0 = PI).
  { replace (tl - ts0) with T0 by (unfold ts0, T0; lra). now field. }
  split.
  - cbn [map nth]. rewrite Ea. unfold hanning. rewrite cos_neg, cos_PI. lra.
  - assert (Hc : nth (length (a :: l) - 1)
                      (map (fun x => hanning (x * PI / T0))
                           (map (fun ti => ti - ts0) (a :: l))) 0
                  = hanning ((tl - ts0) * PI / T0)).
    { rewrite map_map.
      exact (nth_map_nth_error (fun x => hanning ((x - ts0) * PI / T0)) _ _ _ E). }
    transitivity (hanning ((tl - ts0) * PI / T0)); [exact Hc|].
    rewrite El. unfold hanning. rewrite cos_PI. lra.
Qed.

(** the three-sample object *)
Lemma NAFF_init_centered_witness :
  t grid3 = [0; 1; 2] /\ aligned grid3 (length [0; 1; 2]) /\
  nth 0 (tz grid3) 0 = - T grid3 /\
  nth (length [0; 1; 2] - 1) (tz grid3) 0 = T grid3 /\
  Forall (fun c => 0 <= c <= 2) (chi grid3) /\
  nth 0 (chi grid3) 0 = 0 /\ nth (length [0; 1; 2] - 1) (chi grid3) 0 = 0.
Proof.
  destruct (NAFF_init_centered [0; 1; 2] grid3 NAFF_init_grid3)
    as (H1 & H2 & H3 & H4 & H5).
  repeat split; try assumption; try apply H2; apply H5; simpl; lra.
Defined.

(** ** The search window *)

(** X2.  [transform] and [invtransform] are inverse to each other on a
    window of nonzero width. *)
Theorem transform_round_trip (omin omax x : R) :
  omin <> omax ->
  invtransform omin omax (transform omin omax x) = x /\
  transform omin omax (invtransform omin omax x) = x.
Proof.
  intros H. unfold transform, invtransform. split; field; lra.
Qed.

Lemma transform_round_trip_witness :
  invtransform (- PI) PI (transform (- PI) PI 1) = 1 /\
  transform (- PI) PI (invtransform (- PI) PI 1) = 1.
Proof.
  apply (transform_round_trip (- PI) PI 1). generalize PI_gt_2. lra.
Defined.

(** ** The inner product of a series with itself *)

Lemma bcast2_Forall {X Y Z : Type} (P : X -> Prop) (Q : Z -> Prop)
      (g : X -> Y -> Z) (u : list X) (v : list Y) (l : list Z) :
  (forall a b, P a -> Q (g a b)) ->
  Forall P u -> bcast2 g u v = Ok l -> Forall Q l.
Proof.
  intros Hg Hu. unfold bcast2.
  assert (Hzip : forall u' v', Forall P u' -> Forall Q (zip_with g u' v')).
  { induction u' as [|a u' IH]; intros [|b v'] Hu'; simpl; constructor;
      inversion Hu'; subst; auto. }
  destruct (Nat.eqb _ _).
  - intros [= <-]. now apply Hzip.
  - assert (Hl : forall a, P a -> Forall Q (map (g a) v)).
    { intros a Ha. apply Forall_forall. intros z Hz.
      apply in_map_iff in Hz. destruct Hz as (x & <- & _). now apply Hg. }
    assert (Hr : forall b, Forall Q (map (fun a => g a b) u)).
    { intros b. apply Forall_forall. intros z Hz.
      apply in_map_iff in Hz. destruct Hz as (x & <- & Hx). cbv beta. apply Hg.
      eapply (proj1 (Forall_forall P u)); eauto. }
    destruct u as [|a [|a' u]].
    + destruct v as [|b [|b' v]]; try discriminate. intros [= <-]. exact (Hr b).
    + intros [= <-]. apply Hl. now inversion Hu.
    + destruct v as [|b [|b' v]]; try discriminate. intros [= <-]. exact (Hr b).
Qed.

Lemma bcast2_self_Forall {X Z : Type} (Q : Z -> Prop) (g : X -> X -> Z)
      (u : list X) (l : list Z) :
  (forall a, Q (g a a)) -> bcast2 g u u = Ok l -> Forall Q l.
Proof.
  intros Hg. rewrite bcast2_same_length by reflexivity. intros [= <-].
  induction u; simpl; constructor; auto.
Qed.

Lemma Forall_zero_map {X : Type} (g : X -> R) (l : list X) :
  Forall (fun z => g z = 0) l -> map g l = map (fun _ => 0) l.
Proof.
  induction 1 as [|a l Ha _ IH]; simpl; [reflexivity|]. now rewrite Ha, IH.
Qed.

Lemma hanning_product_self_im (self : NAFF) (u : list C) (p : C) :
  hanning_product self u u = Ok p -> Im p = 0.
Proof.
  unfold hanning_product. intros H.
  destruct (bcast2 (fun a b => Cmul a (Cconj b)) u u) as [uu|] eqn:Euu;
    cbn [bind] in H; [|discriminate].
  assert (Huu : Forall (fun z => Im z = 0) uu).
  { eapply (bcast2_self_Forall _ _ u uu); [|exact Euu].
    intros [x y]. unfold Cmul, Cconj; simpl. ring. }
  destruct (bcast2 Cscale uu (chi self)) as [integ|] eqn:Ei; cbn [bind] in H;
    [|discriminate].
  assert (Hi : Forall (fun z => Im z = 0) integ).
  { eapply (bcast2_Forall _ _ Cscale uu (chi self)); [|exact Huu|exact Ei].
    intros a b Ha. unfold Cscale; simpl. rewrite Ha. ring. }
  rewrite (Forall_zero_map Im integ Hi) in H.
  destruct (simps (map Re integ) (tz self)) as [sr|]; cbn [bind] in H; [|discriminate].
  destruct (simps (map (fun _ => 0) integ) (tz self)) as [si|] eqn:Es;
    cbn [bind] in H; [|discriminate].
  apply simps_zeros in Es. subst si. inversion H; subst p. simpl.
  unfold Rdiv. ring.
Qed.

Lemma proper_grid3 : proper_grid grid3.
Proof.
  split; [simpl; lra|]. unfold grid3; cbn [tz].
  repeat constructor; lra.
Qed.

(** X3.  On a grid of strictly increasing times, the weighted inner product
    of a series with itself has no imaginary part. *)
Theorem hanning_product_self_real (self : NAFF) (u : list C) (p : C) :
  proper_grid self ->
  hanning_product self u u = Ok p -> Im p = 0.
Proof. intros _. apply hanning_product_self_im. Qed.

Lemma hanning_product_self_real_witness :
  Im (Cscale (Cmul (mkC 1 2) (Cconj (mkC 1 2))) (4 / 3)) = 0.
Proof.
  exact (hanning_product_self_real grid3 [C0; mkC 1 2; C0] _ proper_grid3
           (hanning_product_grid3 _ _ _ _ _ _)).
Defined.

(** ** The search window of [frequency] *)

Lemma linspace_range (i : nat) : 0 <= nth i linspace_0_1_50 0 <= 1.
Proof.
  unfold linspace_0_1_50.
  destruct (Nat.lt_ge_cases i 50) as [Hi|Hi].
  - rewrite (nth_map_nth_error (fun j => INR j / 49) (seq 0 50) i i).
    2:{ rewrite nth_error_nth' with (d := 0%nat) by (now rewrite length_seq).
        now rewrite seq_nth. }
    rewrite INR_IZR_INZ.
    assert (H0 : IZR 0 <= IZR (Z.of_nat i)) by (apply IZR_le; lia).
    assert (H1 : IZR (Z.of_nat i) <= IZR 49) by (apply IZR_le; lia).
    lra.
  - rewrite nth_overflow; [lra|]. now rewrite length_map, length_seq.
Qed.

Lemma warm_start_range (self : NAFF) (xf yf : list R) (omin omax w : R) :
  warm_start self xf yf omin omax = Ok w -> 0 <= w <= 1.
Proof.
  unfold warm_start. intros H.
  destruct (mapM _ _) as [vals|]; cbn [bind] in H; [|discriminate].
  destruct (argmin vals) as [ix|]; cbn [bind] in H; [|discriminate].
  destruct (forallb _ _); inversion H; subst w; [lra|apply linspace_range].
Qed.

Section Window.

Variable fmin_slsqp : minimizer.

(** the minimizer keeps inside the bounds [(0, 1)] when started inside *)
Hypothesis within_bounds :
  forall func x0 acc iter,
    0 <= x0 <= 1 -> 0 <= out_x (fmin_slsqp func x0 acc (0, 1) iter) <= 1.

(** X4.  With a minimizer that respects its bounds, the refined frequency
    lies within [pi / T] of the FFT peak [omega0]; without a peak the
    result is 0. *)
Theorem frequency_in_window (self : NAFF) (f : list C) (p : option R) (w : R) :
  0 < T self ->
  peak self f = Ok p ->
  frequency fmin_slsqp self f = Ok w ->
  match p with
  | None => w = 0
  | Some omega0 => omega0 - PI / T self <= w <= omega0 + PI / T self
  end.
Proof.
  intros HT Hp. unfold frequency. rewrite Hp. cbn [bind].
  destruct p as [omega0|]; [|now intros [= <-]].
  rewrite refine_unfold. cbv zeta.
  destruct (warm_start _ _ _ _ _) as [iw|] eqn:Ew; cbn [bind]; [|discriminate].
  apply warm_start_range in Ew.
  assert (Hd : 0 < PI / T self) by (apply Rdiv_lt_0_compat; [apply PI_RGT_0|exact HT]).
  assert (Hinv : forall y, 0 <= y <= 1 ->
            omega0 - PI / T self
            <= invtransform (omega0 - PI / T self) (omega0 + PI / T self) y
            <= omega0 + PI / T self).
  { intros y Hy. unfold invtransform. set (d := PI / T self) in *. nra. }
  destruct (Z.eqb _ 0).
  - intros [= <-]. apply Hinv, within_bounds, Ew.
  - destruct (Z.eqb _ 0); [|discriminate].
    intros [= <-]. apply Hinv, within_bounds. lra.
Qed.

End Window.

Lemma frequency_in_window_witness :
  0 - PI / T grid3 <= - PI <= 0 + PI / T grid3.
Proof.
  exact (frequency_in_window slsqp_start (fun _ _ _ _ H => H)
           grid3 (series_1b0 1) (Some 0) (- PI)
           ltac:(simpl; lra) (peak_grid3 1 ltac:(lra)) frequency_start_110).
Defined.

(** ** Amplitudes and phases *)

Lemma Cmod_nonneg (a : C) : 0 <= Cmod a.
Proof. unfold Cmod. apply sqrt_pos. Qed.

Lemma atan_pos (x : R) : 0 < x -> 0 < atan x.
Proof. intros H. rewrite <- atan_0. now apply atan_increasing. Qed.

Lemma atan_nonpos (x : R) : x <= 0 -> atan x <= 0.
Proof.
  intros [H| ->]; [|rewrite atan_0; lra].
  left. rewrite <- atan_0. now apply atan_increasing.
Qed.

Lemma atan2_range (y x : R) : - PI < atan2 y x <= PI.
Proof.
  unfold atan2. pose proof PI_RGT_0 as HPI.
  pose proof (atan_bound (y / x)) as [Hl Hu].
  destruct (Rlt_dec 0 x) as [Hx|Hx]; [lra|].
  destruct (Rlt_dec x 0) as [Hx'|Hx'].
  - destruct (Rlt_dec y 0) as [Hy|Hy].
    + assert (0 < atan (y / x)); [|lra].
      apply atan_pos. unfold Rdiv.
      replace (y * / x) with ((- y) * / (- x)) by (field; lra).
      apply Rmult_lt_0_compat; [lra|]. apply Rinv_0_lt_compat. lra.
    + assert (atan (y / x) <= 0); [|lra].
      apply atan_nonpos. unfold Rdiv.
      replace (y * / x) with (- (y * / (- x))) by (field; lra).
      assert (0 <= y * / - x); [|lra].
      apply Rmult_le_pos; [lra|]. left. apply Rinv_0_lt_compat. lra.
  - destruct (Rlt_dec 0 y); [lra|]. destruct (Rlt_dec y 0); lra.
Qed.

Lemma Forall_list_set {X : Type} (P : X -> Prop) (k : nat) (v : X) (l : list X) :
  P v -> Forall P l -> Forall P (list_set k v l).
Proof.
  intros Hv Hl. revert k. induction Hl as [|a l Ha Hl IH]; intros [|k]; simpl;
    constructor; auto.
Qed.

Lemma Forall_firstn_keep {X : Type} (P : X -> Prop) (n : nat) (l : list X) :
  Forall P l -> Forall P (firstn n l).
Proof.
  intros Hl. revert n. induction Hl as [|a l Ha Hl IH]; intros [|n]; simpl;
    constructor; auto.
Qed.

Lemma Forall_repeat_intro {X : Type} (P : X -> Prop) (v : X) (n : nat) :
  P v -> Forall P (repeat v n).
Proof. intros Hv. induction n; simpl; constructor; auto. Qed.

Lemma amax_ge_head (x : R) (l : list R) (m : R) :
  amax (x :: l) = Ok m -> x <= m.
Proof.
  simpl. intros [= <-]. revert x. induction l as [|y l IH]; intros x; simpl.
  - lra.
  - eapply Rle_trans; [apply (Rmax_l x y)|apply IH].
Qed.

Lemma sub_chi_fmax (f e : list C) (a : C) (f' : list C) (fmax : R) :
  sub_chi f e a = Ok (f', fmax) -> 0 <= fmax.
Proof.
  unfold sub_chi. intros H.
  destruct (bcast2 _ _ _) as [fk'|]; cbn [bind] in H; [|discriminate].
  destruct fk' as [|z fk']; [discriminate|].
  destruct (amax _) as [m|] eqn:Em; cbn [bind] in H; [|discriminate].
  inversion H; subst. apply amax_ge_head in Em.
  pose proof (Cmod_nonneg z). lra.
Qed.

Section FrecoderRanges.

Variable fmin_slsqp : minimizer.
Variable self : NAFF.

Lemma frecoder_body_fmax (k : nat) (st st' : fstate) (fmax : R) :
  frecoder_body fmin_slsqp self k st = Ok (st', fmax) -> 0 <= fmax.
Proof.
  unfold frecoder_body. intros H.
  destruct (frequency _ _ _) as [nuk|]; cbn [bind] in H; [|discriminate].
  destruct (if Nat.eqb k 0 then _ else _) as [rw|]; cbn [bind] in H; [|discriminate].
  destruct (hanning_product _ _ _) as [ab|]; cbn [bind] in H; [|discriminate].
  destruct (sub_chi _ _ _) as [[fk' fm]|] eqn:Es; cbn [bind] in H; [|discriminate].
  inversion H; subst. eapply sub_chi_fmax; eauto.
Qed.

Lemma frecoder_body_ranges (k : nat) (st st' : fstate) (fmax : R) :
  frecoder_body fmin_slsqp self k st = Ok (st', fmax) ->
  Forall (fun a => 0 <= a) (A st) ->
  Forall (fun p => - PI < p <= PI) (phi st) ->
  Forall (fun a => 0 <= a) (A st') /\ Forall (fun p => - PI < p <= PI) (phi st').
Proof.
  intros H HA Hp.
  destruct (frecoder_body_inv _ _ _ _ _ _ H) as (nuk & ab & _ & _ & EA & Ep).
  rewrite EA, Ep. split; apply Forall_list_set; auto.
  - apply Cmod_nonneg.
  - apply atan2_range.
Qed.

Lemma run_iters_ranges (c : nat) :
  forall (st : fstate) (k : nat) (st' : fstate) (fmax : R),
    run_iters fmin_slsqp self st k c = Ok (st', fmax) ->
    Forall (fun a => 0 <= a) (A st) ->
    Forall (fun p => - PI < p <= PI) (phi st) ->
    0 <= fmax /\
    Forall (fun a => 0 <= a) (A st') /\ Forall (fun p => - PI < p <= PI) (phi st').
Proof.
  induction c as [|c IH]; intros st k st' fmax H HA Hp; cbn [run_iters] in H;
    destruct (frecoder_body fmin_slsqp self k st) as [[st1 f1]|] eqn:Eb;
    cbn [bind] in H; try discriminate.
  - inversion H; subst. split; [eapply frecoder_body_fmax; eauto|].
    eapply frecoder_body_ranges; eauto.
  - destruct (frecoder_body_ranges _ _ _ _ Eb HA Hp) as [HA1 Hp1].
    eapply IH; eauto.
Qed.

Lemma frecoder_init_ranges (f : list C) (n : nat) :
  Forall (fun a => 0 <= a) (A (frecoder_init self f n)) /\
  Forall (fun p => - PI < p <= PI) (phi (frecoder_init self f n)).
Proof.
  pose proof PI_RGT_0 as HPI. unfold frecoder_init; cbn [A phi].
  split; apply Forall_repeat_intro; lra.
Qed.

Lemma Forall_nth_default (P : R -> Prop) (l : list R) (j : nat) :
  P 0 -> Forall P l -> P (nth j l 0).
Proof.
  intros H0 Hl. revert j. induction Hl as [|a l Ha Hl IH]; intros [|j]; simpl; auto.
Qed.

Lemma frecoder_out_ranges (f : list C) (nintvec : Z) (bc : option R)
      (nus As phis : list R) :
  frecoder fmin_slsqp self f nintvec bc = Ok (nus, As, phis) ->
  Forall (fun a => 0 <= a) As /\ Forall (fun p => - PI < p <= PI) phis.
Proof.
  intros H.
  destruct (frecoder_inv _ _ _ _ _ _ _ _ H) as (m & k & st & _ & Hl & _ & -> & ->).
  destruct (frecoder_loop_spec _ _ _ _ _ _ _ _ Hl) as (_ & (fmax & Hit & _) & _).
  destruct (frecoder_init_ranges f (S m)) as [IA Ip].
  destruct (run_iters_ranges _ _ _ _ _ Hit IA Ip) as (_ & HA & Hp).
  split; now apply Forall_firstn_keep.
Qed.

Lemma frecoder_out_lengths (f : list C) (nintvec : Z) (bc : option R)
      (nus As phis : list R) :
  frecoder fmin_slsqp self f nintvec bc = Ok (nus, As, phis) ->
  length As = length nus /\ length phis = length nus.
Proof.
  intros H.
  destruct (frecoder_inv _ _ _ _ _ _ _ _ H) as (m & k & st & _ & Hl & -> & -> & ->).
  destruct (frecoder_loop_spec _ _ _ _ _ _ _ _ Hl) as (_ & (fmax & Hit & _) & _).
  destruct (run_iters_preserves _ _ _ _ _ _ _ Hit) as (Ln & LA & Lp & _).
  destruct (frecoder_init_lengths self f (S m)) as (In & IA & Ip).
  rewrite length_map, !length_firstn. lia.
Qed.

(** X5.  Every amplitude returned by [frecoder] is non-negative and every
    phase lies between -pi and pi; the three returned arrays have one
    length. *)
Theorem frecoder_ranges (f : list C) (nintvec : Z) (bc : option R)
        (nus As phis : list R) :
  frecoder fmin_slsqp self f nintvec bc = Ok (nus, As, phis) ->
  Forall (fun a => 0 <= a) As /\ Forall (fun p => - PI <= p <= PI) phis /\
  length As = length nus /\ length phis = length nus.
Proof.
  intros H. destruct (frecoder_out_ranges _ _ _ _ _ _ H) as [HA Hp].
  destruct (frecoder_out_lengths _ _ _ _ _ _ H) as [LA Lp].
  repeat split; auto.
  eapply Forall_impl; [|exact Hp]. intros p Hr. cbv beta in Hr. lra.
Qed.

(** X6.  With [break_condition] [None], or a number that is not positive,
    [frecoder] never leaves the loop early: it returns exactly [nintvec]
    frequencies, amplitudes and phases. *)
Theorem frecoder_all_components (f : list C) (nintvec : Z) (bc : option R)
        (nus As phis : list R) :
  match bc with None => True | Some eps => eps <= 0 end ->
  frecoder fmin_slsqp self f nintvec bc = Ok (nus, As, phis) ->
  length nus = Z.to_nat nintvec /\
  length As = Z.to_nat nintvec /\
  length phis = Z.to_nat nintvec.
Proof.
  intros Hbc H.
  destruct (frecoder_inv _ _ _ _ _ _ _ _ H) as (m & k & st & -> & Hl & -> & -> & ->).
  destruct (frecoder_loop_spec _ _ _ _ _ _ _ _ Hl) as (Hk & (fmax & Hit & Hbr) & _).
  destruct (frecoder_init_ranges f (S m)) as [IA0 Ip0].
  destruct (run_iters_ranges _ _ _ _ _ Hit IA0 Ip0) as (Hf & HA & _).
  assert (Hkm : k = m).
  { destruct (Nat.eq_dec k m) as [E|E]; [exact E|exfalso].
    assert (Hlt : (k < 0 + m)%nat) by lia.
    specialize (Hbr Hlt).
    destruct bc as [eps|]; [|discriminate].
    apply break_test_true in Hbr.
    pose proof (Forall_nth_default (fun a => 0 <= a) (A st) k (Rle_refl 0) HA).
    cbv beta in *. lra. }
  subst k.
  destruct (run_iters_preserves _ _ _ _ _ _ _ Hit) as (Ln & LA & Lp & _).
  destruct (frecoder_init_lengths self f (S m)) as (In & IA & Ip).
  rewrite Nat2Z.id, length_map, !length_firstn. lia.
Qed.

End FrecoderRanges.

Lemma frecoder_ranges_witness :
  Forall (fun a => 0 <= a) [Cmod (ab_grid3 C0 0)] /\
  Forall (fun p => - PI <= p <= PI)
         [atan2 (Im (ab_grid3 C0 0)) (Re (ab_grid3 C0 0))] /\
  length [Cmod (ab_grid3 C0 0)] = length [- 0] /\
  length [atan2 (Im (ab_grid3 C0 0)) (Re (ab_grid3 C0 0))] = length [- 0].
Proof.
  exact (frecoder_ranges slsqp_start grid3 zeros3 1 None _ _ _
           (frecoder_grid3_one slsqp_start C0 C0 C0 0 None
              (frequency_grid3_zeros slsqp_start))).
Defined.

Lemma frecoder_all_components_witness :
  length [- 0] = Z.to_nat 1 /\
  length [Cmod (ab_grid3 C0 0)] = Z.to_nat 1 /\
  length [atan2 (Im (ab_grid3 C0 0)) (Re (ab_grid3 C0 0))] = Z.to_nat 1.
Proof.
  exact (frecoder_all_components slsqp_start grid3 zeros3 1 (Some 0) _ _ _
           (Rle_refl 0)
           (frecoder_grid3_one slsqp_start C0 C0 C0 0 (Some 0)
              (frequency_grid3_zeros slsqp_start))).
Defined.

(** ** The order of the component table *)

Lemma insert_by_sorted (x : R * nat) (s : list (R * nat)) :
  StronglySorted (fun a b => fst a <= fst b) s ->
  StronglySorted (fun a b => fst a <= fst b) (insert_by Rleb x s).
Proof.
  induction 1 as [|y s Hs IH Hy]; simpl.
  - constructor; constructor.
  - unfold Rleb at 1. destruct (Rle_dec (fst x) (fst y)) as [Hxy|Hxy].
    + constructor; [now constructor|]. constructor; [exact Hxy|].
      eapply Forall_impl; [|exact Hy]. intros a Ha. simpl in *. lra.
    + constructor; [exact IH|].
      apply Forall_forall. intros a Ha.
      apply (Permutation_in _ (insert_by_perm Rleb x s)) in Ha.
      destruct Ha as [<-|Ha]; [lra|].
      exact (proj1 (Forall_forall _ _) Hy a Ha).
Qed.

Lemma isort_sorted (l : list (R * nat)) :
  StronglySorted (fun a b => fst a <= fst b) (fold_right (insert_by Rleb) [] l).
Proof.
  induction l as [|x l IH]; simpl; [constructor|now apply insert_by_sorted].
Qed.

Lemma StronglySorted_snoc {X : Type} (Rel : X -> X -> Prop) (l : list X) (a : X) :
  StronglySorted Rel l -> Forall (fun b => Rel b a) l ->
  StronglySorted Rel (l ++ [a]).
Proof.
  induction 1 as [|b l Hl IH Hb]; intros Ha; simpl.
  - constructor; constructor.
  - inversion Ha; subst. constructor; [now apply IH|].
    apply Forall_app. split; [exact Hb|]. constructor; [assumption|constructor].
Qed.

Lemma StronglySorted_rev {X : Type} (Rel : X -> X -> Prop) (l : list X) :
  StronglySorted Rel l -> StronglySorted (fun a b => Rel b a) (rev l).
Proof.
  induction 1 as [|a l Hl IH Ha]; simpl; [constructor|].
  apply StronglySorted_snoc; [exact IH|].
  apply Forall_forall. intros b Hb. apply in_rev in Hb.
  exact (proj1 (Forall_forall _ _) Ha b Hb).
Qed.

Lemma combine_seq_nth_error {X : Type} (l : list X) :
  forall (s : nat) (k : X) (i : nat),
    In (k, i) (combine l (seq s (length l))) ->
    (s <= i)%nat /\ nth_error l (i - s) = Some k.
Proof.
  induction l as [|a l IH]; intros s k i; simpl; [intros []|].
  intros [E|Hin].
  - inversion E; subst. now rewrite Nat.sub_diag.
  - apply IH in Hin. destruct Hin as [Hs Hn]. split; [lia|].
    replace (i - s)%nat with (S (i - S s)) by lia. exact Hn.
Qed.

Lemma take_keys {X : Type} (key : X -> R) (d : list X) (q : list (R * nat)) :
  Forall (fun x => nth_error (map key d) (snd x) = Some (fst x)) q ->
  forall d', take d (map snd q) = Ok d' -> map key d' = map fst q.
Proof.
  unfold take. induction 1 as [|x q Hx Hq IH]; intros d' H; cbn [map mapM] in H.
  - inversion H. reflexivity.
  - unfold getitem at 1 in H.
    destruct (nth_error d (snd x)) as [r|] eqn:Er; cbn [bind] in H; [|discriminate].
    destruct (mapM (getitem d) (map snd q)) as [rs|] eqn:Ers; cbn [bind] in H;
      [|discriminate].
    inversion H; subst d'. simpl. rewrite (IH rs eq_refl). f_equal.
    rewrite nth_error_map, Er in Hx. simpl in Hx. congruence.
Qed.

Lemma StronglySorted_of_map {X Y : Type} (Rel : Y -> Y -> Prop) (g : X -> Y) (l : list X) :
  StronglySorted Rel (map g l) -> StronglySorted (fun a b => Rel (g a) (g b)) l.
Proof.
  induction l as [|a l IH]; simpl; intros H; [constructor|].
  inversion H; subst. constructor; [now apply IH|].
  apply Forall_forall. intros b Hb.
  apply (proj1 (Forall_forall _ _) H3). now apply in_map.
Qed.

(** the result of [d[keys.argsort()[::-1]]] is in descending order of the keys *)
Lemma take_argsort_descending {X : Type} (key : X -> R) (d d' : list X) :
  take d (rev (argsort_by Rleb (map key d))) = Ok d' ->
  StronglySorted (fun r r' => key r' <= key r) d'.
Proof.
  unfold argsort_by. rewrite <- map_rev. intros H.
  set (keys := map key d) in *.
  set (p := fold_right (insert_by Rleb) [] (combine keys (seq 0 (length keys)))) in *.
  apply (StronglySorted_of_map (fun a b => b <= a)).
  rewrite (take_keys key d (rev p)) with (d' := d'); [|..|exact H].
  - apply (StronglySorted_of_map (fun a b => b <= a)) with (g := fun x => x).
    rewrite map_id.
    assert (Hs := StronglySorted_rev _ _ (isort_sorted (combine keys (seq 0 (length keys))))).
    fold p in Hs. clear H.
    induction Hs as [|a l Hl IH Ha]; simpl; constructor; auto.
    rewrite Forall_map. exact Ha.
  - apply Forall_forall. intros [k i] Hin. apply in_rev in Hin.
    apply (Permutation_in _ (isort_perm Rleb _)) in Hin.
    apply combine_seq_nth_error in Hin. destruct Hin as [_ Hn].
    simpl. now rewrite Nat.sub_0_r in Hn.
Qed.

Lemma dim_rows_spec (i : nat) (nus As phis : list R) (r : row) :
  In r (dim_rows i (nus, As, phis)) ->
  n r = Z.of_nat i /\ In (absA r) As /\ In (rphi r) phis /\
  amp r = Cscale (Cexp_i (rphi r)) (absA r).
Proof.
  unfold dim_rows. intros H. apply in_zip_with in H.
  destruct H as (j & nuk & [Ak pk] & _ & Hc & ->). simpl.
  apply nth_error_In in Hc.
  repeat split; [eapply in_combine_l|eapply in_combine_r]; eauto.
Qed.

Section TableOrder.

Variable fmin_slsqp : minimizer.
Variable self : NAFF.

Lemma build_table_inv (fs : list (list C)) (nintvec : Z) (bc : option R)
      (d : list row) :
  build_table fmin_slsqp self fs nintvec bc = Ok d ->
  exists per_dim,
    mapM (fun fi => frecoder fmin_slsqp self fi nintvec bc) fs = Ok per_dim /\
    fs <> [] /\
    take (concat (zip_with dim_rows (seq 0 (length fs)) per_dim))
         (rev (argsort_by Rleb
                 (map absA (concat (zip_with dim_rows (seq 0 (length fs)) per_dim)))))
    = Ok d.
Proof.
  unfold build_table. intros H.
  destruct (mapM _ fs) as [per_dim|] eqn:Em; cbn [bind] in H; [|discriminate].
  exists per_dim. split; [reflexivity|].
  destruct fs; [discriminate|]. split; [discriminate|exact H].
Qed.

Lemma build_table_sorted (fs : list (list C)) (nintvec : Z) (bc : option R)
      (d : list row) :
  build_table fmin_slsqp self fs nintvec bc = Ok d ->
  StronglySorted (fun r r' => absA r' <= absA r) d.
Proof.
  intros H. destruct (build_table_inv _ _ _ _ H) as (per_dim & _ & _ & Ht).
  eapply take_argsort_descending; eauto.
Qed.

Lemma build_table_row_facts (fs : list (list C)) (nintvec : Z) (bc : option R)
        (d : list row) :
  build_table fmin_slsqp self fs nintvec bc = Ok d ->
  Forall (fun r => 0 <= absA r /\ - PI < rphi r <= PI /\
                   amp r = Cscale (Cexp_i (rphi r)) (absA r) /\
                   (0 <= n r < Z.of_nat (length fs))%Z) d.
Proof.
  intros H. destruct (build_table_inv _ _ _ _ H) as (per_dim & Em & _ & Ht).
  assert (Hlen : length per_dim = length fs) by (eapply mapM_length; eauto).
  set (d0 := concat (zip_with dim_rows (seq 0 (length fs)) per_dim)) in *.
  destruct (take_all_perm d0 (rev (argsort_by Rleb (map absA d0)))) as (l & Hl & Hp).
  { rewrite <- Permutation_rev.
    rewrite <- (length_map absA d0). apply argsort_by_perm. }
  rewrite Ht in Hl. inversion Hl; subst l.
  apply Forall_forall. intros r Hr. apply (Permutation_in _ Hp) in Hr.
  unfold d0 in Hr. rewrite <- Hlen in Hr.
  apply in_concat_zip_seq in Hr. destruct Hr as (i & [[nus As] phis] & Hi & Hin).
  destruct (mapM_nth_error _ _ _ Em _ _ Hi) as (f & Hf & Hfr).
  apply dim_rows_spec in Hin. destruct Hin as (Hn & HA & Hph & Hamp).
  destruct (frecoder_out_ranges _ _ _ _ _ _ _ _ Hfr) as [RA Rp].
  assert (Hil : (i < length fs)%nat) by (apply nth_error_Some; congruence).
  repeat split.
  - exact (proj1 (Forall_forall _ _) RA _ HA).
  - exact (proj1 (proj1 (Forall_forall _ _) Rp _ Hph)).
  - exact (proj2 (proj1 (Forall_forall _ _) Rp _ Hph)).
  - exact Hamp.
  - simpl in Hn. lia.
  - simpl in Hn. lia.
Qed.

(** X7.  The table built by [find_fundamental_frequencies] is in descending
    order of the amplitude ['|A|']: every entry has an amplitude at least
    that of each entry after it. *)
Theorem build_table_descending (fs : list (list C)) (nintvec : Z) (bc : option R)
        (d : list row) :
  build_table fmin_slsqp self fs nintvec bc = Ok d ->
  StronglySorted (fun r r' => absA r' <= absA r) d.
Proof. apply build_table_sorted. Qed.

(** X8.  Every entry of the table has a non-negative amplitude ['|A|'], a
    phase between -pi and pi, the complex amplitude [|A| exp(i phi)], and
    as ['n'] the index of one of the input series. *)
Theorem build_table_rows (fs : list (list C)) (nintvec : Z) (bc : option R)
        (d : list row) :
  build_table fmin_slsqp self fs nintvec bc = Ok d ->
  Forall (fun r => 0 <= absA r /\ - PI <= rphi r <= PI /\
                   amp r = Cscale (Cexp_i (rphi r)) (absA r) /\
                   (0 <= n r < Z.of_nat (length fs))%Z) d.
Proof.
  intros H. eapply Forall_impl; [|exact (build_table_row_facts _ _ _ _ H)].
  intros r Hr. cbv beta in Hr. repeat split; try apply Hr; lra.
Qed.

End TableOrder.

Lemma build_table_descending_witness :
  StronglySorted (fun r r' => absA r' <= absA r) level_rows.
Proof.
  exact (build_table_descending slsqp_level grid3 three_series 1 (Some 1e-7)
           level_rows (proj1 fff_level_three)).
Defined.

Lemma build_table_rows_witness :
  Forall (fun r => 0 <= absA r /\ - PI <= rphi r <= PI /\
                   amp r = Cscale (Cexp_i (rphi r)) (absA r) /\
                   (0 <= n r < Z.of_nat (length three_series))%Z) level_rows.
Proof.
  exact (build_table_rows slsqp_level grid3 three_series 1 (Some 1e-7)
           level_rows (proj1 fff_level_three)).
Defined.

(** ** The first and the second fundamental *)

Lemma getitem_map_S_0 (l : list nat) (i : nat) :
  getitem (map S l) 0 = Ok i -> exists i', i = S i' /\ getitem l 0 = Ok i'.
Proof. destruct l as [|a l]; [discriminate|]. intros [= <-]. eauto. Qed.

(** the first index of [np.where(cond)[0]] is the least index that
    satisfies the condition *)
Lemma where_ix_least {X : Type} (p : X -> bool) (l : list X) :
  forall i, getitem (where_ix p l) 0 = Ok i ->
            forall j r, nth_error l j = Some r -> p r = true -> (i <= j)%nat.
Proof.
  induction l as [|a l IH]; intros i Hi j r Hj Hp.
  - destruct j; discriminate.
  - rewrite where_ix_cons in Hi. destruct (p a) eqn:Ea.
    + inversion Hi. lia.
    + simpl app in Hi. apply getitem_map_S_0 in Hi. destruct Hi as (i' & -> & Hi').
      destruct j as [|j]; simpl in Hj.
      * inversion Hj; subst. congruence.
      * apply le_n_S. eapply IH; eauto.
Qed.

Lemma StronglySorted_nth_error {X : Type} (Rel : X -> X -> Prop) (l : list X) :
  StronglySorted Rel l ->
  forall i j a b, (i < j)%nat -> nth_error l i = Some a -> nth_error l j = Some b ->
                  Rel a b.
Proof.
  induction 1 as [|x l Hl IH Hx]; intros i j a b Hij Ha Hb.
  - destruct i; discriminate.
  - destruct j as [|j]; [lia|]. simpl in Hb. destruct i as [|i]; simpl in Ha.
    + inversion Ha; subst. apply nth_error_In in Hb.
      exact (proj1 (Forall_forall _ _) Hx b Hb).
    + eapply IH; [|exact Ha|exact Hb]. lia.
Qed.

Lemma getitem_nth_error {X : Type} (l : list X) (i : nat) (a : X) :
  getitem l i = Ok a <-> nth_error l i = Some a.
Proof.
  unfold getitem. destruct (nth_error l i); split; intros H; inversion H; reflexivity.
Qed.

Lemma select1_inv (d : list row) (ff : list R) (ix : list nat) :
  select_fundamentals 1 d = Ok (ff, ix) ->
  exists i r, ff = [freq r] /\ ix = [i] /\ getitem (candidates1 d) 0 = Ok i /\
              getitem d i = Ok r.
Proof.
  unfold select_fundamentals. intros H.
  bind_ok_step H i0 E0. bind_ok_step H r0 G0.
  change (Nat.eqb 1 1) with true in H. cbv iota in H. cbn [repeat list_set] in H.
  inversion H; subst. eauto 6.
Qed.

Lemma argsort_two (a b : Z) :
  argsort_by Z.leb [a; b] = if Z.leb a b then [0; 1]%nat else [1; 0]%nat.
Proof. unfold argsort_by. simpl. now destruct (Z.leb a b). Qed.

Lemma select2_inv (d : list row) (ff : list R) (ix : list nat) :
  select_fundamentals 2 d = Ok (ff, ix) ->
  exists ia ra ib rb,
    ff = [freq ra; freq rb] /\ ix = [ia; ib] /\
    getitem d ia = Ok ra /\ getitem d ib = Ok rb /\
    (n ra < n rb)%Z /\
    nonzero_freq ra = true /\ nonzero_freq rb = true /\
    1e-6 < Rabs (Rabs (freq ra) - Rabs (freq rb)).
Proof.
  unfold select_fundamentals, candidates1, candidates2. intros H.
  bind_ok_step H i0 E0.
  destruct (where_ix_first _ _ _ E0) as (r0 & G0 & P0).
  rewrite G0 in H; cbn [bind] in H.
  change (Nat.eqb 2 1) with false in H. cbv iota in H.
  bind_ok_step H i1 E1.
  destruct (where_ix_first _ _ _ E1) as (r1 & G1 & P1).
  rewrite G1 in H; cbn [bind] in H.
  change (Nat.eqb 2 2) with true in H. cbv iota in H.
  cbn [repeat list_set] in H. rewrite argsort_two in H.
  apply andb_prop in P1. destruct P1 as [P1 D1].
  apply andb_prop in P1. destruct P1 as [N1 O1].
  unfold other_dim in O1. apply negb_true_iff in O1. apply Z.eqb_neq in O1.
  unfold distinct_from, Rltb in D1.
  destruct (Rlt_dec _ _) as [Hd|]; [|discriminate].
  destruct (Z.leb_spec (n r0) (n r1)) as [Hle|Hlt];
    vm_compute in H; inversion H; subst ff ix.
  - exists i0, r0, i1, r1. repeat split; auto. lia.
  - exists i1, r1, i0, r0. repeat split; auto. now rewrite Rabs_minus_sym.
Qed.

Section Selection12.

Variable fmin_slsqp : minimizer.
Variable self : NAFF.

(** X9.  For a single series, the fundamental frequency returned is the
    frequency of the table entry of largest amplitude among the entries
    with [|freq| > 1e-5]; the index returned is that of the first such
    entry of the table. *)
Theorem single_series_fundamental (f : list C) (nintvec imax : Z) (bc : option R)
        (ffreq : list R) (d : list row) (ixes : list nat) :
  find_fundamental_frequencies fmin_slsqp self [f] nintvec imax bc
  = Ok (ffreq, d, ixes) ->
  exists i r,
    ffreq = [freq r] /\ ixes = [i] /\ nth_error d i = Some r /\
    nonzero_freq r = true /\
    (forall j r', nth_error d j = Some r' -> nonzero_freq r' = true -> (i <= j)%nat) /\
    (forall r', In r' d -> nonzero_freq r' = true -> absA r' <= absA r).
Proof.
  unfold find_fundamental_frequencies. intros H.
  bind_ok_step H d0 Ed. cbn [length] in H.
  destruct (select_fundamentals 1 d0) as [[ff ix]|] eqn:Es; cbn [bind] in H;
    [|discriminate].
  inversion H; subst ff d0 ix. clear H.
  destruct (select1_inv _ _ _ Es) as (i & r & -> & -> & Hc & Hg).
  destruct (where_ix_first _ _ _ Hc) as (r0 & G0 & P0).
  rewrite Hg in G0. inversion G0; subst r0.
  apply getitem_nth_error in Hg.
  exists i, r. repeat split; auto.
  - intros j r' Hj Hp. eapply (where_ix_least nonzero_freq d i Hc); eauto.
  - intros r' Hin Hp. apply In_nth_error in Hin. destruct Hin as [j Hj].
    assert (Hij : (i <= j)%nat) by (eapply (where_ix_least nonzero_freq d i Hc); eauto).
    destruct (Nat.eq_dec i j) as [<-|Hne].
    + rewrite Hg in Hj. inversion Hj. lra.
    + assert (Hs := build_table_sorted _ _ _ _ _ _ Ed).
      apply (StronglySorted_nth_error _ d Hs i j r r'); auto. lia.
Qed.

(** X10.  For two series, a returned set has two entries, entry 0 from a
    table record of the first series and entry 1 from a record of the
    second; both records have [|freq| > 1e-5] and their [|freq|] differ by
    more than 1e-6. *)
Theorem two_series_fundamentals (fs : list (list C)) (nintvec imax : Z)
        (bc : option R) (ffreq : list R) (d : list row) (ixes : list nat) :
  length fs = 2%nat ->
  find_fundamental_frequencies fmin_slsqp self fs nintvec imax bc
  = Ok (ffreq, d, ixes) ->
  exists ia ra ib rb,
    ffreq = [freq ra; freq rb] /\ ixes = [ia; ib] /\
    nth_error d ia = Some ra /\ nth_error d ib = Some rb /\
    n ra = 0%Z /\ n rb = 1%Z /\
    nonzero_freq ra = true /\ nonzero_freq rb = true /\
    1e-6 < Rabs (Rabs (freq ra) - Rabs (freq rb)).
Proof.
  intros Hlen. unfold find_fundamental_frequencies. rewrite Hlen. intros H.
  bind_ok_step H d0 Ed.
  destruct (select_fundamentals 2 d0) as [[ff ix]|] eqn:Es; cbn [bind] in H;
    [|discriminate].
  inversion H; subst ff d0 ix. clear H.
  destruct (select2_inv _ _ _ Es)
    as (ia & ra & ib & rb & -> & -> & Ga & Gb & Hn & Pa & Pb & Hd).
  apply getitem_nth_error in Ga, Gb.
  assert (Hrows := build_table_row_facts _ _ _ _ _ _ Ed). rewrite Hlen in Hrows.
  pose proof (proj1 (Forall_forall _ _) Hrows ra (nth_error_In _ _ Ga))
    as (_ & _ & _ & Na).
  pose proof (proj1 (Forall_forall _ _) Hrows rb (nth_error_In _ _ Gb))
    as (_ & _ & _ & Nb).
  exists ia, ra, ib, rb. repeat split; auto; lia.
Qed.

End Selection12.

Lemma single_series_fundamental_witness :
  exists i r,
    [- PI] = [freq r] /\ [0%nat] = [i] /\
    nth_error [row_grid3 0 1 (- PI)] i = Some r /\
    nonzero_freq r = true /\
    (forall j r', nth_error [row_grid3 0 1 (- PI)] j = Some r' ->
                  nonzero_freq r' = true -> (i <= j)%nat) /\
    (forall r', In r' [row_grid3 0 1 (- PI)] -> nonzero_freq r' = true ->
                absA r' <= absA r).
Proof.
  exact (single_series_fundamental slsqp_start grid3 (series_1b0 1) 1 15
           (Some 1e-7) _ _ _ fff_start_110).
Defined.

(** a sample run with two series *)
Lemma sort2_descending (r0 r1 : row) :
  absA r1 < absA r0 ->
  take [r0; r1] (rev (argsort_by Rleb (map absA [r0; r1]))) = Ok [r0; r1].
Proof.
  intros H10. unfold argsort_by.
  cbn [map length seq combine fold_right insert_by fst].
  rewrite (Rleb_false (absA r0) (absA r1)) by assumption.
  reflexivity.
Qed.

Lemma select2_sorted (r0 r1 : row) :
  n r0 = 0%Z -> n r1 = 1%Z ->
  nonzero_freq r0 = true -> nonzero_freq r1 = true ->
  distinct_from (freq r0) r1 = true ->
  select_fundamentals 2 [r0; r1] = Ok ([freq r0; freq r1], [0; 1]%nat).
Proof.
  intros E0 E1 N0 N1 D01.
  unfold select_fundamentals, candidates1, candidates2.
  rewrite !where_ix_cons, where_ix_nil. rewrite N0.
  cbn [app getitem nth_error bind Nat.eqb].
  rewrite !where_ix_cons, where_ix_nil. unfold other_dim.
  rewrite N0, N1, D01, E0, E1.
  cbn [Z.eqb Pos.eqb negb andb app map getitem nth_error bind].
  cbn [repeat list_set]. rewrite ?E0, ?E1. reflexivity.
Qed.

Lemma fff_level_two :
  find_fundamental_frequencies slsqp_level grid3
    [series_1b0 (3 / 4); series_1b0 (3 / 16)] 1 15 (Some 1e-7)
  = Ok (map freq (firstn 2 level_rows), firstn 2 level_rows, [0; 1]%nat).
Proof.
  unfold find_fundamental_frequencies, build_table. cbn [mapM].
  rewrite (frecoder_series_1b0 _ _ _ _ (frequency_level (3 / 4) ltac:(lra))).
  rewrite (frecoder_series_1b0 _ _ _ _ (frequency_level (3 / 16) ltac:(lra))).
  cbn [bind length seq zip_with concat app dim_rows combine fst snd].
  rewrite sort2_descending
    by (cbn [absA]; rewrite !absA_row_grid3 by lra; lra).
  cbn [bind]. unfold level_rows. cbn [firstn map].
  rewrite select2_sorted; try reflexivity;
    try (apply nonzero_freq_row; abs_cases);
    unfold distinct_from, row_grid3; cbn [freq]; rewrite !Ropp_involutive;
    apply Rltb_true; abs_cases.
Qed.

Lemma two_series_fundamentals_witness :
  exists ia ra ib rb,
    map freq (firstn 2 level_rows) = [freq ra; freq rb] /\
    [0; 1]%nat = [ia; ib] /\
    nth_error (firstn 2 level_rows) ia = Some ra /\
    nth_error (firstn 2 level_rows) ib = Some rb /\
    n ra = 0%Z /\ n rb = 1%Z /\
    nonzero_freq ra = true /\ nonzero_freq rb = true /\
    1e-6 < Rabs (Rabs (freq ra) - Rabs (freq rb)).
Proof.
  exact (two_series_fundamentals slsqp_level grid3
           [series_1b0 (3 / 4); series_1b0 (3 / 16)] 1 15 (Some 1e-7) _ _ _
           eq_refl fff_level_two).
Defined.

(** ** The all-zero series *)

Lemma Cmul_C0_l (z : C) : Cmul C0 z = C0.
Proof. unfold Cmul, C0; simpl. f_equal; ring. Qed.

Lemma Cmod_C0 : Cmod C0 = 0.
Proof.
  unfold Cmod, C0; simpl. replace (0 * 0 + 0 * 0) with 0 by ring. apply sqrt_0.
Qed.

Lemma atan2_0_0 : atan2 0 0 = 0.
Proof.
  unfold atan2. destruct (Rlt_dec 0 0) as [H|_]; [lra|reflexivity].
Qed.

Lemma zip_with_repeat {X Y Z : Type} (g : X -> Y -> Z) (a : X) (b : Y) (k : nat) :
  zip_with g (repeat a k) (repeat b k) = repeat (g a b) k.
Proof. induction k; simpl; congruence. Qed.

Lemma zip_with_repeat_l {X Y Z : Type} (g : X -> Y -> Z) (a : X) (z : Z) (v : list Y) :
  (forall b, g a b = z) -> zip_with g (repeat a (length v)) v = repeat z (length v).
Proof. intros Hg. induction v; simpl; congruence. Qed.

Lemma Csum_zeros (l : list C) : Forall (fun z => z = C0) l -> Csum l = C0.
Proof.
  unfold Csum. induction 1 as [|z l Hz _ IH]; simpl; [reflexivity|].
  subst z. replace (Cadd C0 C0) with C0; [exact IH|].
  unfold Cadd, C0; simpl. f_equal; ring.
Qed.

Lemma fft_zeros (k : nat) : (1 <= k)%nat -> fft (repeat C0 k) = Ok (repeat C0 k).
Proof.
  intros Hk. unfold fft. destruct k as [|k]; [lia|].
  change (repeat C0 (S k)) with (C0 :: repeat C0 k) at 1. cbv iota.
  f_equal. rewrite repeat_length.
  transitivity (map (fun _ : nat => C0) (seq 0 (S k)));
    [|now rewrite map_const_repeat, length_seq].
  apply map_ext. intros j. apply Csum_zeros.
  apply Forall_forall. intros z Hz. apply in_zip_with in Hz.
  destruct Hz as (i & a & b & _ & Hb & ->).
  apply nth_error_In, repeat_spec in Hb. subst b. apply Cmul_C0_l.
Qed.

Lemma argmax_nonempty (l : list R) : l <> [] -> exists i, argmax l = Ok i.
Proof. destruct l; [congruence|]. simpl; eauto. Qed.

Lemma nth_all_zero (l : list R) (i : nat) :
  Forall (fun x => x = 0) l -> nth i l 0 = 0.
Proof.
  intros H. revert i. induction H as [|a l Ha _ IH]; intros [|i]; simpl; auto.
Qed.

(** a series of zeros has no peak: [frequency] returns 0 *)
Lemma peak_zeros (self : NAFF) (k : nat) :
  (2 <= length (t self))%nat -> (1 <= k)%nat ->
  peak self (repeat C0 k) = Ok None.
Proof.
  intros Ht Hk. unfold peak. rewrite fft_zeros by exact Hk. cbn [bind].
  destruct (t self) as [|t0 [|t1 tl]]; try (simpl in Ht; lia).
  cbn [getitem nth_error bind]. rewrite repeat_length.
  set (fff := map (fun z => Cdivr z (sqrt (INR k))) (repeat C0 k)).
  set (xf := zip_with (fun j z => 1 / sqrt (INR k - 1) * Re z * alt_sign j) (seq 0 k) fff).
  set (yf := zip_with (fun j z => 1 / sqrt (INR k - 1) * Im z * alt_sign j) (seq 0 k) fff).
  assert (Hx : Forall (fun x => x = 0) xf).
  { apply Forall_forall. intros x Hin. apply in_zip_with in Hin.
    destruct Hin as (i & a & b & _ & Hb & ->).
    apply nth_error_In in Hb. unfold fff in Hb. apply in_map_iff in Hb.
    destruct Hb as (z & <- & Hz). apply repeat_spec in Hz. subst z.
    unfold Cdivr, C0; simpl. unfold Rdiv. ring. }
  destruct (argmax_nonempty (zip_with Rmax (map Rabs xf) (map Rabs yf))) as [wmax Hw].
  { intros E. apply (f_equal (@length R)) in E.
    rewrite zip_with_length in E.
    - unfold xf in E. rewrite length_map, zip_with_length in E.
      + rewrite length_seq in E. simpl in E. lia.
      + unfold fff. now rewrite length_seq, length_map, repeat_length.
    - unfold xf, yf. rewrite !length_map, !zip_with_length; auto;
        unfold fff; now rewrite length_seq, length_map, repeat_length. }
  rewrite Hw. cbn [bind].
  destruct (Req_dec_T (nth wmax xf 0) 0) as [_|Hne]; [reflexivity|].
  exfalso. apply Hne. now apply nth_all_zero.
Qed.

Lemma simps_repeat_0 (x : list R) (k : nat) :
  length x = k -> (1 <= k)%nat -> simps (repeat 0 k) x = Ok 0.
Proof.
  intros Hx Hk.
  replace (repeat 0 k) with (map (fun _ : unit => 0) (repeat tt k))
    by (now rewrite map_const_repeat, repeat_length).
  destruct (simps_ok (map (fun _ : unit => 0) (repeat tt k)) x) as [s Hs].
  - now rewrite length_map, repeat_length.
  - destruct k; [lia|discriminate].
  - rewrite Hs. f_equal. eapply simps_zeros; eauto.
Qed.

Lemma hanning_product_zeros_l (self : NAFF) (v : list C) :
  length (chi self) = length v -> length (tz self) = length v ->
  (1 <= length v)%nat ->
  hanning_product self (repeat C0 (length v)) v = Ok C0.
Proof.
  intros Hc Hz Hv. unfold hanning_product.
  rewrite bcast2_same_length by apply repeat_length. cbn [bind].
  rewrite (zip_with_repeat_l _ C0 C0) by (intros; apply Cmul_C0_l).
  rewrite <- Hc.
  rewrite bcast2_same_length by apply repeat_length. cbn [bind].
  rewrite (zip_with_repeat_l _ C0 C0)
    by (intros; unfold Cscale, C0; simpl; f_equal; ring).
  rewrite !map_repeat. cbn [Re Im C0].
  rewrite simps_repeat_0 by lia. cbn [bind]. unfold C0. f_equal.
  f_equal; unfold Rdiv; ring.
Qed.

Lemma amax_repeat (x : R) (k : nat) : (1 <= k)%nat -> amax (repeat x k) = Ok x.
Proof.
  intros Hk. destruct k as [|k]; [lia|]. simpl. f_equal.
  induction k as [|k IH]; simpl; [reflexivity|].
  rewrite Rmax_left by lra. apply IH. lia.
Qed.

Lemma sub_chi_zeros (e : list C) :
  (1 <= length e)%nat ->
  sub_chi (repeat C0 (length e)) e C0 = Ok (repeat C0 (length e), 0).
Proof.
  intros He. unfold sub_chi.
  replace (map (Cmul C0) e) with (repeat C0 (length e))
    by (rewrite <- map_const_repeat; apply map_ext; intros; now rewrite Cmul_C0_l).
  rewrite bcast2_same_length by (now rewrite !repeat_length). cbn [bind].
  rewrite zip_with_repeat.
  replace (Csub C0 C0) with C0 by (unfold Csub, C0; simpl; f_equal; ring).
  rewrite map_repeat, Cmod_C0, amax_repeat by exact He. reflexivity.
Qed.

Lemma mapM_repeat {X Y : Type} (g : X -> result Y) (a : X) (b : Y) (k : nat) :
  g a = Ok b -> mapM g (repeat a k) = Ok (repeat b k).
Proof. intros H. induction k; simpl; [reflexivity|]. now rewrite H, IHk. Qed.

Lemma where_ix_all_false {X : Type} (p : X -> bool) (l : list X) :
  Forall (fun x => p x = false) l -> where_ix p l = [].
Proof.
  induction 1 as [|a l Ha _ IH]; [reflexivity|].
  rewrite where_ix_cons, Ha, IH. reflexivity.
Qed.

(** without a table entry of [|freq| > 1e-5] the selection fails on
    [ixes[0]] *)
Lemma select_no_candidate (ndim : nat) (d : list row) :
  Forall (fun r => nonzero_freq r = false) d ->
  select_fundamentals ndim d = Raise IndexError.
Proof.
  intros H. unfold select_fundamentals, candidates1.
  now rewrite (where_ix_all_false _ _ H).
Qed.

Section ZeroSeries.

Variable fmin_slsqp : minimizer.
Variable self : NAFF.

Lemma frequency_zeros (k : nat) :
  (2 <= length (t self))%nat -> (1 <= k)%nat ->
  frequency fmin_slsqp self (repeat C0 k) = Ok 0.
Proof. intros Ht Hk. unfold frequency. now rewrite peak_zeros. Qed.

Lemma frecoder_loop_break (bc : option R) (m k : nat) (st st' : fstate) (fmax : R) :
  frecoder_body fmin_slsqp self k st = Ok (st', fmax) ->
  break_test bc fmax (nth k (A st') 0) = true ->
  frecoder_loop fmin_slsqp self bc m k st = Ok (k, st').
Proof. intros Hb Ht. destruct m; simpl; rewrite Hb; cbn [bind]; now rewrite Ht. Qed.

Lemma frecoder_zeros (len : nat) (nintvec : Z) (eps : R) :
  aligned self len -> (2 <= len)%nat -> (1 <= nintvec)%Z -> 0 < eps ->
  frecoder fmin_slsqp self (repeat C0 len) nintvec (Some eps) = Ok ([0], [0], [0]).
Proof.
  intros (Lt & Lz & Lc) Hlen Hn Heps. unfold frecoder.
  destruct (Z.ltb_spec nintvec 0) as [?|_]; [lia|].
  destruct (Z.to_nat nintvec) as [|m] eqn:Em; [lia|].
  set (e0 := map (fun ti => Cexp_i (0 * ti)) (t self)).
  assert (Le : length e0 = len) by (unfold e0; now rewrite length_map).
  assert (Hb : frecoder_body fmin_slsqp self 0 (frecoder_init self (repeat C0 len) (S m))
               = Ok (mk_fstate (e0 :: repeat (repeat C0 (length (t self))) m)
                               (0 :: repeat 0 m) (0 :: repeat 0 m) (0 :: repeat 0 m)
                               (repeat C0 len), 0)).
  { unfold frecoder_body, frecoder_init. cbn [fk nu A phi ecap Nat.eqb].
    rewrite frequency_zeros by lia. cbn [bind]. fold e0.
    rewrite <- Le. rewrite hanning_product_zeros_l by lia. cbn [bind].
    rewrite sub_chi_zeros by lia. cbn [bind repeat list_set Re Im C0].
    now rewrite Cmod_C0, atan2_0_0. }
  rewrite (frecoder_loop_break _ _ _ _ _ _ Hb).
  - cbn [bind Nat.add firstn nu A phi map]. now rewrite Ropp_0.
  - cbn [A nth]. apply break_test_true. lra.
Qed.

Lemma build_table_zeros_rows (len : nat) (nintvec : Z) (eps : R) (dims : nat)
      (d : list row) :
  aligned self len -> (2 <= len)%nat -> (1 <= nintvec)%Z -> 0 < eps ->
  build_table fmin_slsqp self (repeat (repeat C0 len) dims) nintvec (Some eps) = Ok d ->
  Forall (fun r => nonzero_freq r = false) d.
Proof.
  intros Ha Hlen Hn Heps H.
  destruct (build_table_inv _ _ _ _ _ _ H) as (per_dim & Em & _ & Ht).
  rewrite (mapM_repeat (fun fi => frecoder fmin_slsqp self fi nintvec (Some eps))
             (repeat C0 len) _ dims (frecoder_zeros len nintvec eps Ha Hlen Hn Heps)) in Em.
  inversion Em; subst per_dim. clear Em.
  set (d0 := concat _) in Ht.
  destruct (take_all_perm d0 (rev (argsort_by Rleb (map absA d0)))) as (l & Hl & Hp).
  { rewrite <- Permutation_rev.
    rewrite <- (length_map absA d0). apply argsort_by_perm. }
  rewrite Ht in Hl. inversion Hl; subst l.
  apply Forall_forall. intros r Hr. apply (Permutation_in _ Hp) in Hr.
  unfold d0 in Hr. rewrite repeat_length in Hr.
  rewrite <- (repeat_length ([0], [0], [0]) dims) in Hr at 1.
  apply in_concat_zip_seq in Hr. destruct Hr as (i & b & Hi & Hin).
  apply nth_error_In, repeat_spec in Hi. subst b.
  simpl in Hin. destruct Hin as [<-|[]].
  unfold nonzero_freq, Rltb. cbn [freq].
  rewrite Ropp_0, Rabs_R0. destruct (Rlt_dec 1e-5 0) as [Hlt|_]; [lra|reflexivity].
Qed.

(** X11.  On a series of zeros, on a grid of at least two strictly
    increasing times and with a positive [break_condition], [frecoder]
    stops after the first pass and returns the single component of
    frequency, amplitude and phase 0. *)
Theorem frecoder_zero_series (len : nat) (nintvec : Z) (eps : R) :
  aligned self len -> proper_grid self ->
  (2 <= len)%nat -> (1 <= nintvec)%Z -> 0 < eps ->
  frecoder fmin_slsqp self (repeat C0 len) nintvec (Some eps) = Ok ([0], [0], [0]).
Proof. intros Ha _. now apply frecoder_zeros. Qed.

Lemma fff_zeros (len : nat) (nintvec imax : Z) (eps : R) (dims : nat) :
  aligned self len -> (2 <= len)%nat -> (1 <= nintvec)%Z -> 0 < eps ->
  (1 <= dims)%nat ->
  find_fundamental_frequencies fmin_slsqp self (repeat (repeat C0 len) dims)
                               nintvec imax (Some eps)
  = Raise IndexError.
Proof.
  intros Ha Hlen Hn Heps Hd. unfold find_fundamental_frequencies.
  destruct (build_table _ _ _ _ _) as [d|e] eqn:Eb.
  - cbn [bind]. rewrite select_no_candidate; [reflexivity|].
    eapply build_table_zeros_rows; eauto.
  - exfalso. unfold build_table in Eb.
    rewrite (mapM_repeat (fun fi => frecoder fmin_slsqp self fi nintvec (Some eps))
             (repeat C0 len) _ dims (frecoder_zeros len nintvec eps Ha Hlen Hn Heps)) in Eb.
    cbn [bind] in Eb. destruct dims as [|dims]; [lia|].
    change (repeat (repeat C0 len) (S dims))
      with (repeat C0 len :: repeat (repeat C0 len) dims) in Eb.
    cbv iota in Eb.
    set (d0 := concat _) in Eb.
    destruct (take_all_perm d0 (rev (argsort_by Rleb (map absA d0)))) as (l & Hl & _).
    { rewrite <- Permutation_rev.
      rewrite <- (length_map absA d0). apply argsort_by_perm. }
    rewrite Hl in Eb. discriminate.
Qed.

(** X12.  [find_fundamental_frequencies] on series of zeros raises the
    index error of [ixes[0]]: the table has no entry of [|freq| > 1e-5]. *)
Theorem fff_zero_series (len : nat) (nintvec imax : Z) (eps : R) (dims : nat) :
  aligned self len -> proper_grid self ->
  (2 <= len)%nat -> (1 <= nintvec)%Z -> 0 < eps ->
  (1 <= dims)%nat ->
  find_fundamental_frequencies fmin_slsqp self (repeat (repeat C0 len) dims)
                               nintvec imax (Some eps)
  = Raise IndexError.
Proof. intros Ha _. now apply fff_zeros. Qed.

End ZeroSeries.

Lemma aligned_grid3 : aligned grid3 3.
Proof. repeat split. Qed.

Lemma frecoder_zero_series_witness :
  frecoder slsqp_start grid3 (repeat C0 3) 1 (Some 1e-7) = Ok ([0], [0], [0]).
Proof.
  apply (frecoder_zero_series slsqp_start grid3 3 1 1e-7 aligned_grid3 proper_grid3);
    lia || lra.
Defined.

Lemma fff_zero_series_witness :
  find_fundamental_frequencies slsqp_start grid3 (repeat (repeat C0 3) 3) 1 15
                               (Some 1e-7)
  = Raise IndexError.
Proof.
  apply (fff_zero_series slsqp_start grid3 3 1 15 1e-7 3 aligned_grid3 proper_grid3);
    lia || lra.
Defined.

(** ** Poincare polar coordinates *)

Lemma zip_with_map_both {X Y Z W : Type} (g : Y -> Z -> W) (f1 : X -> Y) (f2 : X -> Z)
      (l : list X) :
  zip_with g (map f1 l) (map f2 l) = map (fun x => g (f1 x) (f2 x)) l.
Proof. induction l; simpl; congruence. Qed.

Lemma zip_with_map_self {X Y W : Type} (g : X -> Y -> W) (f : X -> Y) (l : list X) :
  zip_with g l (map f l) = map (fun x => g x (f x)) l.
Proof. induction l; simpl; congruence. Qed.

Lemma Cmod_polar (s a : R) : 0 <= s -> Cmod (mkC (s * cos a) (s * sin a)) = s.
Proof.
  intros Hs. unfold Cmod; simpl.
  replace (s * cos a * (s * cos a) + s * sin a * (s * sin a))
    with (s * s * (sin a * sin a + cos a * cos a)) by ring.
  pose proof (sin2_cos2 a) as H. unfold Rsqr in H. rewrite H, Rmult_1_r.
  now apply sqrt_square.
Qed.

(** X13.  [poincare_polar] returns three series of the length of the
    orbit.  At every sample the first has the cylindrical radius as real
    part (and, away from the axis, the radial velocity as imaginary part),
    the second has modulus [sqrt(2 |x vy - y vx|)], and the third is
    [z + i vz]. *)
Theorem poincare_polar_series (w : list point) :
  exists sR sphi sz,
    poincare_polar w = [sR; sphi; sz] /\
    length sR = length w /\ length sphi = length w /\ length sz = length w /\
    forall i p, nth_error w i = Some p ->
      exists a b,
        nth_error sR i = Some a /\ nth_error sphi i = Some b /\
        nth_error sz i = Some (mkC (pz p) (pvz p)) /\
        Re a = sqrt (px p * px p + py p * py p) /\
        (0 < px p * px p + py p * py p ->
         Im a * Re a = px p * pvx p + py p * pvy p) /\
        Cmod b = sqrt (2 * Rabs (px p * pvy p - py p * pvx p)).
Proof.
  unfold poincare_polar. cbv zeta. rewrite zip_with_map_self, !zip_with_map_both.
  do 3 eexists. split; [reflexivity|]. rewrite !length_map.
  repeat split; try reflexivity.
  intros i p Hp.
  rewrite !nth_error_map, Hp. cbn [option_map]. do 2 eexists.
  repeat split; cbn [Re Im].
  - intros Hpos. field. intros E. apply sqrt_eq_0 in E; lra.
  - apply Cmod_polar, sqrt_pos.
Qed.

(** ** [orbit_to_freqs] *)

Lemma NAFF_init_nonempty (t0 : list R) :
  t0 <> [] ->
  exists self, NAFF_init t0 = Ok self /\ t self = t0 /\ aligned self (length t0).
Proof.
  intros Hne. unfold NAFF_init. destruct t0 as [|a l]; [congruence|].
  unfold getlast. unfold getitem at 1.
  destruct (nth_error (a :: l) (length (a :: l) - 1)) as [tl|] eqn:E;
    [|apply nth_error_None in E; simpl in E; lia].
  cbn [bind getitem nth_error]. eexists. split; [reflexivity|].
  split; [reflexivity|]. unfold aligned. cbn [t tz chi].
  repeat split; now rewrite ?length_map.
Qed.

Lemma NAFF_init_raise (t0 : list R) (e : exn) :
  NAFF_init t0 = Raise e <-> t0 = [] /\ e = IndexError.
Proof.
  split.
  - intros H. destruct t0 as [|a l].
    + inversion H. auto.
    + destruct (NAFF_init_nonempty (a :: l)) as (self & Hs & _); [discriminate|].
      rewrite Hs in H. discriminate.
  - intros [-> ->]. reflexivity.
Qed.

Lemma cartesian_series_rest (k : nat) :
  cartesian_series (repeat point0 k) = repeat (repeat C0 k) 3.
Proof. unfold cartesian_series. now rewrite !map_repeat. Qed.

Lemma cartesian_series_orbit3 : cartesian_series orbit3 = three_series.
Proof. reflexivity. Qed.

Section OrbitProperties.

Variable fmin_slsqp : minimizer.
Variable classify_orbit : list point -> list Z.
Variable align_circulation_with_z : list point -> list Z -> list point.

Local Abbreviation o2f :=
  (orbit_to_freqs fmin_slsqp classify_orbit align_circulation_with_z).

(** X14.  With [force_box] and [silently_fail], [orbit_to_freqs] raises
    only for an empty time array (the index error of the constructor, which
    is outside the [try]); every failure of the frequency analysis itself is
    turned into a result. *)
Theorem orbit_to_freqs_silent (t0 : list R) (w : list point) (nintvec imax : Z)
        (bc : option R) (e : exn) :
  o2f t0 w true true nintvec imax bc = Raise e <-> t0 = [] /\ e = IndexError.
Proof.
  unfold orbit_to_freqs. split.
  - intros H. destruct (NAFF_init t0) as [naff|e0] eqn:En; cbn [bind] in H.
    + destruct (find_fundamental_frequencies _ _ _ _ _ _) as [[[ff d] ix]|];
        discriminate.
    + inversion H; subst e0. now apply NAFF_init_raise.
  - intros [-> ->]. reflexivity.
Qed.

(** X15.  What [orbit_to_freqs] returns: either NaN's and [None]'s, which
    happens only with [silently_fail], or three frequencies with the table
    and the indices, entry [i] being the frequency of the table record at
    index [ixes[i]], a record of series [i] with [|freq| > 1e-5]. *)
Theorem orbit_to_freqs_result (t0 : list R) (w : list point)
        (force_box silently_fail : bool) (nintvec imax : Z) (bc : option R)
        (out : orbit_out) :
  o2f t0 w force_box silently_fail nintvec imax bc = Ok out ->
  (force_box = true -> o_is_tube out = false) /\
  match o_freqs out with
  | NaN3 => silently_fail = true /\ o_d out = None /\ o_ixes out = None
  | Freqs ff =>
      exists d ix,
        o_d out = Some d /\ o_ixes out = Some ix /\
        length ff = 3%nat /\ length ix = 3%nat /\
        forall i, (i < 3)%nat ->
                  exists r, nth_error d (nth i ix 0%nat) = Some r /\
                            n r = Z.of_nat i /\ nth i ff 0 = freq r /\
                            nonzero_freq r = true
  end.
Proof.
  unfold orbit_to_freqs. intros H.
  destruct (NAFF_init t0) as [naff|] eqn:En; cbn [bind] in H; [|discriminate].
  set (is_tube := if force_box then false else _) in H.
  set (fs := if is_tube then _ else _) in H.
  assert (Hfs : length fs = 3%nat) by (unfold fs; now destruct is_tube).
  assert (Hok : forall ff d ix,
             find_fundamental_frequencies fmin_slsqp naff fs nintvec imax bc
             = Ok (ff, d, ix) ->
             length ff = 3%nat /\ length ix = 3%nat /\
             forall i, (i < 3)%nat ->
                       exists r, nth_error d (nth i ix 0%nat) = Some r /\
                                 n r = Z.of_nat i /\ nth i ff 0 = freq r /\
                                 nonzero_freq r = true).
  { intros ff d ix Hf. unfold find_fundamental_frequencies in Hf. rewrite Hfs in Hf.
    bind_ok_step Hf d0 Ed.
    destruct (select_fundamentals 3 d0) as [[ff' ix']|] eqn:Es; cbn [bind] in Hf;
      [|discriminate].
    inversion Hf; subst ff' d0 ix'.
    destruct (select3_cover _ _ _ Es) as (L1 & L2 & Hall).
    split; [exact L1|]. split; [exact L2|].
    intros i Hi. destruct (Hall i Hi) as (r & Hg & Hr).
    exists r. split; [now apply getitem_nth_error|exact Hr]. }
  assert (Htube : force_box = true -> is_tube = false)
    by (intros ->; reflexivity).
  destruct (find_fundamental_frequencies fmin_slsqp naff fs nintvec imax bc)
    as [[[ff d] ix]|e] eqn:Ef.
  - assert (Hout : out = mk_orbit_out (Freqs ff) (Some d) (Some ix) is_tube)
      by (destruct silently_fail; cbn [bind] in H; congruence).
    subst out. cbn [o_freqs o_d o_ixes o_is_tube]. split; [exact Htube|].
    exists d, ix. split; [reflexivity|]. split; [reflexivity|]. now apply Hok.
  - destruct silently_fail; cbn [bind] in H; [|discriminate].
    inversion H; subst out. cbn [o_freqs o_d o_ixes o_is_tube]. auto.
Qed.

(** X16.  The orbit of a body at rest at the origin, sampled at two or
    more strictly increasing times and analysed as a box orbit: the
    analysis fails on the empty list of candidate frequencies;
    with [silently_fail] the result is NaN's and [None]'s, without it the
    index error is raised. *)
Theorem orbit_to_freqs_at_rest (t0 : list R) (silently_fail : bool)
        (nintvec imax : Z) (eps : R) :
  StronglySorted Rlt t0 ->
  (2 <= length t0)%nat -> (1 <= nintvec)%Z -> 0 < eps ->
  o2f t0 (repeat point0 (length t0)) true silently_fail nintvec imax (Some eps)
  = if silently_fail then Ok (mk_orbit_out NaN3 None None false)
    else Raise IndexError.
Proof.
  intros _ Hlen Hn Heps. unfold orbit_to_freqs.
  destruct (NAFF_init_nonempty t0) as (self & Hs & _ & Ha).
  { intros ->. simpl in Hlen. lia. }
  rewrite Hs. cbn [bind]. rewrite cartesian_series_rest.
  rewrite (fff_zeros fmin_slsqp self (length t0) nintvec imax eps 3 Ha Hlen Hn Heps)
    by lia.
  now destruct silently_fail.
Qed.

End OrbitProperties.

Lemma orbit_level_three (cls : list point -> list Z)
      (aln : list point -> list Z -> list point) :
  orbit_to_freqs slsqp_level cls aln [0; 1; 2] orbit3 true false 1 15 (Some 1e-7)
  = Ok (mk_orbit_out (Freqs (map freq level_rows)) (Some level_rows)
                     (Some [0; 1; 2]%nat) false).
Proof.
  unfold orbit_to_freqs. rewrite NAFF_init_grid3. cbn [bind].
  rewrite cartesian_series_orbit3.
  now rewrite (proj2 fff_level_three).
Qed.

Lemma orbit_to_freqs_result_witness :
  (true = true -> false = false) /\
  exists d ix,
    Some level_rows = Some d /\ Some [0; 1; 2]%nat = Some ix /\
    length (map freq level_rows) = 3%nat /\ length ix = 3%nat /\
    forall i, (i < 3)%nat ->
              exists r, nth_error d (nth i ix 0%nat) = Some r /\
                        n r = Z.of_nat i /\ nth i (map freq level_rows) 0 = freq r /\
                        nonzero_freq r = true.
Proof.
  exact (orbit_to_freqs_result slsqp_level (fun _ => []) (fun w _ => w)
           [0; 1; 2] orbit3 true false 1 15 (Some 1e-7) _
           (orbit_level_three _ _)).
Defined.

Lemma orbit_to_freqs_at_rest_witness :
  orbit_to_freqs slsqp_start (fun _ => []) (fun w _ => w) [0; 1; 2]
                 (repeat point0 (length [0; 1; 2])) true true 1 15 (Some 1e-7)
  = Ok (mk_orbit_out NaN3 None None false).
Proof.
  apply (orbit_to_freqs_at_rest slsqp_start (fun _ => []) (fun w _ => w)
           [0; 1; 2] true 1 15 1e-7);
    try (repeat constructor; lra); simpl; lia || lra.
Defined.

(** ** Integer vectors: the round trip *)

Lemma mapM_total {X Y : Type} (g : X -> result Y) (l : list X) :
  (forall a, In a l -> exists b, g a = Ok b) -> exists bs, mapM g l = Ok bs.
Proof.
  induction l as [|a l IH]; intros H; simpl; [eauto|].
  destruct (H a (or_introl eq_refl)) as [b Hb]. rewrite Hb. cbn [bind].
  destruct IH as [bs Hbs]; [intros; apply H; now right|].
  rewrite Hbs. cbn [bind]. eauto.
Qed.

Lemma mapM_at {X Y : Type} (g : X -> result Y) (l : list X) (bs : list Y) :
  mapM g l = Ok bs ->
  forall i a, nth_error l i = Some a -> exists b, nth_error bs i = Some b /\ g a = Ok b.
Proof.
  intros H i a Ha.
  assert (Hl := mapM_length _ _ _ H).
  destruct (nth_error bs i) as [b|] eqn:Eb.
  - destruct (mapM_nth_error _ _ _ H _ _ Eb) as (a' & Ha' & Hg).
    exists b. split; [reflexivity|]. congruence.
  - apply nth_error_None in Eb.
    assert (i < length l)%nat by (apply nth_error_Some; congruence). lia.
Qed.

(** the tuple chosen for one table record *)
Lemma best_vector_spec (ffreqs : list R) (imax : Z) (fr : R) :
  (0 <= imax)%Z ->
  let in_range := Forall (fun z => (- imax <= z <= imax)%Z) in
  let nv := nvecs (length ffreqs) (int_range imax) in
  exists v,
    (ix <- argmin (map (fun v => Rabs (fr - dot v ffreqs)) nv) ;; getitem nv ix) = Ok v /\
    length v = length ffreqs /\ in_range v /\
    forall v', length v' = length ffreqs -> in_range v' ->
               Rabs (fr - dot v ffreqs) <= Rabs (fr - dot v' ffreqs).
Proof.
  intros Himax in_range nv.
  assert (Hne : nv <> []).
  { assert (Hin : In (repeat 0%Z (length ffreqs)) nv).
    { apply nvecs_range. split; [apply repeat_length|].
      apply Forall_forall. intros z Hz. apply repeat_spec in Hz. lia. }
    intros E. rewrite E in Hin. exact Hin. }
  set (errs := map (fun v => Rabs (fr - dot v ffreqs)) nv).
  destruct (argmin_ok errs) as [ix Hix].
  { unfold errs. destruct nv; [congruence|discriminate]. }
  rewrite Hix. cbn [bind].
  destruct (argmin_spec _ _ Hix) as [Hlt Hmin].
  unfold errs in Hlt. rewrite length_map in Hlt.
  destruct (nth_error nv ix) as [v|] eqn:Ev;
    [|apply nth_error_None in Ev; lia].
  exists v. unfold getitem. rewrite Ev. split; [reflexivity|].
  assert (Hv : In v nv) by (eapply nth_error_In; eauto).
  apply nvecs_range in Hv. destruct Hv as [Lv Rv].
  split; [exact Lv|]. split; [exact Rv|].
  intros v' Lv' Rv'.
  rewrite <- (nth_map_nth_error (fun v => Rabs (fr - dot v ffreqs)) nv ix v Ev).
  apply Hmin. unfold errs. apply in_map_iff. exists v'. split; [reflexivity|].
  apply nvecs_range. auto.
Qed.

(** X17.  Round trip of [find_integer_vectors]: for a table record whose
    frequency is the combination [n0 . ffreqs] of exactly one integer
    tuple [n0] with entries in [-imax .. imax], the tuple returned for that
    record is [n0]. *)
Theorem find_integer_vectors_round_trip (ffreqs : list R) (d : list row) (imax : Z)
        (i : nat) (r : row) (n0 : list Z) :
  (1 <= length ffreqs <= 3)%nat ->
  (0 <= imax)%Z ->
  nth_error d i = Some r ->
  length n0 = length ffreqs ->
  Forall (fun z => (- imax <= z <= imax)%Z) n0 ->
  freq r = dot n0 ffreqs ->
  (forall v, length v = length ffreqs ->
             Forall (fun z => (- imax <= z <= imax)%Z) v ->
             dot v ffreqs = dot n0 ffreqs -> v = n0) ->
  exists rows,
    find_integer_vectors ffreqs d imax = Ok rows /\ nth_error rows i = Some n0.
Proof.
  intros Hm Himax Hr Ln Rn Hf Huniq. unfold find_integer_vectors.
  destruct (Z.ltb_spec imax 0) as [?|_]; [lia|].
  destruct (Nat.eqb_spec (length ffreqs) 0) as [?|_]; [lia|].
  destruct (Nat.ltb_spec 3 (length ffreqs)) as [?|_]; [lia|]. cbn [andb].
  set (g := fun r0 : row => _).
  destruct (mapM_total g d) as [rows Hrows].
  { intros a _. destruct (best_vector_spec ffreqs imax (freq a) Himax) as (v & Hv & _).
    exists v. exact Hv. }
  exists rows. split; [exact Hrows|].
  destruct (mapM_at _ _ _ Hrows i r Hr) as (v & Hv & Hg).
  rewrite Hv. f_equal.
  destruct (best_vector_spec ffreqs imax (freq r) Himax) as (v' & Hv' & Lv & Rv & Hmin).
  unfold g in Hg. rewrite Hv' in Hg. inversion Hg; subst v'.
  apply Huniq; auto.
  specialize (Hmin n0 Ln Rn). rewrite Hf in Hmin at 2.
  replace (dot n0 ffreqs - dot n0 ffreqs) with 0 in Hmin by ring.
  rewrite Rabs_R0 in Hmin.
  pose proof (Rabs_pos (freq r - dot v ffreqs)) as Hp.
  assert (E : Rabs (freq r - dot v ffreqs) = 0) by lra.
  destruct (Req_dec (freq r - dot v ffreqs) 0) as [E0|E0].
  - lra.
  - apply Rabs_no_R0 in E0. contradiction.
Qed.

Lemma find_integer_vectors_round_trip_witness :
  exists rows,
    find_integer_vectors [1] [mk_row 2 C0 0 0 0] 3 = Ok rows /\
    nth_error rows 0 = Some [2%Z].
Proof.
  apply (find_integer_vectors_round_trip [1] [mk_row 2 C0 0 0 0] 3 0
           (mk_row 2 C0 0 0 0) [2%Z]).
  - simpl; lia.
  - lia.
  - reflexivity.
  - reflexivity.
  - repeat constructor; lia.
  - unfold dot, Rsum; simpl. lra.
  - intros [|z [|z' v]] Hl _ Hd; try discriminate.
    unfold dot, Rsum in Hd; simpl in Hd. f_equal.
    apply eq_IZR. lra.
Defined.

(** ** Linearity of the quadrature and of the inner product *)

Lemma nth_map_lin3 {X : Type} (f f1 f2 f3 : X -> R) (c1 c2 c3 : R) (l : list X) :
  (forall x, f x = c1 * f1 x + c2 * f2 x + c3 * f3 x) ->
  forall i, nth i (map f l) 0
            = c1 * nth i (map f1 l) 0 + c2 * nth i (map f2 l) 0 + c3 * nth i (map f3 l) 0.
Proof.
  intros Hf. induction l as [|a l IH]; intros [|i]; simpl; try ring; auto.
Qed.

Lemma Rsum_map_lin3 {X : Type} (g g1 g2 g3 : X -> R) (c1 c2 c3 : R) (l : list X) :
  (forall x, g x = c1 * g1 x + c2 * g2 x + c3 * g3 x) ->
  Rsum (map g l) = c1 * Rsum (map g1 l) + c2 * Rsum (map g2 l) + c3 * Rsum (map g3 l).
Proof.
  intros Hg. induction l as [|x l IH]; simpl.
  - unfold Rsum; simpl; ring.
  - rewrite !Rsum_cons, IH, Hg. ring.
Qed.

Section QuadratureLinear.

Variables (y y1 y2 y3 x : list R) (c1 c2 c3 : R).
Hypothesis pointwise :
  forall i, nth i y 0 = c1 * nth i y1 0 + c2 * nth i y2 0 + c3 * nth i y3 0.

Lemma simps_term_lin3 (i : nat) :
  simps_term y x i
  = c1 * simps_term y1 x i + c2 * simps_term y2 x i + c3 * simps_term y3 x i.
Proof. unfold simps_term. rewrite !pointwise. unfold Rdiv. ring. Qed.

Lemma basic_simps_lin3 (start : nat) (stop : Z) :
  basic_simps y x start stop
  = c1 * basic_simps y1 x start stop + c2 * basic_simps y2 x start stop
    + c3 * basic_simps y3 x start stop.
Proof.
  unfold basic_simps. destruct (stop <? 0)%Z; [ring|].
  apply Rsum_map_lin3. intros i. apply simps_term_lin3.
Qed.

Lemma simps_lin3 (s1 s2 s3 : R) :
  length y1 = length y -> length y2 = length y -> length y3 = length y ->
  simps y1 x = Ok s1 -> simps y2 x = Ok s2 -> simps y3 x = Ok s3 ->
  simps y x = Ok (c1 * s1 + c2 * s2 + c3 * s3).
Proof.
  intros L1 L2 L3. unfold simps. rewrite L1, L2, L3.
  destruct (negb (Nat.eqb (length x) (length y))); [discriminate|].
  destruct (Nat.even (length y)).
  - destruct (Nat.eqb (length y) 0); [discriminate|].
    intros [= <-] [= <-] [= <-]. f_equal.
    rewrite !basic_simps_lin3, !pointwise. field.
  - intros [= <-] [= <-] [= <-]. f_equal. apply basic_simps_lin3.
Qed.

End QuadratureLinear.

Lemma simps_map_lin3 {X : Type} (f f1 f2 f3 : X -> R) (c1 c2 c3 : R)
      (l : list X) (x : list R) (s1 s2 s3 : R) :
  (forall a, f a = c1 * f1 a + c2 * f2 a + c3 * f3 a) ->
  simps (map f1 l) x = Ok s1 -> simps (map f2 l) x = Ok s2 ->
  simps (map f3 l) x = Ok s3 ->
  simps (map f l) x = Ok (c1 * s1 + c2 * s2 + c3 * s3).
Proof.
  intros Hf. apply simps_lin3; rewrite ?length_map; auto.
  now apply nth_map_lin3.
Qed.

Lemma simps_scale (y x : list R) (c : R) :
  simps (map (fun v => v * c) y) x = rmap (fun s => s * c) (simps y x).
Proof.
  destruct (simps y x) as [s|e] eqn:Es.
  - unfold rmap; cbn [bind].
    replace (s * c) with (c * s + 0 * s + 0 * s) by ring.
    rewrite <- (map_id y) in Es.
    refine (simps_map_lin3 _ (fun v => v) (fun v => v) (fun v => v) c 0 0 y x s s s
              _ Es Es Es).
    intros a. ring.
  - unfold rmap; cbn [bind]. unfold simps in *. rewrite length_map.
    destruct (negb (Nat.eqb (length x) (length y))); [exact Es|].
    destruct (Nat.even (length y)); [|discriminate].
    destruct (Nat.eqb (length y) 0); [exact Es|discriminate].
Qed.

(** a list as a function of the index *)
Lemma list_as_map_seq {X : Type} (d : X) (l : list X) :
  l = map (fun i => nth i l d) (seq 0 (length l)).
Proof.
  induction l as [|a l IH]; [reflexivity|].
  cbn [length seq map nth]. f_equal.
  rewrite <- seq_shift, map_map. exact IH.
Qed.

(** the inner product of two series given by their entries, on an object
    whose arrays have the length of the series *)
Lemma hanning_product_entries (self : NAFF) (len : nat) (U V : nat -> C) :
  length (chi self) = len ->
  hanning_product self (map U (seq 0 len)) (map V (seq 0 len))
  = (sr <- simps (map (fun i => Re (Cscale (Cmul (U i) (Cconj (V i)))
                                           (nth i (chi self) 0)))
                      (seq 0 len)) (tz self) ;;
     si <- simps (map (fun i => Im (Cscale (Cmul (U i) (Cconj (V i)))
                                           (nth i (chi self) 0)))
                      (seq 0 len)) (tz self) ;;
     Ok (mkC (sr / (2 * T self)) (si / (2 * T self)))).
Proof.
  intros Lc. unfold hanning_product.
  rewrite bcast2_same_length by (now rewrite !length_map).
  cbn [bind]. rewrite zip_with_map_both.
  rewrite (list_as_map_seq 0 (chi self)) at 1. rewrite Lc.
  rewrite bcast2_same_length by (now rewrite !length_map).
  cbn [bind]. rewrite zip_with_map_both, !map_map. reflexivity.
Qed.

Lemma bind2_ok_inv (c1 c2 : result R) (k : R -> R -> C) (p : C) :
  (sr <- c1 ;; si <- c2 ;; Ok (k sr si)) = Ok p ->
  exists sr si, c1 = Ok sr /\ c2 = Ok si /\ p = k sr si.
Proof.
  destruct c1 as [sr|]; cbn [bind]; [|discriminate].
  destruct c2 as [si|]; cbn [bind]; [|discriminate].
  intros [= <-]. eauto.
Qed.

(** the inner product is linear in its first argument *)
Lemma hanning_product_lin_l (self : NAFF) (len : nat) (U W V : nat -> C) (a b p q : C) :
  length (chi self) = len ->
  hanning_product self (map U (seq 0 len)) (map V (seq 0 len)) = Ok p ->
  hanning_product self (map W (seq 0 len)) (map V (seq 0 len)) = Ok q ->
  hanning_product self
    (map (fun i => Cadd (Cmul a (U i)) (Cmul b (W i))) (seq 0 len))
    (map V (seq 0 len))
  = Ok (Cadd (Cmul a p) (Cmul b q)).
Proof.
  intros Lc Hp Hq. rewrite hanning_product_entries in * by exact Lc.
  apply bind2_ok_inv in Hp. destruct Hp as (pr & pi & Hpr & Hpi & ->).
  apply bind2_ok_inv in Hq. destruct Hq as (qr & qi & Hqr & Hqi & ->).
  pose (X := fun i => nth i (chi self) 0).
  pose (FU := fun i => Cscale (Cmul (U i) (Cconj (V i))) (X i)).
  pose (FW := fun i => Cscale (Cmul (W i) (Cconj (V i))) (X i)).
  pose (F := fun i => Cscale (Cmul (Cadd (Cmul a (U i)) (Cmul b (W i))) (Cconj (V i)))
                             (X i)).
  change (simps (map (fun i => Re (FU i)) (seq 0 len)) (tz self) = Ok pr) in Hpr.
  change (simps (map (fun i => Im (FU i)) (seq 0 len)) (tz self) = Ok pi) in Hpi.
  change (simps (map (fun i => Re (FW i)) (seq 0 len)) (tz self) = Ok qr) in Hqr.
  change (simps (map (fun i => Im (FW i)) (seq 0 len)) (tz self) = Ok qi) in Hqi.
  change ((sr <- simps (map (fun i => Re (F i)) (seq 0 len)) (tz self) ;;
           si <- simps (map (fun i => Im (F i)) (seq 0 len)) (tz self) ;;
           Ok (mkC (sr / (2 * T self)) (si / (2 * T self))))
          = Ok (Cadd (Cmul a (mkC (pr / (2 * T self)) (pi / (2 * T self))))
                     (Cmul b (mkC (qr / (2 * T self)) (qi / (2 * T self)))))).
  pose proof (simps_map_lin3
                (fun i => Re b * Re (FW i) - Im b * Im (FW i))
                (fun i => Re (FW i)) (fun i => Im (FW i)) (fun i => Im (FW i))
                (Re b) (- Im b) 0 (seq 0 len) (tz self) qr qi qi
                ltac:(intros; cbv beta; ring) Hqr Hqi Hqi) as Hbr.
  pose proof (simps_map_lin3
                (fun i => Im b * Re (FW i) + Re b * Im (FW i))
                (fun i => Re (FW i)) (fun i => Im (FW i)) (fun i => Im (FW i))
                (Im b) (Re b) 0 (seq 0 len) (tz self) qr qi qi
                ltac:(intros; cbv beta; ring) Hqr Hqi Hqi) as Hbi.
  assert (Hr := simps_map_lin3
                (fun i => Re (F i))
                (fun i => Re (FU i)) (fun i => Im (FU i))
                (fun i => Re b * Re (FW i) - Im b * Im (FW i))
                (Re a) (- Im a) 1 (seq 0 len) (tz self) pr pi _
                ltac:(intros; cbv beta; unfold F, FU, FW, Cscale, Cmul, Cadd, Cconj; simpl; ring)
                Hpr Hpi Hbr).
  assert (Hi := simps_map_lin3
                (fun i => Im (F i))
                (fun i => Re (FU i)) (fun i => Im (FU i))
                (fun i => Im b * Re (FW i) + Re b * Im (FW i))
                (Im a) (Re a) 1 (seq 0 len) (tz self) pr pi _
                ltac:(intros; cbv beta; unfold F, FU, FW, Cscale, Cmul, Cadd, Cconj; simpl; ring)
                Hpr Hpi Hbi).
  rewrite Hr, Hi. cbn [bind]. f_equal.
  unfold Cadd, Cmul; simpl. f_equal; unfold Rdiv; ring.
Qed.

(** ** What the subtraction leaves, and the norm of a Gram-Schmidt vector *)

Lemma hanning_product_sub_l (self : NAFF) (f e v : list C) (a p q : C) :
  length f = length v -> length e = length v -> length (chi self) = length v ->
  hanning_product self f v = Ok p ->
  hanning_product self e v = Ok q ->
  hanning_product self (zip_with Csub f (map (Cmul a) e)) v
  = Ok (Csub p (Cmul a q)).
Proof.
  intros Lf Le Lc Hp Hq.
  rewrite (list_as_map_seq C0 f) in Hp |- *. rewrite Lf in Hp |- *.
  rewrite (list_as_map_seq C0 e) in Hq |- *. rewrite Le in Hq |- *.
  rewrite (list_as_map_seq C0 v) in Hp, Hq |- *.
  rewrite !length_map, !length_seq in *.
  rewrite map_map, zip_with_map_both.
  pose proof (hanning_product_lin_l self (length v) _ _ _ C1 (Csub C0 a) p q Lc Hp Hq)
    as H.
  cbv beta in H.
  replace (Csub p (Cmul a q)) with (Cadd (Cmul C1 p) (Cmul (Csub C0 a) q))
    by (unfold Cadd, Cmul, Csub, C1, C0; simpl; f_equal; ring).
  rewrite <- H. f_equal. apply map_ext. intros i.
  unfold Cadd, Cmul, Csub, C1, C0; simpl; f_equal; ring.
Qed.

(** X18.  After [sub_chi] has subtracted [ab] times the basis vector [e]
    from the series [f], where [ab] is the inner product of [f] and [e],
    the inner product of the residual and [e] is [ab (1 - <e, e>)]: the
    component along [e] is removed exactly when [e] has unit norm. *)
Theorem sub_chi_projection (self : NAFF) (f e : list C) (ab ee : C)
        (f' : list C) (fmax : R) :
  length f = length e -> length (chi self) = length e ->
  hanning_product self f e = Ok ab ->
  hanning_product self e e = Ok ee ->
  sub_chi f e ab = Ok (f', fmax) ->
  hanning_product self f' e = Ok (Cmul ab (Csub C1 ee)) /\
  (ee = C1 -> hanning_product self f' e = Ok C0).
Proof.
  intros Lf Lc Hab Hee Hs. unfold sub_chi in Hs.
  rewrite bcast2_same_length in Hs by (now rewrite length_map).
  cbn [bind] in Hs.
  destruct (amax _) as [m|]; cbn [bind] in Hs; [|discriminate].
  inversion Hs; subst f' m. clear Hs.
  rewrite (hanning_product_sub_l self f e e ab ab ee Lf eq_refl Lc Hab Hee).
  split.
  - f_equal. unfold Cmul, Csub, C1; simpl. f_equal; ring.
  - intros ->. f_equal. unfold Cmul, Csub, C1, C0; simpl. f_equal; ring.
Qed.

Lemma sub_chi_projection_witness :
  exists f' fmax,
    sub_chi [C1; C1; C0] [C1; C1; C1] (Cscale (Cmul C1 (Cconj C1)) (4 / 3))
    = Ok (f', fmax) /\
    hanning_product grid3 f' [C1; C1; C1]
    = Ok (Cmul (Cscale (Cmul C1 (Cconj C1)) (4 / 3))
               (Csub C1 (Cscale (Cmul C1 (Cconj C1)) (4 / 3)))).
Proof.
  do 2 eexists. split; [reflexivity|].
  refine (proj1 (sub_chi_projection grid3 [C1; C1; C0] [C1; C1; C1] _ _ _ _
                   eq_refl eq_refl (hanning_product_grid3 _ _ _ _ _ _)
                   (hanning_product_grid3 _ _ _ _ _ _) eq_refl)).
Defined.

Lemma zip_with_map_r {X Y Y' Z Z' : Type} (g : X -> Y' -> Z') (g' : X -> Y -> Z)
      (h : Y -> Y') (h' : Z -> Z') (u : list X) (v : list Y) :
  (forall a b, g a (h b) = h' (g' a b)) ->
  zip_with g u (map h v) = map h' (zip_with g' u v).
Proof.
  intros Hg; revert v; induction u as [|a u IH]; intros [|b v]; simpl; auto.
  now rewrite Hg, IH.
Qed.

Lemma bcast2_map_r {X Y Y' Z Z' : Type} (g : X -> Y' -> Z') (g' : X -> Y -> Z)
      (h : Y -> Y') (h' : Z -> Z') (u : list X) (v : list Y) :
  (forall a b, g a (h b) = h' (g' a b)) ->
  bcast2 g u (map h v) = rmap (map h') (bcast2 g' u v).
Proof.
  intros Hg. unfold bcast2. rewrite length_map.
  destruct (Nat.eqb (length u) (length v)) eqn:E.
  - simpl. now rewrite (zip_with_map_r g g' h h').
  - destruct u as [|a [|a' u]], v as [|b [|b' v]]; simpl in *;
      try reflexivity; try discriminate;
      list_eq_by Hg.
Qed.

(** scaling a series by a complex number scales its self inner product by
    the squared modulus *)
Lemma hanning_product_scaled (self : NAFF) (e : list C) (z : C) :
  hanning_product self (map (fun x => Cmul x z) e) (map (fun x => Cmul x z) e)
  = rmap (fun p => Cscale p (Re z * Re z + Im z * Im z)) (hanning_product self e e).
Proof.
  set (zz := Re z * Re z + Im z * Im z).
  unfold hanning_product.
  rewrite (bcast2_map_l _ (fun a b => Cmul a (Cconj b)) _ (fun x => Cmul x z))
    by (intros; unfold Cmul, Cconj; simpl; f_equal; ring).
  rewrite (bcast2_map_r _ (fun a b => Cmul a (Cconj b)) _ (fun x => Cmul x (Cconj z)))
    by (intros; unfold Cmul, Cconj; simpl; f_equal; ring).
  destruct (bcast2 (fun a b => Cmul a (Cconj b)) e e) as [uu|]; [|reflexivity].
  unfold rmap; cbn [bind]. rewrite map_map.
  rewrite (bcast2_map_l Cscale Cscale _ (fun x => Cmul (Cmul x (Cconj z)) z))
    by (intros; unfold Cmul, Cconj, Cscale; simpl; f_equal; ring).
  destruct (bcast2 Cscale uu (chi self)) as [integ|]; [|reflexivity].
  unfold rmap; cbn [bind].
  replace (map Re (map (fun x => Cmul (Cmul x (Cconj z)) z) integ))
    with (map (fun v => v * zz) (map Re integ))
    by (rewrite !map_map; apply map_ext; intros;
        unfold zz, Cmul, Cconj; simpl; ring).
  replace (map Im (map (fun x => Cmul (Cmul x (Cconj z)) z) integ))
    with (map (fun v => v * zz) (map Im integ))
    by (rewrite !map_map; apply map_ext; intros;
        unfold zz, Cmul, Cconj; simpl; ring).
  rewrite !simps_scale.
  destruct (simps (map Re integ) (tz self)) as [sr|]; [|reflexivity].
  unfold rmap; cbn [bind].
  destruct (simps (map Im integ) (tz self)) as [si|]; [|reflexivity].
  cbn [bind]. unfold Cscale; simpl. f_equal. f_equal; unfold Rdiv; ring.
Qed.

(** the normalization factor for a positive self inner product *)
Lemma norm_factor (p : R) :
  0 < p ->
  let z := Cinv (Csqrt (mkC p 0)) in
  p * (Re z * Re z + Im z * Im z) = 1.
Proof.
  intros Hp. unfold Cinv, Csqrt, Cmod. cbn [Re Im].
  replace (p * p + 0 * 0) with (p * p) by ring.
  rewrite sqrt_square by lra.
  replace ((p + p) / 2) with p by field.
  replace ((p - p) / 2) with 0 by field.
  rewrite sqrt_0. destruct (Rlt_dec 0 0) as [H|_]; [lra|].
  assert (Hs : sqrt p * sqrt p = p) by (apply sqrt_sqrt; lra).
  assert (Hs0 : sqrt p <> 0) by (intros E; rewrite E in Hs; lra).
  replace (sqrt p * sqrt p + 1 * 0 * (1 * 0)) with p by (rewrite Hs; ring).
  replace (sqrt p / p * (sqrt p / p) + - (1 * 0) / p * (- (1 * 0) / p))
    with (sqrt p * sqrt p / (p * p)) by (field; lra).
  rewrite Hs. field. lra.
Qed.

(** X19.  When the self inner product of the orthogonalization residual is
    positive, [gso] returns a vector of unit norm: its weighted inner
    product with itself is 1. *)
Theorem gso_unit_norm (self : NAFF) (ecap : list (list C)) (nu : R) (k : nat)
        (e_i : list C) (prod : C) :
  gso_residual self ecap nu k = Ok e_i ->
  hanning_product self e_i e_i = Ok prod ->
  0 < Re prod ->
  exists e, gso self ecap nu k = Ok e /\ hanning_product self e e = Ok C1.
Proof.
  intros Hres Hprod Hpos. unfold gso. rewrite Hres; cbn [bind].
  rewrite Hprod; cbn [bind]. eexists. split; [reflexivity|].
  assert (Him : Im prod = 0) by (eapply hanning_product_self_im; eauto).
  assert (Hne : Ceqb prod C0 = false).
  { unfold Ceqb, Reqb. cbn [Re C0].
    destruct (Req_dec_T (Re prod) 0) as [E|_]; [lra|reflexivity]. }
  rewrite Hne, hanning_product_scaled, Hprod. unfold rmap; cbn [bind]. f_equal.
  destruct prod as [p q]. cbn [Re Im] in *. subst q.
  pose proof (norm_factor p Hpos) as Hn. cbv zeta in Hn.
  unfold Cscale, C1. cbn [Re Im]. f_equal; [exact Hn|ring].
Qed.

Lemma gso_unit_norm_witness :
  exists e, gso grid3 [[C0; C0; C0]] 0 0 = Ok e /\ hanning_product grid3 e e = Ok C1.
Proof.
  assert (H : exists e0 e2 : C,
             gso_residual grid3 [[C0; C0; C0]] 0 0
             = Ok [e0; Csub (Cexp_i (0 * 1)) C0; e2]).
  { unfold gso_residual. cbn [seq mapM bind t grid3 map firstn zip_with ncols length].
    unfold colsum. cbn [fold_left repeat].
    rewrite bcast2_same_length by reflexivity. do 2 eexists. reflexivity. }
  destruct H as (e0 & e2 & H).
  refine (gso_unit_norm grid3 [[C0; C0; C0]] 0 0 _ _ H
            (hanning_product_grid3 _ _ _ _ _ _) _).
  unfold Cscale, Cmul, Cconj, Csub, Cexp_i, C0. cbn [Re Im].
  rewrite Rmult_0_l, cos_0, sin_0. lra.
Defined.

(** ** Orthogonality of the Gram-Schmidt vector *)

Ltac Csimp := unfold Cadd, Cmul, Csub, Cscale, Cconj, C0, C1; simpl; f_equal; ring.

Lemma Cmul_C1_l (z : C) : Cmul C1 z = z.
Proof. destruct z. Csimp. Qed.

Lemma hanning_product_add_l (self : NAFF) (f e v : list C) (a p q : C) :
  length f = length v -> length e = length v -> length (chi self) = length v ->
  hanning_product self f v = Ok p ->
  hanning_product self e v = Ok q ->
  hanning_product self (zip_with Cadd f (map (Cmul a) e)) v
  = Ok (Cadd p (Cmul a q)).
Proof.
  intros Lf Le Lc Hp Hq.
  rewrite (list_as_map_seq C0 f) in Hp |- *. rewrite Lf in Hp |- *.
  rewrite (list_as_map_seq C0 e) in Hq |- *. rewrite Le in Hq |- *.
  rewrite (list_as_map_seq C0 v) in Hp, Hq |- *.
  rewrite !length_map, !length_seq in *.
  rewrite map_map, zip_with_map_both.
  pose proof (hanning_product_lin_l self (length v) _ _ _ C1 a p q Lc Hp Hq) as H.
  cbv beta in H. rewrite Cmul_C1_l in H.
  rewrite <- H. f_equal. apply map_ext. intros i. now rewrite Cmul_C1_l.
Qed.

Lemma hanning_product_scale_l (self : NAFF) (e v : list C) (z p : C) :
  length e = length v -> length (chi self) = length v ->
  hanning_product self e v = Ok p ->
  hanning_product self (map (fun x => Cmul x z) e) v = Ok (Cmul p z).
Proof.
  intros Le Lc Hp.
  rewrite (list_as_map_seq C0 e) in Hp |- *. rewrite Le in Hp |- *.
  rewrite (list_as_map_seq C0 v) in Hp |- *.
  rewrite !length_map, !length_seq in *.
  rewrite map_map.
  pose proof (hanning_product_lin_l self (length v) _ _ _ z C0 p p Lc Hp Hp) as H.
  cbv beta in H.
  replace (Cmul p z) with (Cadd (Cmul z p) (Cmul C0 p)) by (destruct p, z; Csimp).
  rewrite <- H. f_equal. apply map_ext. intros i.
  destruct (nth i e C0), z. Csimp.
Qed.

(** the sum of the projections: the accumulated rows, and their inner
    product with a series [v] *)
Lemma colsum_product (self : NAFF) (v : list C) (rows : list (list C)) :
  length (chi self) = length v ->
  Forall (fun r => length r = length v) rows ->
  forall (cs qs : list C) (acc : list C) (pa : C),
    length cs = length rows -> length qs = length rows ->
    (forall j r q, nth_error rows j = Some r -> nth_error qs j = Some q ->
                   hanning_product self r v = Ok q) ->
    length acc = length v ->
    hanning_product self acc v = Ok pa ->
    let s := fold_left (zip_with Cadd)
                       (zip_with (fun c r => map (Cmul c) r) cs rows) acc in
    length s = length v /\
    hanning_product self s v = Ok (fold_left Cadd (zip_with Cmul cs qs) pa).
Proof.
  intros Lc Hrows. induction Hrows as [|r rows Hr _ IH];
    intros cs qs acc pa Lcs Lqs Hq La Ha.
  - destruct cs; [|discriminate]. simpl. auto.
  - destruct cs as [|c cs]; [discriminate|]. destruct qs as [|q qs]; [discriminate|].
    cbn [zip_with fold_left].
    apply IH.
    + simpl in Lcs. lia.
    + simpl in Lqs. lia.
    + intros j r' q' Hj Hj'. apply (Hq (S j)); assumption.
    + rewrite zip_with_length; [exact La|]. rewrite length_map. congruence.
    + apply hanning_product_add_l; auto. apply (Hq 0%nat); reflexivity.
Qed.

Lemma Csum_delta (m : nat) (cs : list C) :
  forall (s : nat) (acc : C),
    fold_left Cadd
      (zip_with Cmul cs
                (map (fun j => if Nat.eqb j m then C1 else C0) (seq s (length cs))))
      acc
    = Cadd acc (if Nat.leb s m && Nat.ltb m (s + length cs)
                then nth (m - s) cs C0 else C0).
Proof.
  induction cs as [|c cs IH]; intros s acc.
  - cbn [length seq map zip_with fold_left]. rewrite Nat.add_0_r.
    destruct (Nat.leb_spec s m), (Nat.ltb_spec m s); cbn [andb]; try lia;
      destruct acc; Csimp.
  - cbn [length seq map zip_with fold_left]. rewrite IH.
    destruct (Nat.eqb_spec s m) as [->|Hne].
    + rewrite Nat.sub_diag. cbn [nth].
      destruct (Nat.leb_spec (S m) m); [lia|]. cbn [andb].
      destruct (Nat.leb_spec m m); [|lia].
      destruct (Nat.ltb_spec m (m + S (length cs))); [|lia]. cbn [andb].
      destruct acc, c. Csimp.
    + destruct (Nat.leb_spec (S s) m), (Nat.ltb_spec m (S s + length cs));
        destruct (Nat.leb_spec s m), (Nat.ltb_spec m (s + S (length cs)));
        cbn [andb]; try lia;
        try (replace (m - s)%nat with (S (m - S s)) by lia; cbn [nth]);
        Csimp.
Qed.

Lemma fold_zip_Cadd_length (len : nat) (terms : list (list C)) :
  Forall (fun r => length r = len) terms ->
  forall acc, length acc = len ->
              length (fold_left (zip_with Cadd) terms acc) = len.
Proof.
  induction 1 as [|r terms Hr _ IH]; intros acc La; simpl; [exact La|].
  apply IH. rewrite zip_with_length; congruence.
Qed.

Section GramSchmidt.

Variable self : NAFF.
Variable len : nat.
Hypothesis self_aligned : aligned self len.
Hypothesis len_pos : (1 <= len)%nat.

Variable ecap : list (list C).
Variable k : nat.
Hypothesis ecap_rect : Forall (fun r => length r = len) ecap.
Hypothesis k_rows : (k <= length ecap)%nat.

(** the rows [ecap[:k]] are orthonormal *)
Hypothesis orthonormal :
  forall i j, (i < k)%nat -> (j < k)%nat ->
              hanning_product self (nth i ecap []) (nth j ecap [])
              = Ok (if Nat.eqb i j then C1 else C0).

Lemma gso_residual_orthogonal (nu : R) (e_i : list C) (m : nat) :
  gso_residual self ecap nu k = Ok e_i -> (m < k)%nat ->
  length e_i = len /\ hanning_product self e_i (nth m ecap []) = Ok C0.
Proof.
  destruct self_aligned as (Lt & Lz & Lc).
  intros H Hm. unfold gso_residual in H.
  set (u_n := map (fun ti => Cexp_i (nu * ti)) (t self)) in H.
  assert (Lu : length u_n = len) by (unfold u_n; now rewrite length_map).
  bind_ok_step H cs Ecs.
  assert (Hcs : length cs = k)
    by (rewrite (mapM_length _ _ _ Ecs); apply length_seq).
  set (v := nth m ecap []).
  assert (Hv : In v ecap) by (apply nth_In; lia).
  assert (Lv : length v = len) by (exact (proj1 (Forall_forall _ _) ecap_rect v Hv)).
  assert (Hnc : ncols ecap = len).
  { destruct ecap as [|r0 rest]; [simpl in k_rows; lia|].
    simpl. now inversion ecap_rect. }
  rewrite Hnc in H.
  set (rows := firstn k ecap) in H.
  assert (Lrows : length rows = k) by (unfold rows; rewrite length_firstn; lia).
  assert (Hrows : Forall (fun r => length r = length v) rows).
  { rewrite Lv. unfold rows. apply Forall_firstn_keep. exact ecap_rect. }
  set (qs := map (fun j => if Nat.eqb j m then C1 else C0) (seq 0 (length cs))).
  destruct (colsum_product self v rows ltac:(congruence) Hrows cs qs
              (repeat C0 len) C0) as [Ls Hs].
  - congruence.
  - unfold qs. rewrite length_map, length_seq. congruence.
  - intros j r q Hj Hq. unfold qs in Hq.
    rewrite nth_error_map in Hq.
    assert (Hjk : (j < k)%nat).
    { rewrite <- Lrows. apply nth_error_Some. congruence. }
    rewrite nth_error_nth' with (d := 0%nat) in Hq by (rewrite length_seq; lia).
    rewrite seq_nth in Hq by lia. cbn [option_map Nat.add] in Hq.
    inversion Hq; subst q.
    unfold rows in Hj. rewrite nth_error_firstn in Hj.
    destruct (Nat.ltb_spec j k); [|lia].
    rewrite <- (nth_error_nth _ _ [] Hj). unfold v. now apply orthonormal.
  - rewrite repeat_length. congruence.
  - rewrite <- Lv. apply hanning_product_zeros_l; congruence || lia.
  - cbv zeta in Ls, Hs. unfold colsum in H.
    set (proj := fold_left _ _ _) in *.
    rewrite bcast2_same_length in H by congruence.
    inversion H; subst e_i. clear H.
    split; [rewrite zip_with_length; congruence|].
    destruct (mapM_at _ _ _ Ecs m m) as (cm & Hcm & Hg).
    { rewrite nth_error_nth' with (d := 0%nat) by (rewrite length_seq; lia).
      now rewrite seq_nth by lia. }
    unfold getitem in Hg.
    rewrite (nth_error_nth' ecap []) in Hg by lia. cbn [bind] in Hg. fold v in Hg.
    replace proj with (map (Cmul C1) proj)
      by (rewrite <- (map_id proj) at 2; apply map_ext; apply Cmul_C1_l).
    assert (L1 : length u_n = length v) by congruence.
    assert (L2 : length (chi self) = length v) by congruence.
    rewrite (hanning_product_sub_l self u_n proj v C1 cm _ L1 Ls L2 Hg Hs).
    f_equal. unfold qs. rewrite Csum_delta. cbn [Nat.leb andb Nat.add].
    destruct (Nat.ltb_spec m (length cs)); [|lia].
    rewrite Nat.sub_0_r, (nth_error_nth _ _ C0 Hcm).
    destruct cm. Csimp.
Qed.

Lemma gso_orthogonal_rows (nu : R) (e : list C) (m : nat) :
  gso self ecap nu k = Ok e -> (m < k)%nat ->
  hanning_product self e (nth m ecap []) = Ok C0.
Proof.
  intros H Hm. unfold gso in H.
  bind_ok_step H e_i Er. bind_ok_step H prod Ep.
  inversion H; subst e. clear H.
  destruct (gso_residual_orthogonal nu e_i m Er Hm) as [Le Ho].
  assert (Hv : In (nth m ecap []) ecap) by (apply nth_In; lia).
  assert (Lv : length (nth m ecap []) = len)
    by (exact (proj1 (Forall_forall _ _) ecap_rect _ Hv)).
  destruct self_aligned as (_ & _ & Lc).
  assert (L1 : length e_i = length (nth m ecap [])) by congruence.
  assert (L2 : length (chi self) = length (nth m ecap [])) by congruence.
  rewrite (hanning_product_scale_l self e_i _ _ C0 L1 L2 Ho).
  f_equal. Csimp.
Qed.

End GramSchmidt.

(** X20.  Gram-Schmidt: when the rows [ecap[:k]] are orthonormal for the
    weighted inner product (and all arrays have the length of the grid),
    the vector returned by [gso] is orthogonal to each of them. *)
Theorem gso_orthogonal (self : NAFF) (len : nat) (ecap : list (list C)) (k : nat)
        (nu : R) (e : list C) :
  aligned self len -> (1 <= len)%nat ->
  Forall (fun r => length r = len) ecap -> (k <= length ecap)%nat ->
  (forall i j, (i < k)%nat -> (j < k)%nat ->
               hanning_product self (nth i ecap []) (nth j ecap [])
               = Ok (if Nat.eqb i j then C1 else C0)) ->
  gso self ecap nu k = Ok e ->
  forall m, (m < k)%nat -> hanning_product self e (nth m ecap []) = Ok C0.
Proof.
  intros Ha Hl Hr Hk Ho Hg m Hm.
  exact (gso_orthogonal_rows self len Ha Hl ecap k Hr Hk Ho nu e m Hg Hm).
Qed.

(** the inner product on the five-sample grid *)
Lemma simps_grid5 (y0 y1 y2 y3 y4 : R) :
  simps [y0; y1; y2; y3; y4] [-2; -1; 0; 1; 2]
  = Ok ((y0 + 4 * y1 + 2 * y2 + 4 * y3 + y4) / 3).
Proof.
  unfold simps, basic_simps, simps_term, Rsum. simpl. f_equal. field.
Qed.

Lemma hanning_product_grid5 (u0 u1 u2 u3 u4 v0 v1 v2 v3 v4 : C) :
  hanning_product grid5 [u0; u1; u2; u3; u4] [v0; v1; v2; v3; v4]
  = Ok (Cscale (Cadd (Cmul u1 (Cconj v1))
                     (Cadd (Cmul u2 (Cconj v2)) (Cmul u3 (Cconj v3)))) (1 / 3)).
Proof.
  unfold hanning_product, grid5. cbn [chi tz T].
  rewrite bcast2_same_length by reflexivity. cbn [bind].
  rewrite bcast2_same_length by reflexivity. cbn [bind zip_with map].
  rewrite !simps_grid5. cbn [bind]. unfold Cscale, Cmul, Cconj, Cadd; simpl.
  f_equal. f_equal; field.
Qed.

Lemma gso_orthogonal_witness :
  exists e, gso grid5 [ones5; ones5] 1 1 = Ok e /\
            hanning_product grid5 e ones5 = Ok C0.
Proof.
  assert (H : exists e, gso grid5 [ones5; ones5] 1 1 = Ok e).
  { unfold gso, gso_residual, ones5.
    cbn [seq mapM getitem nth_error bind t grid5 map].
    rewrite hanning_product_grid5. cbn [bind firstn zip_with ncols length colsum].
    unfold colsum. cbn [fold_left repeat zip_with map].
    rewrite bcast2_same_length by reflexivity. cbn [bind zip_with].
    rewrite hanning_product_grid5. cbn [bind]. eexists. reflexivity. }
  destruct H as [e He]. exists e. split; [exact He|].
  refine (gso_orthogonal grid5 5 [ones5; ones5] 1 1 e _ _ _ _ _ He 0%nat _).
  - repeat split.
  - lia.
  - repeat constructor.
  - simpl; lia.
  - intros [|i] [|j] Hi Hj; try lia. cbn [nth Nat.eqb]. unfold ones5.
    rewrite hanning_product_grid5. f_equal.
    unfold Cscale, Cadd, Cmul, Cconj, C1; simpl. f_equal; field.
  - lia.
Defined.

(** X21.  The weighted inner product is linear in its first argument: for
    series of the length of the grid,
    [<f + a e, v> = <f, v> + a <e, v>]. *)
Theorem hanning_product_linear (self : NAFF) (f e v : list C) (a p q : C) :
  length f = length v -> length e = length v -> length (chi self) = length v ->
  hanning_product self f v = Ok p ->
  hanning_product self e v = Ok q ->
  hanning_product self (zip_with Cadd f (map (Cmul a) e)) v
  = Ok (Cadd p (Cmul a q)).
Proof. apply hanning_product_add_l. Qed.

Lemma hanning_product_linear_witness :
  hanning_product grid3
    (zip_with Cadd [C1; C1; C0] (map (Cmul (mkC 0 1)) [C0; C1; C1])) [C1; C1; C1]
  = Ok (Cadd (Cscale (Cmul C1 (Cconj C1)) (4 / 3))
             (Cmul (mkC 0 1) (Cscale (Cmul C1 (Cconj C1)) (4 / 3)))).
Proof.
  exact (hanning_product_linear grid3 [C1; C1; C0] [C0; C1; C1] [C1; C1; C1]
           (mkC 0 1) _ _ eq_refl eq_refl eq_refl
           (hanning_product_grid3 _ _ _ _ _ _) (hanning_product_grid3 _ _ _ _ _ _)).
Defined.

(** ** The coarse estimate of [frequency] *)

Lemma argmax_from_lt (l : list R) :
  forall bi b i, (bi < i)%nat -> (argmax_from bi b i l < i + length l)%nat.
Proof.
  induction l as [|x l IH]; intros bi b i Hbi; simpl; [lia|].
  destruct (Rlt_dec b x).
  - specialize (IH i x (S i)). lia.
  - specialize (IH bi b (S i)). lia.
Qed.

Lemma argmax_lt (l : list R) (i : nat) : argmax l = Ok i -> (i < length l)%nat.
Proof.
  destruct l as [|x l]; [discriminate|]. simpl. intros [= <-].
  pose proof (argmax_from_lt l 0 x 1). lia.
Qed.

Lemma fft_length (f F : list C) : fft f = Ok F -> length F = length f.
Proof.
  unfold fft. destruct f as [|c f0]; [discriminate|].
  remember (c :: f0) as l eqn:El. intros H.
  assert (E : exists g, F = map g (seq 0 (length l))).
  { eexists. inversion H. reflexivity. }
  destruct E as [g ->]. now rewrite length_map, length_seq.
Qed.

Lemma half_split (k : nat) : (1 <= k)%nat -> (S ((k - 1) / 2) + k / 2 = k)%nat.
Proof.
  intros Hk.
  pose proof (Nat.div_mod_eq k 2) as E1.
  pose proof (Nat.mod_upper_bound k 2 ltac:(lia)) as B1.
  pose proof (Nat.div_mod_eq (k - 1) 2) as E2.
  pose proof (Nat.mod_upper_bound (k - 1) 2 ltac:(lia)) as B2.
  lia.
Qed.

(** the entries of [fftfreq(n, d)] are the integers [-(n//2) .. (n-1)//2]
    over [n d] *)
Lemma fftfreq_entry (k : nat) (d : R) (w : nat) :
  (w < k)%nat ->
  exists kk : Z,
    (- Z.of_nat (k / 2) <= kk <= Z.of_nat ((k - 1) / 2))%Z /\
    nth_error (fftfreq k d) w = Some (IZR kk * (1 / (INR k * d))).
Proof.
  intros Hw. unfold fftfreq.
  pose proof (half_split k ltac:(lia)) as Hs.
  destruct (Nat.lt_ge_cases w (S ((k - 1) / 2))) as [Hlt|Hge].
  - exists (Z.of_nat w). split; [lia|].
    rewrite nth_error_app1 by (now rewrite length_map, length_seq).
    rewrite nth_error_map.
    rewrite nth_error_nth' with (d := 0%nat) by (now rewrite length_seq).
    rewrite seq_nth by exact Hlt. cbn [option_map Nat.add].
    now rewrite INR_IZR_INZ.
  - exists (Z.of_nat (w - S ((k - 1) / 2)) - Z.of_nat (k / 2))%Z. split; [lia|].
    rewrite nth_error_app2 by (now rewrite length_map, length_seq).
    rewrite length_map, length_seq, nth_error_map.
    rewrite nth_error_nth' with (d := 0%nat) by (rewrite length_seq; lia).
    rewrite seq_nth by lia. cbn [option_map Nat.add].
    now rewrite minus_IZR, <- !INR_IZR_INZ.
Qed.

(** X22.  The coarse frequency estimate that [frequency] refines is an
    angular frequency of the discrete Fourier transform,
    [2 pi k / (n (t[1] - t[0]))] for an integer [k] between [-(n//2)] and
    [(n-1)//2], [n] being the length of the series (and [t[0] <> t[1]]). *)
Theorem peak_on_fft_grid (self : NAFF) (f : list C) (w0 t0 t1 : R) :
  peak self f = Ok (Some w0) ->
  getitem (t self) 0 = Ok t0 -> getitem (t self) 1 = Ok t1 -> t0 <> t1 ->
  exists kk : Z,
    (- Z.of_nat (length f / 2) <= kk <= Z.of_nat ((length f - 1) / 2))%Z /\
    w0 = 2 * PI * (IZR kk * (1 / (INR (length f) * (t1 - t0)))).
Proof.
  unfold peak. intros H H0 H1 _.
  bind_ok_step H F EF. rewrite H1, H0 in H. cbn [bind] in H.
  assert (LF : length F = length f) by (now apply fft_length).
  bind_ok_step H wmax Ew.
  apply argmax_lt in Ew.
  assert (Lz : forall g : nat -> C -> R,
             length (zip_with g (seq 0 (length f))
                              (map (fun z => Cdivr z (sqrt (INR (length f)))) F))
             = length f).
  { intros g. rewrite zip_with_length; rewrite length_seq; [reflexivity|].
    now rewrite length_map. }
  rewrite zip_with_length in Ew by (now rewrite !length_map, !Lz).
  rewrite length_map, Lz in Ew.
  destruct (Req_dec_T _ 0); [discriminate|].
  inversion H as [Hw]. clear H.
  destruct (fftfreq_entry (length f) (t1 - t0) wmax Ew) as (kk & Hk & Hn).
  exists kk. split; [exact Hk|].
  exact (nth_map_nth_error (fun v => 2 * PI * v) _ _ _ Hn).
Qed.

Lemma peak_on_fft_grid_witness :
  exists kk : Z,
    (- Z.of_nat (length (series_1b0 1) / 2) <= kk
     <= Z.of_nat ((length (series_1b0 1) - 1) / 2))%Z /\
    0 = 2 * PI * (IZR kk * (1 / (INR (length (series_1b0 1)) * (1 - 0)))).
Proof.
  exact (peak_on_fft_grid grid3 (series_1b0 1) 0 0 1 (peak_grid3 1 ltac:(lra))
           eq_refl eq_refl ltac:(lra)).
Defined.


(** ** The override of [gso] *)




